(** * Schema helper core of libyang (tree_schema_helpers.c)

    A shallow embedding of the parsing and validation helpers: the status
    auditor, revision-date validation, revision sorting, the type resolver,
    the typedef collision checker, the module loader, the schema-nodeid
    resolver and keyword recognition.

    C strings are [string]s with the terminating NUL left implicit, machine
    integers are [Z] (or [nat] for indices) with their wrap-around written
    out, pointers to modules are handles into the context's module list. *)

From Stdlib Require Import ZArith Lia Bool List Ascii String.
From stdpp Require Import base decidable list strings gmap.

Local Open Scope string_scope.
Local Open Scope Z_scope.

(** ** Error codes (LY_ERR) *)

Inductive LY_ERR : Set :=
| LY_SUCCESS | LY_EMEM | LY_ESYS | LY_EINVAL | LY_EEXIST | LY_ENOTFOUND
| LY_EINT | LY_EVALID | LY_EPLUGIN | LY_EDENIED.

#[global] Instance LY_ERR_eq_dec : EqDecision LY_ERR.
Proof. solve_decision. Defined.

(** A C condition [if (err)] holds for every code but [LY_SUCCESS]. *)
Definition ly_failed (e : LY_ERR) : bool :=
  match e with LY_SUCCESS => false | _ => true end.

(** ** C strings *)

Module CStr.

Definition NUL : ascii := Ascii.zero.

(** [*s]: the byte under the cursor; the end of the string reads as NUL. *)
Definition peek (s : string) : ascii :=
  match s with
  | EmptyString => NUL
  | String c _ => c
  end.

(** [s + 1] *)
Definition next (s : string) : string :=
  match s with
  | EmptyString => EmptyString
  | String _ t => t
  end.

(** [s[i]] *)
Fixpoint char_at (s : string) (i : nat) : ascii :=
  match i with
  | O => peek s
  | S j => char_at (next s) j
  end.

Definition code (c : ascii) : Z := Z.of_N (N_of_ascii c).

(** [strncmp(s1, s2, n)]: bytes are compared as unsigned char, the
    comparison stops at the first difference, at a NUL, or after [n]
    bytes. *)
Fixpoint strncmp (s1 s2 : string) (n : nat) : Z :=
  match n with
  | O => 0
  | S n' =>
    let c1 := peek s1 in
    let c2 := peek s2 in
    if negb (code c1 =? code c2) then code c1 - code c2
    else if code c1 =? 0 then 0
    else strncmp (next s1) (next s2) n'
  end.

(** [ptr + n] on a string. *)
Fixpoint advance (s : string) (n : nat) : string :=
  match n with
  | O => s
  | S n' => advance (next s) n'
  end.

(** [q - p] for a cursor [q] that was moved forward from [p]. *)
Definition ptr_diff (q p : string) : nat := (String.length p - String.length q)%nat.

(** [strlen(s)] *)
Fixpoint strlen (s : string) : nat :=
  match s with
  | EmptyString => O
  | String c t => if code c =? 0 then O else S (strlen t)
  end.

(** [strcmp(s1, s2)]: as [strncmp] without the bound. *)
Fixpoint strcmp (s1 s2 : string) : Z :=
  match s1 with
  | EmptyString => code NUL - code (peek s2)
  | String c1 t1 =>
    if negb (code c1 =? code (peek s2)) then code c1 - code (peek s2)
    else if code c1 =? 0 then 0
    else strcmp t1 (next s2)
  end.

(** [isdigit(c)] in the C locale. *)
Definition isdigit (c : ascii) : bool :=
  (48 <=? code c) && (code c <=? 57).

Definition isalpha (c : ascii) : bool :=
  ((65 <=? code c) && (code c <=? 90)) || ((97 <=? code c) && (code c <=? 122)).

(** The bytes of [s] before the first NUL: what C sees of the string. *)
Fixpoint upto_nul (s : string) : string :=
  match s with
  | EmptyString => EmptyString
  | String c t => if code c =? 0 then EmptyString else String c (upto_nul t)
  end.

Definition no_nul (s : string) : Prop := upto_nul s = s.

End CStr.
Import CStr.

#[global] Arguments code : simpl never.
#[global] Arguments isdigit : simpl never.

(** ** Status auditor *)

Module Status.

(** Modelled from the spec: the status bits of a definition's [flags]
    (declared in tree_schema.h, not part of the sources at hand): one bit
    per status, ordered current < deprecated < obsolete, and their mask. *)
Definition LYS_STATUS_CURR : Z := 0x04.
Definition LYS_STATUS_DEPRC : Z := 0x08.
Definition LYS_STATUS_OBSLT : Z := 0x10.
Definition LYS_STATUS_MASK : Z := 0x1C.

(** [lysc_check_status]: [mod1] and [mod2] are the addresses of the two
    modules, compared as pointers. The diagnostic is not modelled. *)
Definition lysc_check_status (flags1 : Z) (mod1 : Z) (name1 : string)
                             (flags2 : Z) (mod2 : Z) (name2 : string) : LY_ERR :=
  let flg1 := if negb (Z.land flags1 LYS_STATUS_MASK =? 0)
              then Z.land flags1 LYS_STATUS_MASK else LYS_STATUS_CURR in
  let flg2 := if negb (Z.land flags2 LYS_STATUS_MASK =? 0)
              then Z.land flags2 LYS_STATUS_MASK else LYS_STATUS_CURR in
  if (flg1 <? flg2) && (mod1 =? mod2) then LY_EVALID else LY_SUCCESS.

(** The three statuses of the data model and their order. *)
Inductive status : Set := Current | Deprecated | Obsolete.

Definition status_rank (s : status) : Z :=
  match s with Current => 0 | Deprecated => 1 | Obsolete => 2 end.

(** The status a flags field denotes: no status bit means current; a field
    with several status bits set denotes none. *)
Definition flags_status (flags : Z) : option status :=
  let f := Z.land flags LYS_STATUS_MASK in
  if f =? 0 then Some Current
  else if f =? LYS_STATUS_CURR then Some Current
  else if f =? LYS_STATUS_DEPRC then Some Deprecated
  else if f =? LYS_STATUS_OBSLT then Some Obsolete
  else None.

End Status.

(** ** Revision-date validation *)

Module Date.

(** Modelled from the spec: the size of a revision buffer (tree_schema.h is
    not part of the sources at hand): the 10 bytes of YYYY-MM-DD and the
    terminating NUL. *)
Definition LY_REV_SIZE : Z := 11.

(** The fields of [struct tm] the check reads; the others stay zeroed. *)
Record tm : Set := mk_tm { tm_year : Z; tm_mon : Z; tm_mday : Z }.

Definition isspace (c : ascii) : bool :=
  (code c =? 32) || ((9 <=? code c) && (code c <=? 13)).

Fixpoint skip_spaces (rp : string) : string :=
  match rp with
  | EmptyString => EmptyString
  | String c t => if isspace c then skip_spaces t else rp
  end.

(** The C library's strptime(3), as glibc converts a decimal field: at
    most [n] digits are read, and reading stops early once another digit
    would exceed [to]. *)
Fixpoint get_number_loop (n : nat) (to val : Z) (rp : string) : Z * string :=
  let val := val * 10 + (code (peek rp) - 48) in
  let rp := next rp in
  match n with
  | S (S _ as n') =>
    if (val * 10 <=? to) && isdigit (peek rp)
    then get_number_loop n' to val rp
    else (val, rp)
  | _ => (val, rp)
  end.

Definition get_number (from to : Z) (n : nat) (rp : string) : option (Z * string) :=
  let rp := skip_spaces rp in
  if negb (isdigit (peek rp)) then None
  else
    let '(val, rp) := get_number_loop n to 0 rp in
    if (val <? from) || (to <? val) then None else Some (val, rp).

(** A literal byte of the format has to match the input. *)
Definition match_char (ch : ascii) (rp : string) : option string :=
  if code ch =? code (peek rp) then Some (next rp) else None.

(** [strptime(date, "%Y-%m-%d", &tm)]: the broken-down time and the rest of
    the input, or nothing when the input does not match the format. *)
Definition strptime_Ymd (date : string) : option (tm * string) :=
  match get_number 0 9999 4 date with
  | None => None
  | Some (year, rp) =>
    match match_char "-" rp with
    | None => None
    | Some rp =>
      match get_number 1 12 2 rp with
      | None => None
      | Some (mon, rp) =>
        match match_char "-" rp with
        | None => None
        | Some rp =>
          match get_number 1 31 2 rp with
          | None => None
          | Some (mday, rp) => Some (mk_tm (year - 1900) (mon - 1) mday, rp)
          end
        end
      end
    end
  end.

(** The C library's test for a leap year. *)
Definition is_leap (year : Z) : bool :=
  (year mod 4 =? 0) && (negb (year mod 100 =? 0) || (year mod 400 =? 0)).

(** Days of month [mon] (0 = January) of [year]. *)
Definition days_in_month (year mon : Z) : Z :=
  if mon =? 1 then (if is_leap year then 29 else 28)
  else if (mon =? 3) || (mon =? 5) || (mon =? 8) || (mon =? 10) then 30
  else 31.

(** The calendar part of the C library's mktime(3): the fields are
    normalised, a month outside 0..11 carries into the year and a day past
    the end of its month carries into the following months. A day below 1
    cannot come out of the %d conversion and is left alone. *)
Fixpoint mktime_carry (fuel : nat) (t : tm) : tm :=
  match fuel with
  | O => t
  | S fuel' =>
    let dim := days_in_month (tm_year t + 1900) (tm_mon t) in
    if tm_mday t <=? dim then t
    else if tm_mon t =? 11
         then mktime_carry fuel' (mk_tm (tm_year t + 1) 0 (tm_mday t - dim))
         else mktime_carry fuel' (mk_tm (tm_year t) (tm_mon t + 1) (tm_mday t - dim))
  end.

Definition normalize (t : tm) : tm :=
  let t := mk_tm (tm_year t + tm_mon t / 12) (tm_mon t mod 12) (tm_mday t) in
  mktime_carry (Z.to_nat (tm_mday t)) t.

(** A day of the calendar. *)
Definition calendar_day (t : tm) : Prop :=
  0 <= tm_mon t <= 11 /\ 1 <= tm_mday t <= days_in_month (tm_year t + 1900) (tm_mon t).

(** The day after and the day before a day of the calendar. *)
Definition next_day (t : tm) : tm :=
  if tm_mday t <? days_in_month (tm_year t + 1900) (tm_mon t)
  then mk_tm (tm_year t) (tm_mon t) (tm_mday t + 1)
  else if tm_mon t =? 11 then mk_tm (tm_year t + 1) 0 1
       else mk_tm (tm_year t) (tm_mon t + 1) 1.

Definition prev_day (t : tm) : tm :=
  if 1 <? tm_mday t
  then mk_tm (tm_year t) (tm_mon t) (tm_mday t - 1)
  else if tm_mon t =? 0 then mk_tm (tm_year t - 1) 11 31
       else mk_tm (tm_year t) (tm_mon t - 1)
                  (days_in_month (tm_year t + 1900) (tm_mon t - 1)).

Definition add_days (t : tm) (k : Z) : tm :=
  match k with
  | Z0 => t
  | Zpos p => Pos.iter next_day t p
  | Zneg p => Pos.iter prev_day t p
  end.

Definition SECS_PER_DAY : Z := 86400.

(** The local time zone of the process (the TZ variable and the zone
    database), which is no argument of the check but decides what mktime
    does: [tz_std] is the offset of the zone's standard time in seconds
    east of UTC, and [tz_gmtoff day sec] the offset in force at the
    instant [sec] seconds into the UTC day [day]. *)
Record timezone : Type := mk_timezone {
  tz_std : Z;
  tz_gmtoff : tm -> Z -> Z
}.

(** The C library's mktime(3) on a [struct tm] whose time of day and
    [tm_isdst] are zero, as [memset] leaves them: the fields are
    normalised, 00:00:00 of that day is read as standard time of the
    local zone (that is what a [tm_isdst] of 0 asks for), and the fields
    are overwritten with the local time the zone shows at that instant.
    The range of [time_t] is outside the model. *)
Definition mktime (tz : timezone) (t : tm) : tm :=
  let day := normalize t in
  (* the instant, in seconds from 00:00:00 UTC of [day] *)
  let instant := 0 - tz_std tz in
  let utc_day := add_days day (instant / SECS_PER_DAY) in
  let utc_sec := instant mod SECS_PER_DAY in
  let local := utc_sec + tz_gmtoff tz utc_day utc_sec in
  add_days utc_day (local / SECS_PER_DAY).

(** Two zones. In UTC the standard time is in force all year. In
    Europe/Dublin, as the zone database has it since its release 2018a,
    the standard time is Irish Standard Time (UTC+1) and is in force in
    summer, in 2018 from 25 March 01:00 UTC to 28 October 01:00 UTC; in
    winter Greenwich Mean Time is in force, as a daylight saving time
    that saves a negative hour. The days of the change are those of 2018,
    also for instants of other years. *)
Definition utc : timezone := mk_timezone 0 (fun _ _ => 0).

Definition irish_summer (day : tm) (sec : Z) : bool :=
  let at_or_after m d :=
    (m <? tm_mon day)
    || ((tm_mon day =? m) && ((d <? tm_mday day)
                              || ((tm_mday day =? d) && (3600 <=? sec)))) in
  at_or_after 2 25 && negb (at_or_after 9 28).

Definition europe_dublin : timezone :=
  mk_timezone 3600 (fun day sec => if irish_summer day sec then 3600 else 0).

(** A zone without daylight saving time. *)
Definition standard_time_only (tz : timezone) : Prop :=
  forall day sec, tz_gmtoff tz day sec = tz_std tz.

(** The format loop of [lysp_check_date]: bytes [i .. i+n-1]. *)
Fixpoint check_format (date : string) (i n : nat) : bool :=
  match n with
  | O => true
  | S n' =>
    if (Nat.eqb i 4) || (Nat.eqb i 7)
    then (if negb (code (char_at date i) =? code "-"%char) then false
          else check_format date (S i) n')
    else if negb (isdigit (char_at date i)) then false
    else check_format date (S i) n'
  end.

(** [lysp_check_date]: [date] may be NULL; [date_len] is the caller's
    length of the value. The context and the statement name only feed the
    diagnostic, which is not modelled; [tz] is the local time zone of the
    process, which mktime reads. *)
Definition lysp_check_date (tz : timezone) (date : option string) (date_len : Z)
  : LY_ERR :=
  match date with
  | None => LY_EINVAL
  | Some date =>
    if negb (date_len =? LY_REV_SIZE - 1) then LY_EINVAL
    else if negb (check_format date 0 (Z.to_nat date_len)) then LY_EINVAL
    else
      match strptime_Ymd date with
      | None => LY_EINVAL
      | Some (t, r) =>
        (* r != &date[LY_REV_SIZE - 1] *)
        if negb (Z.of_nat (String.length date) - Z.of_nat (String.length r)
                 =? LY_REV_SIZE - 1)
        then LY_EINVAL
        else
          let t_ := mktime tz t in
          if negb (tm_mday t =? tm_mday t_) then LY_EINVAL else LY_SUCCESS
      end
  end.

(** *** The dates of the specification *)

Definition digit (c : ascii) : Z := code c - 48.

(** The leap years of the Gregorian calendar: the years of every fourth
    century, no other year of a century, and every fourth year of the
    others. *)
Definition gregorian_leap_year (year : Z) : bool :=
  if year mod 400 =? 0 then true
  else if year mod 100 =? 0 then false
       else year mod 4 =? 0.

(** Length of month [month] (1 = January) in the Gregorian calendar. *)
Definition month_length (year month : Z) : Z :=
  match month with
  | 2 => if gregorian_leap_year year then 29 else 28
  | 4 | 6 | 9 | 11 => 30
  | _ => 31
  end.

Definition gregorian_date (year month day : Z) : bool :=
  (0 <=? year) && (year <=? 9999) && (1 <=? month) && (month <=? 12)
  && (1 <=? day) && (day <=? month_length year month).

(** A value in canonical form: exactly the ten bytes DDDD-DD-DD, read as
    year, month and day. *)
Definition canonical_fields (s : string) : option (Z * Z * Z) :=
  match s with
  | String y1 (String y2 (String y3 (String y4 (String h1
      (String m1 (String m2 (String h2 (String d1 (String d2 EmptyString))))))))) =>
    if isdigit y1 && isdigit y2 && isdigit y3 && isdigit y4
       && (code h1 =? code "-"%char) && isdigit m1 && isdigit m2
       && (code h2 =? code "-"%char) && isdigit d1 && isdigit d2
    then Some (1000 * digit y1 + 100 * digit y2 + 10 * digit y3 + digit y4,
               10 * digit m1 + digit m2, 10 * digit d1 + digit d2)
    else None
  | _ => None
  end.

Definition real_gregorian_date (s : string) : bool :=
  match canonical_fields s with
  | Some (y, m, d) => gregorian_date y m d
  | None => false
  end.

(** The order of the calendar on (year, month, day). *)
Definition earlier (a b : Z * Z * Z) : Prop :=
  let '(y1, m1, d1) := a in
  let '(y2, m2, d2) := b in
  y1 < y2 \/ (y1 = y2 /\ (m1 < m2 \/ (m1 = m2 /\ d1 < d2))).

End Date.

(** ** Revisions *)

Module Revisions.

(** [struct lysp_revision] *)
Record lysp_revision : Set := mk_rev { date : string; dsc : string; ref : string }.

(** [revs[i].date]; the loop only reads inside the array. *)
Definition date_at (revs : list lysp_revision) (i : Z) : string :=
  match revs !! Z.to_nat i with
  | Some rev => date rev
  | None => EmptyString
  end.

(** Modelled from the spec: [LY_ARRAY_SIZE] (the sized-array macros are not
    part of the sources at hand): the number of items of the array. *)
Definition LY_ARRAY_SIZE {A} (arr : list A) : Z := Z.of_nat (length arr).

(** The scan of [lysp_sort_revisions]. The counters [i] and [r] are
    [uint8_t]: the increment wraps around at 256. [None] stands for a scan
    that is still running when the fuel is used up. *)
Fixpoint sort_scan (fuel : nat) (revs : list lysp_revision) (i r : Z) : option Z :=
  match fuel with
  | O => None
  | S fuel' =>
    if i <? LY_ARRAY_SIZE revs
    then
      let r := if strcmp (date_at revs i) (date_at revs r) >? 0 then i else r in
      sort_scan fuel' revs ((i + 1) mod 256) r
    else Some r
  end.

(** The three [memcpy] calls that exchange [revs[0]] and [revs[r]]. *)
Definition swap_with_first (revs : list lysp_revision) (r : nat) : list lysp_revision :=
  match revs !! 0%nat, revs !! r with
  | Some rev, Some newest => <[r := rev]> (<[0%nat := newest]> revs)
  | _, _ => revs
  end.

(** [lysp_sort_revisions]: [revs] may be NULL. The result is the array
    after the call, or [None] when the call has not returned within
    [fuel] iterations. *)
Definition lysp_sort_revisions (fuel : nat) (revs : option (list lysp_revision))
  : option (option (list lysp_revision)) :=
  match revs with
  | None => Some None
  | Some arr =>
    match sort_scan fuel arr 1 0 with
    | None => None
    | Some r => Some (Some (if negb (r =? 0) then swap_with_first arr (Z.to_nat r) else arr))
    end
  end.

End Revisions.

(** ** The schema data model *)

Module Schema.

(** Modelled from the spec: the node type bits of tree_schema.h (not part
    of the sources at hand), a bit mask for each node type of the closed set
    of the data model. *)
Definition LYS_CONTAINER : Z := 0x0001.
Definition LYS_CHOICE : Z := 0x0002.
Definition LYS_LEAF : Z := 0x0004.
Definition LYS_LEAFLIST : Z := 0x0008.
Definition LYS_LIST : Z := 0x0010.
Definition LYS_ANYXML : Z := 0x0020.
Definition LYS_CASE : Z := 0x0040.
Definition LYS_USES : Z := 0x0080.
Definition LYS_ANYDATA : Z := 0x0120.
Definition LYS_INOUT : Z := 0x0200.
Definition LYS_ACTION : Z := 0x0400.
Definition LYS_NOTIF : Z := 0x0800.
Definition LYS_GROUPING : Z := 0x1000.
Definition LYS_AUGMENT : Z := 0x2000.

(** A module pointer ([struct lys_module *]) is a handle: the position of
    the module in the context's list. A pointer to a module's parsed or
    compiled facet is the handle of the module that owns it. *)
Abbreviation handle := nat (only parsing).

(** [struct lysp_tpdf]: the name of the typedef and the name of its base
    type. *)
Record lysp_tpdf : Set := mk_tpdf { tpdf_name : string; tpdf_type : string }.

(** [struct lysp_node] with the typedefs its concrete type may carry and
    the pointer to its parent. *)
#[warnings="-register-all"]
Inductive lysp_node : Set :=
  mk_node { nodetype : Z; typedefs : list lysp_tpdf; parent : option lysp_node }.

Record lysp_submodule : Set := mk_submodule {
  submod_name : string;
  submod_belongsto : string;
  submod_typedefs : list lysp_tpdf;
  submod_parsing : bool
}.

(** [struct lysp_include], with the submodule it was linked to. *)
Record lysp_include : Set := mk_include {
  inc_name : string;
  inc_submodule : lysp_submodule
}.

(** [struct lysp_import] and [struct lysc_import]: the fields the prefix
    lookup reads. *)
Record lys_import : Set := mk_import {
  imp_name : string;
  imp_prefix : string;
  imp_module : option handle
}.

Record lysp_module : Set := mk_parsed {
  p_imports : list lys_import;
  p_includes : list lysp_include;
  p_typedefs : list lysp_tpdf;
  p_parsing : bool
}.

Record lysc_module : Set := mk_compiled { c_imports : list lys_import }.

Record lys_module : Set := mk_module {
  mod_name : string;
  mod_revision : option string;
  mod_prefix : string;
  mod_implemented : bool;
  mod_latest_revision : Z;
  mod_parsed : option lysp_module;
  mod_compiled : option lysc_module
}.

(** [struct ly_ctx]: the registry of modules and the option flags. *)
Record ly_ctx : Set := mk_ctx { ctx_list : list lys_module; ctx_flags : Z }.

(** Modelled from the spec: the option bits of a context (context.h is not
    part of the sources at hand): prefer-searchdirs, disable-searchdirs and
    disable-searchdir-cwd. *)
Definition LY_CTX_DISABLE_SEARCHDIRS : Z := 0x08.
Definition LY_CTX_DISABLE_SEARCHDIR_CWD : Z := 0x10.
Definition LY_CTX_PREFER_SEARCHDIRS : Z := 0x20.

Definition option_string_eqb (a b : option string) : bool :=
  match a, b with
  | None, None => true
  | Some x, Some y => strcmp x y =? 0
  | _, _ => false
  end.

(** First position of [l] from [i] on whose item satisfies [p]. *)
Fixpoint find_index {A} (p : A -> bool) (l : list A) (i : nat) : option nat :=
  match l with
  | [] => None
  | x :: l' => if p x then Some i else find_index p l' (S i)
  end.

(** Modelled from the spec: the registry lookups of context.c (not part of
    the sources at hand). [ly_ctx_get_module]: the module of that name at
    the requested revision. *)
Definition ly_ctx_get_module (ctx : ly_ctx) (name : string) (revision : option string)
  : option handle :=
  find_index (fun m => (strcmp (mod_name m) name =? 0)
                       && option_string_eqb (mod_revision m) revision)
             (ctx_list ctx) 0.

(** Modelled from the spec: [ly_ctx_get_module_latest] of context.c: any
    revision of the module, preferring the one marked latest_revision = 2. *)
Definition ly_ctx_get_module_latest (ctx : ly_ctx) (name : string) : option handle :=
  match find_index (fun m => (strcmp (mod_name m) name =? 0)
                             && (mod_latest_revision m =? 2)) (ctx_list ctx) 0 with
  | Some h => Some h
  | None => find_index (fun m => strcmp (mod_name m) name =? 0) (ctx_list ctx) 0
  end.

(** Modelled from the spec: [ly_ctx_get_module_implemented] of context.c:
    the revision of the module that is marked implemented. *)
Definition ly_ctx_get_module_implemented (ctx : ly_ctx) (name : string) : option handle :=
  find_index (fun m => (strcmp (mod_name m) name =? 0) && mod_implemented m)
             (ctx_list ctx) 0.

(** The test of FIND_MODULE: the [len] bytes at [prefix] spell [p]. *)
Definition prefix_matches (p prefix : string) (len : nat) : bool :=
  (strncmp p prefix len =? 0) && (code (char_at p len) =? 0).

(** The macro FIND_MODULE over the import list of either facet of the
    module [owner]. *)
Definition FIND_MODULE (ctx : ly_ctx) (owner : lys_module) (imports : list lys_import)
           (prefix : string) (len : nat) : option handle :=
  let m := if prefix_matches (mod_prefix owner) prefix len
           then ly_ctx_get_module ctx (mod_name owner) (mod_revision owner)
           else None in
  match m with
  | Some h => Some h
  | None =>
    match List.find (fun imp => prefix_matches (imp_prefix imp) prefix len) imports with
    | Some imp => imp_module imp
    | None => None
    end
  end.

(** [lysp_module_find_prefix]: [modp] points to the parsed facet of the
    module [modp]; the result points to a parsed facet as well. A pointer
    that does not lead to a parsed module has no defined behaviour; the
    model answers NULL. *)
Definition lysp_module_find_prefix (ctx : ly_ctx) (modp : handle) (prefix : string)
           (len : nat) : option handle :=
  match ctx_list ctx !! modp with
  | Some owner =>
    match mod_parsed owner with
    | Some parsed =>
      match FIND_MODULE ctx owner (p_imports parsed) prefix len with
      | Some m =>
        match ctx_list ctx !! m with
        | Some found =>
          match mod_parsed found with Some _ => Some m | None => None end
        | None => None
        end
      | None => None
      end
    | None => None
    end
  | None => None
  end.

(** [lys_module_find_prefix]: the imports of the compiled facet when there
    is one, of the parsed facet otherwise. *)
Definition lys_module_find_prefix (ctx : ly_ctx) (mod_ : handle) (prefix : string)
           (len : nat) : option handle :=
  match ctx_list ctx !! mod_ with
  | Some owner =>
    match mod_compiled owner, mod_parsed owner with
    | Some compiled, _ => FIND_MODULE ctx owner (c_imports compiled) prefix len
    | None, Some parsed => FIND_MODULE ctx owner (p_imports parsed) prefix len
    | None, None => None
    end
  | None => None
  end.

(** [struct lysp_import] while the imports of a module are parsed: the
    name of the imported module and its prefix, NULL until the prefix
    statement has been read. *)
Record lysp_import : Set := mk_lysp_import {
  pimp_name : string;
  pimp_prefix : option string
}.

(** The scan of the imports in [lysp_check_prefix], from index [i] on:
    [true] reports a prefix that is used already. *)
Fixpoint prefix_in_use (imports : list lysp_import) (i : nat) (slot : option nat)
         (value : string) : bool :=
  match imports with
  | [] => false
  | imp :: rest =>
    if match pimp_prefix imp with
       | Some p =>
         negb (bool_decide (slot = Some i)) && (strcmp p value =? 0)
       | None => false
       end
    then true
    else prefix_in_use rest (S i) slot value
  end.

(** [lysp_check_prefix]: [value] points to the prefix under check, which
    reads [value] here; [slot] is the index of the import whose prefix
    field the pointer is the address of, if it is one ([&i->prefix !=
    value]). The test [&module_prefix != value] compares with the address
    of the function's own parameter, which no pointer of a caller equals:
    a module prefix that is given is always compared. *)
Definition lysp_check_prefix (imports : list lysp_import) (module_prefix : option string)
           (slot : option nat) (value : string) : LY_ERR :=
  if match module_prefix with
     | Some p => strcmp p value =? 0
     | None => false
     end
  then LY_EEXIST
  else if prefix_in_use imports 0 slot value then LY_EEXIST
  else LY_SUCCESS.

(** The module a prefix stands for, in the words of the data model: the
    module itself for its own prefix, otherwise the module of the first
    import that carries the prefix. *)
Definition prefix_target (ctx : ly_ctx) (owner : lys_module) (imports : list lys_import)
           (seg : string) : option handle :=
  let m := if bool_decide (upto_nul (mod_prefix owner) = seg)
           then ly_ctx_get_module ctx (mod_name owner) (mod_revision owner)
           else None in
  match m with
  | Some h => Some h
  | None =>
    match List.find (fun imp => bool_decide (upto_nul (imp_prefix imp) = seg)) imports with
    | Some imp => imp_module imp
    | None => None
    end
  end.

End Schema.

(** ** Type resolver and typedef collision checker *)

Module Types.
Import Schema.

(** [LY_DATA_TYPE]; [LY_TYPE_UNKNOWN] is 0. *)
Inductive LY_DATA_TYPE : Set :=
| LY_TYPE_UNKNOWN | LY_TYPE_BINARY | LY_TYPE_UINT8 | LY_TYPE_UINT16
| LY_TYPE_UINT32 | LY_TYPE_UINT64 | LY_TYPE_STRING | LY_TYPE_BITS
| LY_TYPE_BOOL | LY_TYPE_DEC64 | LY_TYPE_EMPTY | LY_TYPE_ENUM
| LY_TYPE_IDENT | LY_TYPE_INST | LY_TYPE_LEAFREF | LY_TYPE_UNION
| LY_TYPE_INT8 | LY_TYPE_INT16 | LY_TYPE_INT32 | LY_TYPE_INT64.

#[global] Instance LY_DATA_TYPE_eq_dec : EqDecision LY_DATA_TYPE.
Proof. solve_decision. Defined.

(** [name[i] == ch] *)
Definition at_is (name : string) (i : nat) (ch : ascii) : bool :=
  code (char_at name i) =? code ch.

(** [!strncmp(&name[i], lit, n)] *)
Definition tail_is (name : string) (i : nat) (lit : string) (n : nat) : bool :=
  strncmp (advance name i) lit n =? 0.

(** [lysp_type_str2builtin] *)
Definition lysp_type_str2builtin (name : string) (len : Z) : LY_DATA_TYPE :=
  if len >=? 4 then
    if at_is name 0 "b" then
      if at_is name 1 "i" then
        if (len =? 6) && tail_is name 2 "nary" 4 then LY_TYPE_BINARY
        else if (len =? 4) && tail_is name 2 "ts" 2 then LY_TYPE_BITS
        else LY_TYPE_UNKNOWN
      else if (len =? 7) && tail_is name 1 "oolean" 6 then LY_TYPE_BOOL
      else LY_TYPE_UNKNOWN
    else if at_is name 0 "d" then
      if (len =? 9) && tail_is name 1 "ecimal64" 8 then LY_TYPE_DEC64
      else LY_TYPE_UNKNOWN
    else if at_is name 0 "e" then
      if (len =? 5) && tail_is name 1 "mpty" 4 then LY_TYPE_EMPTY
      else if (len =? 11) && tail_is name 1 "numeration" 10 then LY_TYPE_ENUM
      else LY_TYPE_UNKNOWN
    else if at_is name 0 "i" then
      if at_is name 1 "n" then
        if (len =? 4) && tail_is name 2 "t8" 2 then LY_TYPE_INT8
        else if len =? 5 then
          if tail_is name 2 "t16" 3 then LY_TYPE_INT16
          else if tail_is name 2 "t32" 3 then LY_TYPE_INT32
          else if tail_is name 2 "t64" 3 then LY_TYPE_INT64
          else LY_TYPE_UNKNOWN
        else if (len =? 19) && tail_is name 2 "stance-identifier" 17 then LY_TYPE_INST
        else LY_TYPE_UNKNOWN
      else if (len =? 11) && tail_is name 1 "dentityref" 10 then LY_TYPE_IDENT
      else LY_TYPE_UNKNOWN
    else if at_is name 0 "l" then
      if (len =? 7) && tail_is name 1 "eafref" 6 then LY_TYPE_LEAFREF
      else LY_TYPE_UNKNOWN
    else if at_is name 0 "s" then
      if (len =? 6) && tail_is name 1 "tring" 5 then LY_TYPE_STRING
      else LY_TYPE_UNKNOWN
    else if at_is name 0 "u" then
      if at_is name 1 "n" then
        if (len =? 5) && tail_is name 2 "ion" 3 then LY_TYPE_UNION
        else LY_TYPE_UNKNOWN
      else if at_is name 1 "i" && at_is name 2 "n" && at_is name 3 "t" then
        if (len =? 5) && at_is name 4 "8" then LY_TYPE_UINT8
        else if len =? 6 then
          if tail_is name 4 "16" 2 then LY_TYPE_UINT16
          else if tail_is name 4 "32" 2 then LY_TYPE_UINT32
          else if tail_is name 4 "64" 2 then LY_TYPE_UINT64
          else LY_TYPE_UNKNOWN
        else LY_TYPE_UNKNOWN
      else LY_TYPE_UNKNOWN
    else LY_TYPE_UNKNOWN
  else LY_TYPE_UNKNOWN.

(** [lysp_node_typedefs]: the typedefs of the node types that can hold
    some, NULL (no item) for the others. *)
Definition lysp_node_typedefs (node : lysp_node) : list lysp_tpdf :=
  if (nodetype node =? LYS_CONTAINER) || (nodetype node =? LYS_LIST)
     || (nodetype node =? LYS_GROUPING) || (nodetype node =? LYS_ACTION)
     || (nodetype node =? LYS_INOUT) || (nodetype node =? LYS_NOTIF)
  then typedefs node else [].

(** The scan of a typedef array for the first item called [name]. *)
Definition find_typedef (name : string) (tpdfs : list lysp_tpdf) : option lysp_tpdf :=
  List.find (fun t => strcmp name (tpdf_name t) =? 0) tpdfs.

(** [lysp_type_match] *)
Definition lysp_type_match (name : string) (node : lysp_node) : option lysp_tpdf :=
  find_typedef name (lysp_node_typedefs node).

(** [strchr(id, ':')]: the offset of the first colon. *)
Fixpoint strchr_colon (id : string) (off : nat) : option nat :=
  match id with
  | EmptyString => None
  | String c t =>
    if code c =? 0 then None
    else if code c =? code ":"%char then Some off
    else strchr_colon t (S off)
  end.

(** The outputs of [lysp_type_find]. After LY_ENOTFOUND the typedef is
    not meaningful. *)
Record type_find_result : Set := mk_found {
  tf_ret : LY_ERR;
  tf_type : LY_DATA_TYPE;
  tf_tpdf : option lysp_tpdf;
  tf_node : option lysp_node;
  tf_module : option handle
}.

(** The walk from [node] up the parent chain: the first node that defines
    [name] and the typedef found there. *)
Fixpoint search_parents (name : string) (node : lysp_node)
  : option (lysp_tpdf * lysp_node) :=
  match lysp_type_match name node with
  | Some tpdf => Some (tpdf, node)
  | None =>
    match node with
    | mk_node _ _ (Some p) => search_parents name p
    | mk_node _ _ None => None
    end
  end.

(** The scan of the included submodules, in order. *)
Fixpoint search_includes (name : string) (includes : list lysp_include)
  : option lysp_tpdf :=
  match includes with
  | [] => None
  | inc :: rest =>
    match find_typedef name (submod_typedefs (inc_submodule inc)) with
    | Some tpdf => Some tpdf
    | None => search_includes name rest
    end
  end.

(** The second half of [lysp_type_find]: the search for [name] once the
    search module [m] is known. *)
Definition search_typedefs (ctx : ly_ctx) (name : string) (start_node : option lysp_node)
           (start_module m : handle) (type : LY_DATA_TYPE) : type_find_result :=
  let in_parents :=
    match start_node with
    | Some node => if Nat.eqb m start_module then search_parents name node else None
    | None => None
    end in
  match in_parents with
  | Some (tpdf, node) => mk_found LY_SUCCESS type (Some tpdf) (Some node) (Some m)
  | None =>
    let parsed := match ctx_list ctx !! m with
                  | Some found => mod_parsed found
                  | None => None
                  end in
    match parsed with
    | None => mk_found LY_ENOTFOUND type None None (Some m)
    | Some p =>
      match find_typedef name (p_typedefs p) with
      | Some tpdf => mk_found LY_SUCCESS type (Some tpdf) None (Some m)
      | None =>
        match search_includes name (p_includes p) with
        | Some tpdf => mk_found LY_SUCCESS type (Some tpdf) None (Some m)
        | None => mk_found LY_ENOTFOUND type None None (Some m)
        end
      end
    end
  end.

(** [lysp_type_find]: the first half splits the identifier and tries the
    built-in types. *)
Definition lysp_type_find (ctx : ly_ctx) (id : string) (start_node : option lysp_node)
           (start_module : handle) : type_find_result :=
  match strchr_colon id 0 with
  | Some off =>
    match lysp_module_find_prefix ctx start_module id off with
    | None => mk_found LY_ENOTFOUND LY_TYPE_UNKNOWN None None None
    | Some m =>
      search_typedefs ctx (advance id (S off)) start_node start_module m LY_TYPE_UNKNOWN
    end
  | None =>
    let type := lysp_type_str2builtin id (Z.of_nat (strlen id)) in
    if decide (type = LY_TYPE_UNKNOWN)
    then search_typedefs ctx id start_node start_module start_module type
    else mk_found LY_SUCCESS type None None (Some start_module)
  end.

(** *** Typedef collision checker *)

(** Modelled from the spec: the hash table of hash_table.c (not part of the
    sources at hand), a set of identifier strings. Both calls follow the
    convention of the LY_ERR codes, 0 for success: [lyht_insert] refuses a
    value that is already present with LY_EEXIST, [lyht_find] answers 0
    when the value is found and 1 when it is not. The diagnostic at the
    call of [lyht_find] reports a collision with a top-level type, which
    takes the name to be in the table of top-level names. *)
Definition lyht_insert (ht : gset string) (name : string) : LY_ERR * gset string :=
  if decide (name ∈ ht) then (LY_EEXIST, ht) else (LY_SUCCESS, {[name]} ∪ ht).

Definition lyht_find (ht : gset string) (name : string) : Z :=
  if decide (name ∈ ht) then 0 else 1.

(** The scan of the siblings that precede the typedef at position [pos] in
    the array of its node; [true] reports a collision. *)
Fixpoint check_siblings (name : string) (tpdfs : list lysp_tpdf) (u pos : nat) : bool :=
  match tpdfs with
  | [] => false
  | t :: rest =>
    if Nat.eqb u pos then false
    else if strcmp name (tpdf_name t) =? 0 then true
    else check_siblings name rest (S u) pos
  end.

(** The loop over the parents, [for (parent = node->parent; parent;
    parent = node->parent)]: the update reads the parent of [node] again.
    [None] stands for a loop that is still running when the fuel is used
    up. *)
Fixpoint check_parents (fuel : nat) (name : string) (node : lysp_node) : option bool :=
  match fuel with
  | O => None
  | S fuel' =>
    match parent node with
    | None => Some false
    | Some p =>
      match lysp_type_match name p with
      | Some _ => Some true
      | None => check_parents fuel' name node
      end
    end
  end.

(** [lysp_check_typedef]: [tpdf] is the definition under check and [pos]
    its position in the typedef array of [node] (not used for a top-level
    typedef, where [node] is NULL). The result carries the two tables
    after the call; [None] stands for a call that has not returned within
    [fuel] iterations. *)
Definition lysp_check_typedef (fuel : nat) (node : option lysp_node) (pos : nat)
           (tpdf : lysp_tpdf) (tpdfs_global tpdfs_scoped : gset string)
  : option (LY_ERR * gset string * gset string) :=
  let name := tpdf_name tpdf in
  let name_len := Z.of_nat (strlen name) in
  if decide (lysp_type_str2builtin name name_len = LY_TYPE_UNKNOWN) then
    let shadowing :=
      match node with
      | Some n =>
        if check_siblings name (lysp_node_typedefs n) 0 pos then Some true
        else check_parents fuel name n
      | None => Some false
      end in
    match shadowing with
    | None => None
    | Some true => Some (LY_EEXIST, tpdfs_global, tpdfs_scoped)
    | Some false =>
      match node with
      | Some _ =>
        let tpdfs_scoped := snd (lyht_insert tpdfs_scoped name) in
        if lyht_find tpdfs_global name =? 0
        then Some (LY_EEXIST, tpdfs_global, tpdfs_scoped)
        else Some (LY_SUCCESS, tpdfs_global, tpdfs_scoped)
      | None =>
        if ly_failed (fst (lyht_insert tpdfs_global name))
        then Some (LY_EEXIST, tpdfs_global, tpdfs_scoped)
        else Some (LY_SUCCESS, snd (lyht_insert tpdfs_global name), tpdfs_scoped)
      end
    end
  else Some (LY_EEXIST, tpdfs_global, tpdfs_scoped).

(** *** The resolution order of the specification *)

(** The closed set of built-in type names and their tags. *)
Definition builtin_types : list (string * LY_DATA_TYPE) :=
  [ ("binary", LY_TYPE_BINARY); ("bits", LY_TYPE_BITS); ("boolean", LY_TYPE_BOOL);
    ("decimal64", LY_TYPE_DEC64); ("empty", LY_TYPE_EMPTY);
    ("enumeration", LY_TYPE_ENUM); ("int8", LY_TYPE_INT8); ("int16", LY_TYPE_INT16);
    ("int32", LY_TYPE_INT32); ("int64", LY_TYPE_INT64); ("uint8", LY_TYPE_UINT8);
    ("uint16", LY_TYPE_UINT16); ("uint32", LY_TYPE_UINT32); ("uint64", LY_TYPE_UINT64);
    ("string", LY_TYPE_STRING); ("identityref", LY_TYPE_IDENT);
    ("instance-identifier", LY_TYPE_INST); ("leafref", LY_TYPE_LEAFREF);
    ("union", LY_TYPE_UNION) ].

(** The nodes from [node] up to the root, innermost first. *)
Fixpoint parent_chain (node : lysp_node) : list lysp_node :=
  node :: match node with
          | mk_node _ _ (Some p) => parent_chain p
          | mk_node _ _ None => []
          end.

(** The typedef arrays in the order the specification searches them: the
    lexical parent chain (when the search module is the starting module
    and a starting node was supplied), the top-level typedefs of the
    search module, the top-level typedefs of each included submodule. *)
Definition search_order (start_node : option lysp_node) (same_module : bool)
           (p : lysp_module) : list lysp_tpdf :=
  (match start_node with
   | Some node =>
     if same_module then concat (map lysp_node_typedefs (parent_chain node)) else []
   | None => []
   end
   ++ p_typedefs p
   ++ concat (map (fun inc => submod_typedefs (inc_submodule inc)) (p_includes p)))%list.


(** What the specification asks of a search for [name] in the search module
    [sm], whose parsed facet is [p]: the first match in search order, or
    not-found. *)
Definition typedef_search_result (start_node : option lysp_node) (start_module sm : handle)
           (p : lysp_module) (name : string) (r : type_find_result) : Prop :=
  tf_type r = LY_TYPE_UNKNOWN /\ tf_module r = Some sm /\
  match find_typedef name (search_order start_node (Nat.eqb sm start_module) p) with
  | Some tpdf => tf_ret r = LY_SUCCESS /\ tf_tpdf r = Some tpdf
  | None => tf_ret r = LY_ENOTFOUND
  end.

(** Induction along the parent pointers of a node. *)
Fixpoint lysp_node_parent_ind (P : lysp_node -> Prop)
         (Hroot : forall nt tds, P (mk_node nt tds None))
         (Hstep : forall nt tds p, P p -> P (mk_node nt tds (Some p)))
         (node : lysp_node) : P node :=
  match node with
  | mk_node nt tds None => Hroot nt tds
  | mk_node nt tds (Some p) => Hstep nt tds p (lysp_node_parent_ind P Hroot Hstep p)
  end.

(** *** The driver of the collision checks *)

(** One loop of [lysp_check_typedefs] over a typedef array: the items are
    checked in turn, from position [pos] on, until one is refused. The
    result carries the code of the last check and the two tables. *)
Fixpoint check_typedef_array (fuel : nat) (node : option lysp_node)
         (tpdfs : list lysp_tpdf) (pos : nat) (tpdfs_global tpdfs_scoped : gset string)
  : option (LY_ERR * gset string * gset string) :=
  match tpdfs with
  | [] => Some (LY_SUCCESS, tpdfs_global, tpdfs_scoped)
  | tpdf :: rest =>
    match lysp_check_typedef fuel node pos tpdf tpdfs_global tpdfs_scoped with
    | None => None
    | Some (err, g, s) =>
      if ly_failed err then Some (err, g, s)
      else check_typedef_array fuel node rest (S pos) g s
    end
  end.

(** The loop over the included submodules and their top-level typedefs. *)
Fixpoint check_include_arrays (fuel : nat) (includes : list lysp_include)
         (tpdfs_global tpdfs_scoped : gset string)
  : option (LY_ERR * gset string * gset string) :=
  match includes with
  | [] => Some (LY_SUCCESS, tpdfs_global, tpdfs_scoped)
  | inc :: rest =>
    match check_typedef_array fuel None (submod_typedefs (inc_submodule inc)) 0
                              tpdfs_global tpdfs_scoped with
    | None => None
    | Some (err, g, s) =>
      if ly_failed err then Some (err, g, s) else check_include_arrays fuel rest g s
    end
  end.

(** The loop over the nodes that hold typedefs (the set [tpdfs_nodes] of
    the parser context). *)
Fixpoint check_node_arrays (fuel : nat) (nodes : list lysp_node)
         (tpdfs_global tpdfs_scoped : gset string)
  : option (LY_ERR * gset string * gset string) :=
  match nodes with
  | [] => Some (LY_SUCCESS, tpdfs_global, tpdfs_scoped)
  | node :: rest =>
    match check_typedef_array fuel (Some node) (lysp_node_typedefs node) 0
                              tpdfs_global tpdfs_scoped with
    | None => None
    | Some (err, g, s) =>
      if ly_failed err then Some (err, g, s) else check_node_arrays fuel rest g s
    end
  end.

(** [lysp_check_typedefs]: the two tables start empty and are freed at the
    end, and the set of nodes is emptied, whatever the outcome; the return
    value is all that is left. [None] stands for a call that has not
    returned within [fuel] iterations of a loop over the parents. *)
Definition lysp_check_typedefs (fuel : nat) (mod_ : lysp_module)
           (tpdfs_nodes : list lysp_node) : option LY_ERR :=
  match check_typedef_array fuel None (p_typedefs mod_) 0 ∅ ∅ with
  | None => None
  | Some (err, g, s) =>
    if ly_failed err then Some LY_EVALID
    else
      match check_include_arrays fuel (p_includes mod_) g s with
      | None => None
      | Some (err, g, s) =>
        if ly_failed err then Some LY_EVALID
        else
          match check_node_arrays fuel tpdfs_nodes g s with
          | None => None
          | Some (err, _, _) => if ly_failed err then Some LY_EVALID else Some LY_SUCCESS
          end
      end
  end.

(** The names of the top-level typedefs of a module and of the submodules
    it includes, in the order of the checks. *)
Definition top_level_names (mod_ : lysp_module) : list string :=
  map tpdf_name
      (p_typedefs mod_
       ++ concat (map (fun inc => submod_typedefs (inc_submodule inc)) (p_includes mod_)))%list.

(** The name [lysp_type_find] searches for: what follows the first colon
    of the identifier, or the whole identifier. *)
Definition searched_name (id : string) : string :=
  match strchr_colon id 0 with
  | Some off => advance id (S off)
  | None => id
  end.

(** A name C reads as one of the built-in names. *)
Definition builtin_name (name : string) : Prop :=
  In (upto_nul name) (map fst builtin_types).

#[global] Instance builtin_name_dec name : Decision (builtin_name name).
Proof. unfold builtin_name. apply (In_dec string_dec). Defined.

(** Names that can be entered one after the other into a table that holds
    [g]: no built-in name, none in [g], no name twice. *)
Definition fresh_names (g : gset string) (names : list string) : Prop :=
  NoDup names /\ Forall (fun n => (n ∉ g) /\ ~ builtin_name n) names.

End Types.

(** ** Module loader *)

Module Loader.
Import Schema.

(** The validation messages of [lysp_load_module]. *)
Inductive load_diag : Set :=
| Diag_other_implemented_revision
| Diag_circular_import
| Diag_load_failed (implement : bool).

(** What a call leaves behind: the context, the return value, the module
    pointer written to [*mod] and the validation message that
    [lysp_load_module] itself logs, if any (what the callback, the parser
    and the search in the local directories log is not part of the
    model). *)
Record load_result : Set := mk_load {
  ld_ctx : ly_ctx;
  ld_ret : LY_ERR;
  ld_mod : option handle;
  ld_diag : option load_diag
}.

(** The assignment to a field of the module [h] of the registry. *)
Definition update_module (ctx : ly_ctx) (h : handle) (f : lys_module -> lys_module)
  : ly_ctx :=
  match ctx_list ctx !! h with
  | Some m => mk_ctx (<[h := f m]> (ctx_list ctx)) (ctx_flags ctx)
  | None => ctx
  end.

Definition set_latest_revision (v : Z) (m : lys_module) : lys_module :=
  mk_module (mod_name m) (mod_revision m) (mod_prefix m) (mod_implemented m) v
            (mod_parsed m) (mod_compiled m).

Definition set_implemented (m : lys_module) : lys_module :=
  mk_module (mod_name m) (mod_revision m) (mod_prefix m) true (mod_latest_revision m)
            (mod_parsed m) (mod_compiled m).

Definition flag_set (flags bit : Z) : bool := negb (Z.land flags bit =? 0).

Section Acquisition.

(** The collaborators of the loader, outside the helper core: the import
    callback of the context (NULL, or a function that answers with the
    data of the module or declines), the in-memory parser, the compiler,
    the removal of a module from the context, and the acquisition from
    the search directories ([lys_module_localfile], which leaves the
    module pointer alone unless it has parsed a file). *)
Variable imp_clb : option (string -> option string -> option string).
Variable lys_parse_mem_module :
  ly_ctx -> string -> bool -> string -> option string -> ly_ctx * option handle.
Variable lys_compile : ly_ctx -> handle -> ly_ctx * LY_ERR.
Variable ly_ctx_remove_module : ly_ctx -> handle -> ly_ctx.
Variable lys_module_localfile :
  ly_ctx -> string -> option string -> bool -> ly_ctx * option handle.

(** The block at the label [search_clb]. *)
Definition search_clb (ctx : ly_ctx) (name : string) (revision : option string)
           (implement : bool) (mod_ : option handle) : ly_ctx * option handle :=
  match imp_clb with
  | Some clb =>
    match clb name revision with
    | Some module_data =>
      let '(ctx, mod_) := lys_parse_mem_module ctx module_data implement name revision in
      match mod_ with
      | Some h =>
        if implement then
          let '(ctx, err) := lys_compile ctx h in
          if ly_failed err then (ly_ctx_remove_module ctx h, None) else (ctx, Some h)
        else (ctx, Some h)
      | None => (ctx, None)
      end
    | None => (ctx, mod_)
    end
  | None => (ctx, mod_)
  end.

(** The block at the label [search_file]. *)
Definition search_file (ctx : ly_ctx) (name : string) (revision : option string)
           (implement : bool) (mod_ : option handle) : ly_ctx * option handle :=
  if negb (flag_set (ctx_flags ctx) LY_CTX_DISABLE_SEARCHDIRS) then
    match lys_module_localfile ctx name revision implement with
    | (ctx, Some h) => (ctx, Some h)
    | (ctx, None) => (ctx, mod_)
    end
  else (ctx, mod_).

(** The two sources in the order the flag LY_CTX_PREFER_SEARCHDIRS
    dictates; the second is tried when the first left no module. *)
Definition acquire (ctx : ly_ctx) (name : string) (revision : option string)
           (implement : bool) : ly_ctx * option handle :=
  if negb (flag_set (ctx_flags ctx) LY_CTX_PREFER_SEARCHDIRS) then
    match search_clb ctx name revision implement None with
    | (ctx, Some h) => (ctx, Some h)
    | (ctx, None) => search_file ctx name revision implement None
    end
  else
    match search_file ctx name revision implement None with
    | (ctx, Some h) => (ctx, Some h)
    | (ctx, None) => search_clb ctx name revision implement None
    end.

(** The end of [lysp_load_module], common to both branches. *)
Definition finish_load (ctx : ly_ctx) (implement : bool) (mod_ : option handle)
  : load_result :=
  match mod_ with
  | None => mk_load ctx LY_EVALID None (Some (Diag_load_failed implement))
  | Some h =>
    mk_load (if implement then update_module ctx h set_implemented else ctx)
            LY_SUCCESS (Some h) None
  end.

(** [lysp_load_module]: [mod_] is the module pointer the caller passes in
    [*mod]. A pointer that leads to no module of the context has no
    defined behaviour ([None]). *)
Definition lysp_load_module (ctx : ly_ctx) (name : string) (revision : option string)
           (implement require_parsed : bool) (mod_ : option handle)
  : option load_result :=
  let mod_ :=
    match mod_ with
    | Some h => Some h
    | None =>
      match revision with
      | Some _ => ly_ctx_get_module ctx name revision
      | None => ly_ctx_get_module_latest ctx name
      end
    end in
  let found :=
    match mod_ with
    | Some h =>
      match ctx_list ctx !! h with
      | Some m => Some (Some (h, m))
      | None => None
      end
    | None => Some None
    end in
  match found with
  | None => None
  | Some found =>
    let fresh :=
      match found with
      | None => true
      | Some (_, m) =>
        require_parsed && match mod_parsed m with Some _ => false | None => true end
      end in
    if fresh then
      if implement && match ly_ctx_get_module_implemented ctx name with
                      | Some _ => true
                      | None => false
                      end
      then Some (mk_load ctx LY_EDENIED None (Some Diag_other_implemented_revision))
      else
        let '(ctx, mod_) := acquire ctx name revision implement in
        let ctx :=
          match mod_, revision with
          | Some h, None =>
            match ctx_list ctx !! h with
            | Some m =>
              if mod_latest_revision m =? 1
              then update_module ctx h (set_latest_revision 2) else ctx
            | None => ctx
            end
          | _, _ => ctx
          end in
        Some (finish_load ctx implement mod_)
    else
      match found with
      | None => None
      | Some (h, m) =>
        if implement && match ly_ctx_get_module_implemented ctx name with
                        | Some other => negb (Nat.eqb other h)
                        | None => false
                        end
        then Some (mk_load ctx LY_EDENIED None (Some Diag_other_implemented_revision))
        else if match mod_parsed m with Some p => p_parsing p | None => false end
        then Some (mk_load ctx LY_EVALID None (Some Diag_circular_import))
        else Some (finish_load ctx implement (Some h))
      end
  end.

End Acquisition.

(** Invariant 7 of the data model: at most one revision of a module is
    marked implemented in a context. *)
Definition unique_implemented (ctx : ly_ctx) : Prop :=
  forall name i j mi mj,
    ctx_list ctx !! i = Some mi -> ctx_list ctx !! j = Some mj ->
    strcmp (mod_name mi) name = 0 -> strcmp (mod_name mj) name = 0 ->
    mod_implemented mi = true -> mod_implemented mj = true -> i = j.

(** The module the loader starts from: the one the caller hands in, or the
    one the registry holds for the request. *)
Definition registry_target (ctx : ly_ctx) (name : string) (revision : option string)
           (mod_ : option handle) : option handle :=
  match mod_ with
  | Some h => Some h
  | None =>
    match revision with
    | Some _ => ly_ctx_get_module ctx name revision
    | None => ly_ctx_get_module_latest ctx name
    end
  end.

(** What every return of [lysp_load_module] leaves behind: one of three
    codes; a module pointer that is NULL exactly on failure; a validation
    message of its own exactly on failure; and, when the load was to
    implement the module, a module that is marked implemented. *)
Definition well_formed_outcome (implement : bool) (r : load_result) : Prop :=
  (ld_ret r = LY_SUCCESS \/ ld_ret r = LY_EDENIED \/ ld_ret r = LY_EVALID)
  /\ (ld_ret r = LY_SUCCESS <-> ld_mod r <> None)
  /\ (ld_ret r = LY_SUCCESS <-> ld_diag r = None)
  /\ (forall h m, ld_mod r = Some h -> implement = true ->
                  ctx_list (ld_ctx r) !! h = Some m -> mod_implemented m = true).

End Loader.

(** ** Identifiers and the schema-nodeid resolver *)

Module Lexical.

(** Modelled from the spec: the character classes of the identifier
    grammar (macros of a header that is not part of the sources at hand):
    an identifier starts with a letter or an underscore and goes on with
    letters, digits, underscores, hyphens and dots. *)
Definition is_yangidentstartchar (c : ascii) : bool :=
  isalpha c || (code c =? code "_"%char).

Definition is_yangidentchar (c : ascii) : bool :=
  isalpha c || isdigit c || (code c =? code "_"%char)
  || (code c =? code "-"%char) || (code c =? code "."%char).

(** The loop [while (is_yangidentchar( **id)) ++( *id)]. *)
Fixpoint skip_identchars (id : string) : string :=
  match id with
  | EmptyString => EmptyString
  | String c t => if is_yangidentchar c then skip_identchars t else id
  end.

(** [lys_parse_id]: the return value and the cursor after the call. *)
Definition lys_parse_id (id : string) : LY_ERR * string :=
  if negb (is_yangidentstartchar (peek id)) then (LY_EINVAL, id)
  else (LY_SUCCESS, skip_identchars (next id)).

(** The outputs of [lys_parse_nodeid]: pointers into the input (NULL is
    [None]) and lengths. *)
Record nodeid_parts : Set := mk_parts {
  np_prefix : option string;
  np_prefix_len : nat;
  np_name : option string;
  np_name_len : nat
}.

(** [lys_parse_nodeid]: the return value, the cursor after the call and
    the outputs. *)
Definition lys_parse_nodeid (id : string) : LY_ERR * string * nodeid_parts :=
  let prefix := id in
  match lys_parse_id id with
  | (LY_SUCCESS, id1) =>
    if code (peek id1) =? code ":"%char then
      let prefix_len := ptr_diff id1 prefix in
      let name := next id1 in
      match lys_parse_id name with
      | (LY_SUCCESS, id2) =>
        (LY_SUCCESS, id2, mk_parts (Some prefix) prefix_len (Some name) (ptr_diff id2 name))
      | (err, id2) => (err, id2, mk_parts (Some prefix) prefix_len (Some name) 0)
      end
    else
      (LY_SUCCESS, id1, mk_parts None 0 (Some prefix) (ptr_diff id1 prefix))
  | (err, id1) => (err, id1, mk_parts (Some prefix) 0 None 0)
  end.

(** The identifiers of the grammar as a test on a whole string: a start
    character followed by identifier characters only. *)
Fixpoint all_identchars (s : string) : bool :=
  match s with
  | EmptyString => true
  | String c t => is_yangidentchar c && all_identchars t
  end.

Definition is_identifier (s : string) : bool :=
  match s with
  | EmptyString => false
  | String c t => is_yangidentstartchar c && all_identchars t
  end.

End Lexical.

Module Resolver.
Import Schema Lexical.

(** Modelled from the spec: the result flags of the resolver and the
    options of the child lookup (tree_schema_internal.h and tree_schema.h
    are not part of the sources at hand): rpc-input, rpc-output and
    in-notification; disabled state check, transparent choice and case
    nodes, children of the output. *)
Definition LYSC_OPT_RPC_INPUT : Z := 0x01.
Definition LYSC_OPT_RPC_OUTPUT : Z := 0x02.
Definition LYSC_OPT_NOTIFICATION : Z := 0x10.
Definition LYS_GETNEXT_WITHCHOICE : Z := 0x01.
Definition LYS_GETNEXT_WITHCASE : Z := 0x04.
Definition LYS_GETNEXT_NOSTATECHECK : Z := 0x100.
Definition LYS_GETNEXT_OUTPUT : Z := 0x200.

(** [mod->implemented] *)
Definition module_implemented (ctx : ly_ctx) (h : handle) : bool :=
  match ctx_list ctx !! h with
  | Some m => mod_implemented m
  | None => true
  end.

Section Resolution.

(** The compiled schema tree and the collaborators that walk and change
    it, outside the helper core: the nodes with their node type, the
    lookup of a child by module and name ([lys_child], with the context
    node NULL for the top level), and the call that makes a module
    implemented. *)
Variable lysc_node : Set.
Variable node_nodetype : lysc_node -> Z.
Variable lys_child :
  option lysc_node -> handle -> string -> nat -> Z -> Z -> option lysc_node.
Variable ly_ctx_module_implement_internal : ly_ctx -> handle -> Z -> ly_ctx.

(** The variables the loop of the resolver changes. *)
Record resolve_state : Type := mk_state {
  rs_ctx : ly_ctx;
  rs_node : option lysc_node;
  rs_extra : Z;
  rs_current : Z;
  rs_flag : Z
}.

(** The loop ends by a [return] in its body, or is left with the value of
    [ret] (by its condition or by [break]). *)
Inductive loop_outcome : Type :=
| Returned (ctx : ly_ctx) (err : LY_ERR) (flag : Z)
| Exited (st : resolve_state) (ret : LY_ERR).

Definition is_action (node : option lysc_node) : bool :=
  match node with
  | Some n => node_nodetype n =? LYS_ACTION
  | None => false
  end.

(** The choice of the next node for one segment [name] (of [name_len]
    bytes) in module [mod_]; [None] when the target node is not found. *)
Definition select_node (st : resolve_state) (mod_ : handle) (name : string)
           (name_len : nat) : option resolve_state :=
  if is_action (rs_node st) && (strncmp "input" name name_len =? 0) then
    Some (mk_state (rs_ctx st) (rs_node st) (rs_extra st) LYS_INOUT
                   (Z.lor (rs_flag st) LYSC_OPT_RPC_INPUT))
  else if is_action (rs_node st) && (strncmp "output" name name_len =? 0) then
    Some (mk_state (rs_ctx st) (rs_node st) LYS_GETNEXT_OUTPUT LYS_INOUT
                   (Z.lor (rs_flag st) LYSC_OPT_RPC_OUTPUT))
  else
    match lys_child (rs_node st) mod_ name name_len 0
                    (Z.lor (Z.lor (Z.lor (rs_extra st) LYS_GETNEXT_NOSTATECHECK)
                                  LYS_GETNEXT_WITHCHOICE) LYS_GETNEXT_WITHCASE) with
    | None => None
    | Some child =>
      Some (mk_state (rs_ctx st) (Some child) 0 (node_nodetype child)
                     (if node_nodetype child =? LYS_NOTIF
                      then Z.lor (rs_flag st) LYSC_OPT_NOTIFICATION
                      else rs_flag st))
    end.

(** The [while] loop of [lys_resolve_schema_nodeid]; [total] is the
    length of the whole nodeid, from which the offset of the cursor is
    taken. Each round consumes input, so that a fuel above the length of
    [id] is never used up. *)
Fixpoint resolve_loop (fuel : nat) (total nodeid_len : nat) (context_module : handle)
         (implement : bool) (id : string) (ret : LY_ERR) (st : resolve_state)
  : loop_outcome :=
  match fuel with
  | O => Exited st ret
  | S fuel' =>
    if code (peek id) =? 0 then Exited st ret
    else
      match lys_parse_nodeid id with
      | (LY_SUCCESS, id, parts) =>
        let mod_ :=
          match np_prefix parts with
          | Some prefix =>
            lys_module_find_prefix (rs_ctx st) context_module prefix (np_prefix_len parts)
          | None => Some context_module
          end in
        match mod_ with
        | None => Returned (rs_ctx st) LY_ENOTFOUND (rs_flag st)
        | Some m =>
          let ctx :=
            if implement && negb (module_implemented (rs_ctx st) m)
            then ly_ctx_module_implement_internal (rs_ctx st) m 2
            else rs_ctx st in
          let st := mk_state ctx (rs_node st) (rs_extra st) (rs_current st) (rs_flag st) in
          let name := match np_name parts with Some n => n | None => EmptyString end in
          match select_node st m name (np_name_len parts) with
          | None => Returned ctx LY_ENOTFOUND (rs_flag st)
          | Some st =>
            if (code (peek id) =? 0)
               || (negb (Nat.eqb nodeid_len 0)
                   && (nodeid_len <=? total - String.length id)%nat)
            then Exited st LY_SUCCESS
            else if negb (code (peek id) =? code "/"%char)
                 then Returned (rs_ctx st) LY_EVALID (rs_flag st)
                 else resolve_loop fuel' total nodeid_len context_module implement
                                   (next id) LY_SUCCESS st
          end
        end
      | (err, _, _) => Exited st err
      end
  end.

(** The outputs of the resolver: the context after the call, the return
    value, [*target] and [*result_flag]. *)
Record resolve_result : Type := mk_resolved {
  rr_ctx : ly_ctx;
  rr_ret : LY_ERR;
  rr_target : option lysc_node;
  rr_flag : Z
}.

(** The first part of [lys_resolve_schema_nodeid]: the check of the kind
    of nodeid ([None] when it is refused) and the loop over the
    segments. *)
Definition resolve_segments (ctx : ly_ctx) (nodeid : string) (nodeid_len : nat)
           (context_node : option lysc_node) (context_module : handle)
           (implement : bool) : option loop_outcome :=
  let st := mk_state ctx context_node 0 0 0 in
  let run id :=
    resolve_loop (S (String.length nodeid)) (String.length nodeid) nodeid_len
                 context_module implement id LY_EVALID st in
  match context_node with
  | Some _ =>
    if code (peek nodeid) =? code "/"%char then None else Some (run nodeid)
  | None =>
    if negb (code (peek nodeid) =? code "/"%char) then None else Some (run (next nodeid))
  end.

(** [lys_resolve_schema_nodeid] *)
Definition lys_resolve_schema_nodeid (ctx : ly_ctx) (nodeid : string) (nodeid_len : nat)
           (context_node : option lysc_node) (context_module : handle)
           (nodetype : Z) (implement : bool) : resolve_result :=
  match resolve_segments ctx nodeid nodeid_len context_node context_module implement with
  | None => mk_resolved ctx LY_EVALID None 0
  | Some (Returned ctx err flag) => mk_resolved ctx err None flag
  | Some (Exited st ret) =>
    match ret with
    | LY_SUCCESS =>
      if negb (nodetype =? 0) && (Z.land (rs_current st) nodetype =? 0)
      then mk_resolved (rs_ctx st) LY_EDENIED (rs_node st) (rs_flag st)
      else mk_resolved (rs_ctx st) LY_SUCCESS (rs_node st) (rs_flag st)
    | _ => mk_resolved (rs_ctx st) ret None (rs_flag st)
    end
  end.

(** The node type the resolver holds for the node [target] it has
    reached: the type of that node, or LYS_INOUT when the node is an
    action whose input or output a segment selected (the action stays the
    current node, and the flag of the input or of the output is set). *)
Definition holds_type_of (st : resolve_state) (target : lysc_node) : Prop :=
  rs_node st = Some target
  /\ (rs_current st = node_nodetype target
      \/ (node_nodetype target = LYS_ACTION /\ rs_current st = LYS_INOUT
          /\ Z.land (rs_flag st) (Z.lor LYSC_OPT_RPC_INPUT LYSC_OPT_RPC_OUTPUT) <> 0)).

End Resolution.

End Resolver.

(** ** Keyword recognition *)

Module Keywords.

(** [enum yang_keyword]: the tags [match_keyword] hands out. *)
Inductive yang_keyword : Set :=
| YANG_NONE | YANG_ACTION | YANG_ANYDATA | YANG_ANYXML | YANG_ARGUMENT | YANG_AUGMENT
| YANG_BASE | YANG_BELONGS_TO | YANG_BIT | YANG_CASE | YANG_CHOICE | YANG_CONFIG
| YANG_CONTACT | YANG_CONTAINER | YANG_DEFAULT | YANG_DESCRIPTION | YANG_DEVIATE
| YANG_DEVIATION | YANG_ENUM | YANG_ERROR_APP_TAG | YANG_ERROR_MESSAGE
| YANG_EXTENSION | YANG_FEATURE | YANG_FRACTION_DIGITS | YANG_GROUPING
| YANG_IDENTITY | YANG_IF_FEATURE | YANG_IMPORT | YANG_INCLUDE | YANG_INPUT
| YANG_KEY | YANG_LEAF | YANG_LEAF_LIST | YANG_LENGTH | YANG_LIST | YANG_MANDATORY
| YANG_MAX_ELEMENTS | YANG_MIN_ELEMENTS | YANG_MODIFIER | YANG_MODULE | YANG_MUST
| YANG_NAMESPACE | YANG_NOTIFICATION | YANG_ORDERED_BY | YANG_ORGANIZATION
| YANG_OUTPUT | YANG_PATH | YANG_PATTERN | YANG_POSITION | YANG_PREFIX
| YANG_PRESENCE | YANG_RANGE | YANG_REFERENCE | YANG_REFINE | YANG_REQUIRE_INSTANCE
| YANG_REVISION | YANG_REVISION_DATE | YANG_RPC | YANG_STATUS | YANG_SUBMODULE
| YANG_TYPE | YANG_TYPEDEF | YANG_UNIQUE | YANG_UNITS | YANG_USES | YANG_VALUE
| YANG_WHEN | YANG_YANG_VERSION | YANG_YIN_ELEMENT | YANG_CUSTOM.

#[global] Instance yang_keyword_eq_dec : EqDecision yang_keyword.
Proof. solve_decision. Defined.

(** The cursor [data] and the variable [kw] of [match_keyword]. *)
Record kw_state : Set := mk_kw { ks_data : string; ks_kw : yang_keyword }.

(** The macros of [match_keyword]. An [if] of the source takes its [else]
    branch as the last argument here, [END] where the source has none. *)
Definition MOVE_IN (count : nat) (st : kw_state) : kw_state :=
  mk_kw (advance (ks_data st) count) (ks_kw st).

Definition END (st : kw_state) : kw_state := st.

Definition IF_KEYWORD (str : string) (len : nat) (stmt : yang_keyword)
           (otherwise : kw_state -> kw_state) (st : kw_state) : kw_state :=
  if strncmp (ks_data st) str len =? 0
  then mk_kw (advance (ks_data st) len) stmt
  else otherwise st.

Definition IF_KEYWORD_PREFIX (str : string) (len : nat) (body : kw_state -> kw_state)
           (otherwise : kw_state -> kw_state) (st : kw_state) : kw_state :=
  if strncmp (ks_data st) str len =? 0
  then body (MOVE_IN len st)
  else otherwise st.

(** [switch (c)] over case labels that each end in [break]. *)
Fixpoint switch {A} (c : ascii) (cases : list (ascii * A)) (default : A) : A :=
  match cases with
  | [] => default
  | (label, body) :: rest => if Ascii.eqb c label then body else switch c rest default
  end.

(** The cases of the switch on the first byte; each starts with
    [MOVE_IN(data, 1)]. *)
Definition keyword_cases : list (ascii * (kw_state -> kw_state)) :=
  [
      ("a"%char,
       IF_KEYWORD "rgument" 7 YANG_ARGUMENT
        (IF_KEYWORD "ugment" 6 YANG_AUGMENT
         (IF_KEYWORD "ction" 5 YANG_ACTION
          (IF_KEYWORD_PREFIX "ny" 2
             (IF_KEYWORD "data" 4 YANG_ANYDATA
             (IF_KEYWORD "xml" 3 YANG_ANYXML END)) END))));
      ("b"%char,
       IF_KEYWORD "ase" 3 YANG_BASE
        (IF_KEYWORD "elongs-to" 9 YANG_BELONGS_TO
         (IF_KEYWORD "it" 2 YANG_BIT END)));
      ("c"%char,
       IF_KEYWORD "ase" 3 YANG_CASE
        (IF_KEYWORD "hoice" 5 YANG_CHOICE
         (IF_KEYWORD_PREFIX "on" 2
            (IF_KEYWORD "fig" 3 YANG_CONFIG
            (IF_KEYWORD_PREFIX "ta" 2
               (IF_KEYWORD "ct" 2 YANG_CONTACT
               (IF_KEYWORD "iner" 4 YANG_CONTAINER END)) END)) END)));
      ("d"%char,
       IF_KEYWORD_PREFIX "e" 1
          (IF_KEYWORD "fault" 5 YANG_DEFAULT
          (IF_KEYWORD "scription" 9 YANG_DESCRIPTION
           (IF_KEYWORD_PREFIX "viat" 4
              (IF_KEYWORD "e" 1 YANG_DEVIATE
              (IF_KEYWORD "ion" 3 YANG_DEVIATION END)) END))) END);
      ("e"%char,
       IF_KEYWORD "num" 3 YANG_ENUM
        (IF_KEYWORD_PREFIX "rror-" 5
           (IF_KEYWORD "app-tag" 7 YANG_ERROR_APP_TAG
           (IF_KEYWORD "message" 7 YANG_ERROR_MESSAGE END))
         (IF_KEYWORD "xtension" 8 YANG_EXTENSION END)));
      ("f"%char,
       IF_KEYWORD "eature" 6 YANG_FEATURE
        (IF_KEYWORD "raction-digits" 14 YANG_FRACTION_DIGITS END));
      ("g"%char,
       IF_KEYWORD "rouping" 7 YANG_GROUPING END);
      ("i"%char,
       IF_KEYWORD "dentity" 7 YANG_IDENTITY
        (IF_KEYWORD "f-feature" 9 YANG_IF_FEATURE
         (IF_KEYWORD "mport" 5 YANG_IMPORT
          (IF_KEYWORD_PREFIX "n" 1
             (IF_KEYWORD "clude" 5 YANG_INCLUDE
             (IF_KEYWORD "put" 3 YANG_INPUT END)) END))));
      ("k"%char,
       IF_KEYWORD "ey" 2 YANG_KEY END);
      ("l"%char,
       IF_KEYWORD_PREFIX "e" 1
          (IF_KEYWORD "af-list" 7 YANG_LEAF_LIST
          (IF_KEYWORD "af" 2 YANG_LEAF
           (IF_KEYWORD "ngth" 4 YANG_LENGTH END)))
        (IF_KEYWORD "ist" 3 YANG_LIST END));
      ("m"%char,
       IF_KEYWORD_PREFIX "a" 1
          (IF_KEYWORD "ndatory" 7 YANG_MANDATORY
          (IF_KEYWORD "x-elements" 10 YANG_MAX_ELEMENTS END))
        (IF_KEYWORD "in-elements" 11 YANG_MIN_ELEMENTS
         (IF_KEYWORD "ust" 3 YANG_MUST
          (IF_KEYWORD_PREFIX "od" 2
             (IF_KEYWORD "ule" 3 YANG_MODULE
             (IF_KEYWORD "ifier" 5 YANG_MODIFIER END)) END))));
      ("n"%char,
       IF_KEYWORD "amespace" 8 YANG_NAMESPACE
        (IF_KEYWORD "otification" 11 YANG_NOTIFICATION END));
      ("o"%char,
       IF_KEYWORD_PREFIX "r" 1
          (IF_KEYWORD "dered-by" 8 YANG_ORDERED_BY
          (IF_KEYWORD "ganization" 10 YANG_ORGANIZATION END))
        (IF_KEYWORD "utput" 5 YANG_OUTPUT END));
      ("p"%char,
       IF_KEYWORD "ath" 3 YANG_PATH
        (IF_KEYWORD "attern" 6 YANG_PATTERN
         (IF_KEYWORD "osition" 7 YANG_POSITION
          (IF_KEYWORD_PREFIX "re" 2
             (IF_KEYWORD "fix" 3 YANG_PREFIX
             (IF_KEYWORD "sence" 5 YANG_PRESENCE END)) END))));
      ("r"%char,
       IF_KEYWORD "ange" 4 YANG_RANGE
        (IF_KEYWORD_PREFIX "e" 1
           (IF_KEYWORD_PREFIX "f" 1
             (IF_KEYWORD "erence" 6 YANG_REFERENCE
             (IF_KEYWORD "ine" 3 YANG_REFINE END))
           (IF_KEYWORD "quire-instance" 14 YANG_REQUIRE_INSTANCE
            (IF_KEYWORD "vision-date" 11 YANG_REVISION_DATE
             (IF_KEYWORD "vision" 6 YANG_REVISION END))))
         (IF_KEYWORD "pc" 2 YANG_RPC END)));
      ("s"%char,
       IF_KEYWORD "tatus" 5 YANG_STATUS
        (IF_KEYWORD "ubmodule" 8 YANG_SUBMODULE END));
      ("t"%char,
       IF_KEYWORD "ypedef" 6 YANG_TYPEDEF
        (IF_KEYWORD "ype" 3 YANG_TYPE END));
      ("u"%char,
       IF_KEYWORD_PREFIX "ni" 2
          (IF_KEYWORD "que" 3 YANG_UNIQUE
          (IF_KEYWORD "ts" 2 YANG_UNITS END))
        (IF_KEYWORD "ses" 3 YANG_USES END));
      ("v"%char,
       IF_KEYWORD "alue" 4 YANG_VALUE END);
      ("w"%char,
       IF_KEYWORD "hen" 3 YANG_WHEN END);
      ("y"%char,
       IF_KEYWORD "ang-version" 11 YANG_YANG_VERSION
        (IF_KEYWORD "in-element" 10 YANG_YIN_ELEMENT END))
  ].

(** [match_keyword] *)
Definition match_keyword (data : string) (len prefix_len : nat) : yang_keyword :=
  if negb (Nat.eqb prefix_len 0) then YANG_CUSTOM
  else
    let start := data in
    let st := mk_kw data YANG_NONE in
    let st := switch (peek data)
                     (map (fun '(label, body) => (label, fun st => body (MOVE_IN 1 st)))
                          keyword_cases)
                     END st in
    if Nat.eqb (ptr_diff (ks_data st) start) len then ks_kw st else YANG_NONE.

(** The closed set of keywords of the specification with their tags. *)
Definition keywords : list (string * yang_keyword) :=
  [ ("module", YANG_MODULE); ("submodule", YANG_SUBMODULE); ("import", YANG_IMPORT);
    ("include", YANG_INCLUDE); ("belongs-to", YANG_BELONGS_TO);
    ("prefix", YANG_PREFIX); ("namespace", YANG_NAMESPACE);
    ("revision", YANG_REVISION); ("revision-date", YANG_REVISION_DATE);
    ("typedef", YANG_TYPEDEF); ("type", YANG_TYPE); ("grouping", YANG_GROUPING);
    ("uses", YANG_USES); ("container", YANG_CONTAINER); ("leaf", YANG_LEAF);
    ("leaf-list", YANG_LEAF_LIST); ("list", YANG_LIST); ("choice", YANG_CHOICE);
    ("case", YANG_CASE); ("anyxml", YANG_ANYXML); ("anydata", YANG_ANYDATA);
    ("augment", YANG_AUGMENT); ("deviation", YANG_DEVIATION);
    ("deviate", YANG_DEVIATE); ("rpc", YANG_RPC); ("action", YANG_ACTION);
    ("notification", YANG_NOTIFICATION); ("input", YANG_INPUT);
    ("output", YANG_OUTPUT); ("feature", YANG_FEATURE);
    ("if-feature", YANG_IF_FEATURE); ("identity", YANG_IDENTITY); ("base", YANG_BASE);
    ("extension", YANG_EXTENSION); ("argument", YANG_ARGUMENT);
    ("yin-element", YANG_YIN_ELEMENT); ("status", YANG_STATUS);
    ("description", YANG_DESCRIPTION); ("reference", YANG_REFERENCE);
    ("organization", YANG_ORGANIZATION); ("contact", YANG_CONTACT);
    ("default", YANG_DEFAULT); ("config", YANG_CONFIG); ("mandatory", YANG_MANDATORY);
    ("min-elements", YANG_MIN_ELEMENTS); ("max-elements", YANG_MAX_ELEMENTS);
    ("ordered-by", YANG_ORDERED_BY); ("key", YANG_KEY); ("unique", YANG_UNIQUE);
    ("presence", YANG_PRESENCE); ("when", YANG_WHEN); ("must", YANG_MUST);
    ("error-app-tag", YANG_ERROR_APP_TAG); ("error-message", YANG_ERROR_MESSAGE);
    ("path", YANG_PATH); ("pattern", YANG_PATTERN); ("length", YANG_LENGTH);
    ("range", YANG_RANGE); ("enum", YANG_ENUM); ("bit", YANG_BIT);
    ("value", YANG_VALUE); ("position", YANG_POSITION);
    ("fraction-digits", YANG_FRACTION_DIGITS);
    ("require-instance", YANG_REQUIRE_INSTANCE); ("modifier", YANG_MODIFIER);
    ("units", YANG_UNITS); ("refine", YANG_REFINE);
    ("yang-version", YANG_YANG_VERSION) ].

(** What a chain of comparisons that starts after the bytes [pre] does to
    a state without keyword: it sets no keyword, or it has consumed the
    rest of the spelling of the keyword it sets. *)
Definition chain_exact (pre : string) (f : kw_state -> kw_state) : Prop :=
  forall data,
    ks_kw (f (mk_kw data YANG_NONE)) = YANG_NONE
    \/ exists lit tail,
        data = lit +:+ tail /\ ks_data (f (mk_kw data YANG_NONE)) = tail
        /\ In (pre +:+ lit, ks_kw (f (mk_kw data YANG_NONE))) keywords.

(** The state [match_keyword] is in behind its switch. *)
Definition keyword_scan (data : string) : kw_state :=
  switch (peek data)
         (map (fun '(label, body) => (label, fun st => body (MOVE_IN 1 st))) keyword_cases)
         END (mk_kw data YANG_NONE).

(** The keywords another keyword goes on from, with what the longer one
    adds. *)
Definition keyword_extensions : list (string * string) :=
  [ ("leaf", "-list"); ("type", "def"); ("revision", "-date") ].

(** The data behind [spelling] go on with the rest of a longer keyword. *)
Definition extended (spelling rest : string) : bool :=
  existsb (fun '(short, more) => String.eqb short spelling && String.prefix more rest)
          keyword_extensions.

(** The spelling of a keyword tag, by the table of the specification. *)
Definition keyword_spelling (kw : yang_keyword) : option string :=
  fst <$> List.find (fun '(_, k) => bool_decide (k = kw)) keywords.

End Keywords.

(** ** Sample schemas *)

Module Samples.
Import Schema Types.

(** A container that defines the typedef T, below no other node. *)
Definition tpdf_T : lysp_tpdf := mk_tpdf "T" "string".
Definition tpdf_T_top : lysp_tpdf := mk_tpdf "T" "uint8".
Definition tpdf_T_sub : lysp_tpdf := mk_tpdf "T" "boolean".
Definition tpdf_U_sub : lysp_tpdf := mk_tpdf "U" "int32".
Definition container_c : lysp_node := mk_node LYS_CONTAINER [tpdf_T] None.
Definition leaf_x : lysp_node := mk_node LYS_LEAF [] (Some container_c).

(** Module m (prefix m) with a top-level typedef T and a submodule that
    defines T and U. *)
Definition submodule_s : lysp_submodule :=
  mk_submodule "s" "m" [tpdf_T_sub; tpdf_U_sub] false.
Definition parsed_m : lysp_module :=
  mk_parsed [] [mk_include "s" submodule_s] [tpdf_T_top] false.
Definition module_m : lys_module :=
  mk_module "m" (Some "2019-01-01") "m" false 2 (Some parsed_m) None.
Definition ctx_m : ly_ctx := mk_ctx [module_m] 0.


(** A context with two revisions of module a: 2018-01-01 is implemented,
    2019-01-01 is being parsed. *)
Definition module_a_2018 : lys_module :=
  mk_module "a" (Some "2018-01-01") "a" true 0 (Some (mk_parsed [] [] [] false)) None.
Definition module_a_2019 : lys_module :=
  mk_module "a" (Some "2019-01-01") "a" false 2 (Some (mk_parsed [] [] [] true)) None.
Definition ctx_a : ly_ctx := mk_ctx [module_a_2018; module_a_2019] 0.

(** A context without import callback and with nothing to find in the
    search directories. *)
Definition no_parse (ctx : ly_ctx) (data : string) (implement : bool) (name : string)
           (revision : option string) : ly_ctx * option handle := (ctx, None).
Definition compile_ok (ctx : ly_ctx) (h : handle) : ly_ctx * LY_ERR := (ctx, LY_SUCCESS).
Definition no_removal (ctx : ly_ctx) (h : handle) : ly_ctx := ctx.
Definition no_localfile (ctx : ly_ctx) (name : string) (revision : option string)
           (implement : bool) : ly_ctx * option handle := (ctx, None).

Definition load_a (ctx : ly_ctx) (revision : option string) (implement : bool)
  : option Loader.load_result :=
  Loader.lysp_load_module None no_parse compile_ok no_removal no_localfile
                          ctx "a" revision implement false None.


(** The compiled tree of a module with [rpc doit { input { leaf a; } }], a
    top-level container c and a notification n. *)
Inductive sample_node : Set := rpc_doit | leaf_a | container_top | notif_n.

Definition sample_nodetype (n : sample_node) : Z :=
  match n with
  | rpc_doit => LYS_ACTION
  | leaf_a => LYS_LEAF
  | container_top => LYS_CONTAINER
  | notif_n => LYS_NOTIF
  end.

(** The child lookup of the sample tree: doit, c and n at the top level, a
    among the input of doit; the output of doit is empty. *)
Definition sample_child (parent : option sample_node) (mod_ : handle) (name : string)
           (name_len : nat) (nodetype options : Z) : option sample_node :=
  let seg := substring 0 name_len name in
  match parent with
  | None =>
    if String.eqb seg "doit" then Some rpc_doit
    else if String.eqb seg "c" then Some container_top
    else if String.eqb seg "n" then Some notif_n
    else None
  | Some rpc_doit =>
    if String.eqb seg "a" && (Z.land options Resolver.LYS_GETNEXT_OUTPUT =? 0)
    then Some leaf_a else None
  | Some _ => None
  end.

Definition no_implement (ctx : ly_ctx) (h : handle) (v : Z) : ly_ctx := ctx.

Definition resolve_sample (nodeid : string) (context_node : option sample_node)
           (nodetype : Z) : Resolver.resolve_result sample_node :=
  Resolver.lys_resolve_schema_nodeid sample_node sample_nodetype sample_child
    no_implement ctx_m nodeid 0 context_node 0%nat nodetype false.

(** A list below the container c that defines the typedefs U and T, a
    container without parent that defines W, and a module whose top-level
    typedef V does not collide with those of its submodule. *)
Definition list_inner : lysp_node :=
  mk_node LYS_LIST [mk_tpdf "U" "int8"; mk_tpdf "T" "int8"] (Some container_c).
Definition container_w : lysp_node :=
  mk_node LYS_CONTAINER [mk_tpdf "W" "string"; mk_tpdf "X" "W"] None.
Definition parsed_v : lysp_module :=
  mk_parsed [] [mk_include "s" submodule_s] [mk_tpdf "V" "uint8"] false.

(** Module b imports revision 2018-01-01 of module a under the prefix
    ax. *)
Definition module_b : lys_module :=
  mk_module "b" (Some "2019-01-01") "b" false 2
            (Some (mk_parsed [mk_import "a" "ax" (Some 0%nat)] [] [] false)) None.
Definition ctx_b : ly_ctx := mk_ctx [module_a_2018; module_b] 0.

(** Search directories that hold one file, revision 2019-05-05 of a
    module c, parsed as the latest revision known (latest_revision = 1)
    and entered at the end of the registry. *)
Definition localfile_c (ctx : ly_ctx) (name : string) (revision : option string)
           (implement : bool) : ly_ctx * option handle :=
  if String.eqb name "c"
  then (mk_ctx (ctx_list ctx
                ++ [mk_module "c" (Some "2019-05-05") "c" false 1
                              (Some (mk_parsed [] [] [] false)) None])%list
               (ctx_flags ctx),
        Some (length (ctx_list ctx)))
  else (ctx, None).

Definition load_from_c (name : string) (revision : option string) (implement : bool)
  : option Loader.load_result :=
  Loader.lysp_load_module None no_parse compile_ok no_removal
                          localfile_c ctx_a name revision implement false None.

Definition acquire_from_c (name : string) (revision : option string) (implement : bool)
  : ly_ctx * option handle :=
  Loader.acquire None no_parse compile_ok no_removal localfile_c
                 ctx_a name revision implement.

End Samples.

(** * Properties *)

(** ** C strings *)

Module CStrFacts.
Import CStr.

Lemma code_inj c1 c2 : code c1 = code c2 -> c1 = c2.
Proof.
  unfold code. intros H. apply N2Z.inj in H.
  rewrite <- (ascii_N_embedding c1), <- (ascii_N_embedding c2). now rewrite H.
Qed.

Lemma code_range c : 0 <= code c < 256.
Proof.
  unfold code. pose proof (N_ascii_bounded c). lia.
Qed.

Lemma strncmp_S s1 s2 n :
  strncmp s1 s2 (S n) =
  if negb (code (peek s1) =? code (peek s2)) then code (peek s1) - code (peek s2)
  else if code (peek s1) =? 0 then 0
  else strncmp (next s1) (next s2) n.
Proof. reflexivity. Qed.

Lemma strncmp_refl s n : strncmp s s n = 0.
Proof.
  revert s. induction n as [|n IH]; intros s; [reflexivity|].
  rewrite strncmp_S, Z.eqb_refl. simpl negb. cbv iota.
  destruct (code (peek s) =? 0); [reflexivity|apply IH].
Qed.

(** Comparing against a NUL-free literal over exactly its length succeeds
    precisely when the literal is a prefix of the data. *)
Lemma strncmp_literal lit : no_nul lit ->
  forall s, strncmp s lit (String.length lit) = 0 <-> exists rest, s = lit +:+ rest.
Proof.
  unfold no_nul. induction lit as [|c lit IH]; intros Hn s.
  - split; [intros _; now exists s|reflexivity].
  - cbn [upto_nul] in Hn. destruct (code c =? 0) eqn:Hc; [discriminate|].
    injection Hn as Hn. specialize (IH Hn).
    cbn [String.length]. rewrite strncmp_S. cbn [peek next].
    destruct (code (peek s) =? code c) eqn:E; cbn [negb].
    + apply Z.eqb_eq in E. rewrite E, Hc.
      destruct s as [|d s]; cbn [peek next] in *.
      * change (code NUL) with 0 in E. rewrite <- E in Hc. discriminate.
      * apply code_inj in E. subst d. rewrite IH.
        split; intros [r Hr]; exists r.
        -- rewrite Hr. reflexivity.
        -- change (String c lit +:+ r) with (String c (lit +:+ r)) in Hr.
           now injection Hr.
    + apply Z.eqb_neq in E. split; [lia|].
      intros [r Hr]. subst s. exfalso. apply E. reflexivity.
Qed.

End CStrFacts.

(** ** Status auditor *)

Module StatusFacts.
Import Status.

(** The status bits a well-formed flags field carries, and the value the
    auditor compares. *)
Lemma flags_status_bits flags s :
  flags_status flags = Some s ->
  (if negb (Z.land flags LYS_STATUS_MASK =? 0)
   then Z.land flags LYS_STATUS_MASK else LYS_STATUS_CURR) =
  match s with
  | Current => LYS_STATUS_CURR
  | Deprecated => LYS_STATUS_DEPRC
  | Obsolete => LYS_STATUS_OBSLT
  end.
Proof.
  unfold flags_status.
  set (f := Z.land flags LYS_STATUS_MASK).
  destruct (f =? 0) eqn:E0; [intros [= <-]; reflexivity|].
  destruct (f =? LYS_STATUS_CURR) eqn:E1;
    [apply Z.eqb_eq in E1; intros [= <-]; now rewrite E1|].
  destruct (f =? LYS_STATUS_DEPRC) eqn:E2;
    [apply Z.eqb_eq in E2; intros [= <-]; now rewrite E2|].
  destruct (f =? LYS_STATUS_OBSLT) eqn:E3;
    [apply Z.eqb_eq in E3; intros [= <-]; now rewrite E3|discriminate].
Qed.

(** References across modules are never constrained, whatever the flags. *)
Lemma lysc_check_status_cross_module flags1 mod1 name1 flags2 mod2 name2 :
  mod1 <> mod2 ->
  lysc_check_status flags1 mod1 name1 flags2 mod2 name2 = LY_SUCCESS.
Proof.
  intros Hne. unfold lysc_check_status.
  apply Z.eqb_neq in Hne. rewrite Hne, andb_false_r. reflexivity.
Qed.

(** C2 (as the code has it): for flags fields that denote a status, the
    check fails exactly when both definitions are of the same module and
    the referrer's status is strictly more current than the referent's
    (current < deprecated < obsolete); the failure is the validation error
    LY_EVALID. Definitions of different modules always pass. *)
Theorem lysc_check_status_rule flags1 mod1 name1 flags2 mod2 name2 s1 s2 :
  flags_status flags1 = Some s1 ->
  flags_status flags2 = Some s2 ->
  lysc_check_status flags1 mod1 name1 flags2 mod2 name2 =
    (if (mod1 =? mod2) && (status_rank s1 <? status_rank s2)
     then LY_EVALID else LY_SUCCESS)
  /\ (mod1 <> mod2 ->
      lysc_check_status flags1 mod1 name1 flags2 mod2 name2 = LY_SUCCESS).
Proof.
  intros H1 H2. split; [|apply lysc_check_status_cross_module].
  unfold lysc_check_status.
  rewrite (flags_status_bits _ _ H1), (flags_status_bits _ _ H2).
  destruct (mod1 =? mod2); [|now rewrite andb_false_r].
  rewrite andb_true_r. cbn [andb].
  destruct s1, s2; reflexivity.
Qed.

(** A current leaf "x" referencing an obsolete typedef "T" of the same
    module. *)
Lemma lysc_check_status_rule_witness :
  lysc_check_status LYS_STATUS_CURR 1 "x" LYS_STATUS_OBSLT 1 "T" = LY_EVALID
  /\ lysc_check_status LYS_STATUS_DEPRC 1 "x" LYS_STATUS_CURR 1 "T" = LY_SUCCESS.
Proof.
  split.
  - exact (proj1 (lysc_check_status_rule LYS_STATUS_CURR 1 "x" LYS_STATUS_OBSLT 1 "T"
                    Current Obsolete eq_refl eq_refl)).
  - exact (proj1 (lysc_check_status_rule LYS_STATUS_DEPRC 1 "x" LYS_STATUS_CURR 1 "T"
                    Deprecated Current eq_refl eq_refl)).
Defined.

(** The status violation of scenario S5 is reported as LY_EVALID, not as
    LY_EDENIED. *)
Lemma lysc_check_status_not_denied :
  lysc_check_status LYS_STATUS_CURR 1 "x" LYS_STATUS_OBSLT 1 "T" = LY_EVALID
  /\ lysc_check_status LYS_STATUS_CURR 1 "x" LYS_STATUS_OBSLT 1 "T" <> LY_EDENIED.
Proof. split; [reflexivity|discriminate]. Qed.

(** *** The order of the statuses *)

(** X10: what the status check does to flags fields of any content (also
    with several status bits or none): it answers LY_SUCCESS or LY_EVALID;
    a definition may always reference one that carries the same flags; a
    reference that is refused is allowed in the other direction; and
    allowed references within one module compose: when the first
    definition may reference the second and the second the third, the
    first may reference the third. *)
Theorem lysc_check_status_order mod_ flags1 flags2 flags3 name1 name2 name3 :
  (lysc_check_status flags1 mod_ name1 flags2 mod_ name2 = LY_SUCCESS
   \/ lysc_check_status flags1 mod_ name1 flags2 mod_ name2 = LY_EVALID)
  /\ lysc_check_status flags1 mod_ name1 flags1 mod_ name2 = LY_SUCCESS
  /\ (lysc_check_status flags1 mod_ name1 flags2 mod_ name2 = LY_EVALID ->
      lysc_check_status flags2 mod_ name2 flags1 mod_ name1 = LY_SUCCESS)
  /\ (lysc_check_status flags1 mod_ name1 flags2 mod_ name2 = LY_SUCCESS ->
      lysc_check_status flags2 mod_ name2 flags3 mod_ name3 = LY_SUCCESS ->
      lysc_check_status flags1 mod_ name1 flags3 mod_ name3 = LY_SUCCESS).
Proof.
  unfold lysc_check_status. rewrite Z.eqb_refl, !andb_true_r.
  set (flg1 := if negb (Z.land flags1 LYS_STATUS_MASK =? 0)
               then Z.land flags1 LYS_STATUS_MASK else LYS_STATUS_CURR).
  set (flg2 := if negb (Z.land flags2 LYS_STATUS_MASK =? 0)
               then Z.land flags2 LYS_STATUS_MASK else LYS_STATUS_CURR).
  set (flg3 := if negb (Z.land flags3 LYS_STATUS_MASK =? 0)
               then Z.land flags3 LYS_STATUS_MASK else LYS_STATUS_CURR).
  rewrite Z.ltb_irrefl.
  destruct (Z.ltb_spec flg1 flg2), (Z.ltb_spec flg2 flg1), (Z.ltb_spec flg2 flg3),
    (Z.ltb_spec flg1 flg3); repeat split; try tauto; try discriminate; lia.
Qed.

(** A current definition that references an obsolete one of its module
    is refused; so the obsolete one may reference the current one. *)
Lemma lysc_check_status_order_witness :
  lysc_check_status LYS_STATUS_OBSLT 1 "old" LYS_STATUS_CURR 1 "new" = LY_SUCCESS.
Proof.
  exact (proj1 (proj2 (proj2 (lysc_check_status_order
                                1 LYS_STATUS_CURR LYS_STATUS_OBSLT 0 "new" "old" "")))
               eq_refl).
Defined.

End StatusFacts.

(** ** Revision-date validation *)

Module DateFacts.
Import Date CStrFacts.

Lemma isdigit_digit c : isdigit c = true -> 0 <= digit c <= 9.
Proof. unfold isdigit, digit. lia. Qed.

Lemma isdigit_not_space c : isdigit c = true -> isspace c = false.
Proof. unfold isdigit, isspace. lia. Qed.

Lemma isdigit_not_dash c : isdigit c = true -> (code "-"%char =? code c) = false.
Proof. unfold isdigit. change (code "-"%char) with 45. lia. Qed.

(** Case analysis on the byte tests a hypothesis [H] still mentions, in the
    order the format loop makes them. *)
Ltac split_byte_tests H :=
  repeat match type of H with
         | context [isdigit ?c] =>
           destruct (isdigit c) eqn:?; cbn [negb andb] in H |- *
         | context [code ?c =? code "-"%char] =>
           destruct (code c =? code "-"%char) eqn:?; cbn [negb andb] in H |- *
         end.

Lemma check_format_10 date :
  check_format date 0 10 = true ->
  exists y1 y2 y3 y4 h1 m1 m2 h2 d1 d2 rest,
    date = String y1 (String y2 (String y3 (String y4 (String h1
             (String m1 (String m2 (String h2 (String d1 (String d2 rest)))))))))
    /\ isdigit y1 = true /\ isdigit y2 = true /\ isdigit y3 = true
    /\ isdigit y4 = true /\ (code h1 =? code "-"%char) = true
    /\ isdigit m1 = true /\ isdigit m2 = true /\ (code h2 =? code "-"%char) = true
    /\ isdigit d1 = true /\ isdigit d2 = true.
Proof.
  intros H.
  destruct date as [|y1 [|y2 [|y3 [|y4 [|h1 [|m1 [|m2 [|h2 [|d1 [|d2 rest]]]]]]]]]];
    cbn [check_format char_at peek next Nat.eqb orb] in H;
    change (isdigit NUL) with false in H;
    change (code NUL =? code "-"%char) with false in H;
    split_byte_tests H; try discriminate H.
  exists y1, y2, y3, y4, h1, m1, m2, h2, d1, d2, rest. repeat split; assumption.
Qed.

Lemma substring_0_0 s : substring 0 0 s = EmptyString.
Proof. destruct s; reflexivity. Qed.

Lemma check_format_canonical date :
  check_format date 0 10 =
  match canonical_fields (substring 0 10 date) with Some _ => true | None => false end.
Proof.
  destruct date as [|y1 [|y2 [|y3 [|y4 [|h1 [|m1 [|m2 [|h2 [|d1 [|d2 rest]]]]]]]]]];
    cbn [check_format char_at peek next Nat.eqb orb substring];
    rewrite ?substring_0_0; cbn [canonical_fields];
    change (isdigit NUL) with false;
    change (code NUL =? code "-"%char) with false;
    repeat match goal with
           | |- context [isdigit ?c] =>
             destruct (isdigit c) eqn:?; cbn [negb andb]
           | |- context [code ?c =? code "-"%char] =>
             destruct (code c =? code "-"%char) eqn:?; cbn [negb andb]
           end; try reflexivity.
Qed.

Lemma get_number_2 from to a b rest :
  isdigit a = true -> isdigit b = true ->
  get_number from to 2 (String a (String b rest)) =
  if digit a * 10 <=? to
  then (if (digit a * 10 + digit b <? from) || (to <? digit a * 10 + digit b)
        then None else Some (digit a * 10 + digit b, rest))
  else (if (digit a <? from) || (to <? digit a)
        then None else Some (digit a, String b rest)).
Proof.
  intros Ha Hb. unfold get_number. cbn [skip_spaces].
  rewrite (isdigit_not_space _ Ha). cbn [peek]. rewrite Ha.
  cbn [negb get_number_loop peek next]. fold (digit a). fold (digit b).
  rewrite Hb, andb_true_r.
  replace (0 * 10 + digit a) with (digit a) by lia.
  destruct (digit a * 10 <=? to); reflexivity.
Qed.

Lemma get_number_year a b c d rest :
  isdigit a = true -> isdigit b = true -> isdigit c = true -> isdigit d = true ->
  get_number 0 9999 4 (String a (String b (String c (String d rest)))) =
  Some (1000 * digit a + 100 * digit b + 10 * digit c + digit d, rest).
Proof.
  intros Ha Hb Hc Hd. unfold get_number. cbn [skip_spaces].
  rewrite (isdigit_not_space _ Ha). cbn [peek]. rewrite Ha.
  pose proof (isdigit_digit _ Ha). pose proof (isdigit_digit _ Hb).
  pose proof (isdigit_digit _ Hc). pose proof (isdigit_digit _ Hd).
  cbn [negb get_number_loop peek next].
  fold (digit a). fold (digit b). fold (digit c). fold (digit d).
  rewrite Hb, Hc, Hd, !andb_true_r.
  repeat match goal with
         | |- context [?x <=? 9999] =>
           replace (x <=? 9999) with true by (symmetry; apply Z.leb_le; lia)
         end.
  match goal with
  | |- context [(?v <? 0) || (9999 <? ?v)] =>
    replace ((v <? 0) || (9999 <? v)) with false by (symmetry; lia)
  end.
  repeat f_equal. lia.
Qed.

Lemma days_in_month_bounds y m : 28 <= days_in_month y m <= 31.
Proof.
  unfold days_in_month.
  destruct (m =? 1); [destruct (is_leap y); lia|].
  destruct ((m =? 3) || (m =? 5) || (m =? 8) || (m =? 10)); lia.
Qed.

Lemma mktime_carry_mday_le fuel t : tm_mday (mktime_carry fuel t) <= tm_mday t.
Proof.
  revert t. induction fuel as [|fuel IH]; intros t; cbn [mktime_carry]; [lia|].
  pose proof (days_in_month_bounds (tm_year t + 1900) (tm_mon t)) as Hb.
  destruct (tm_mday t <=? _) eqn:E; [lia|].
  apply Z.leb_gt in E.
  destruct (tm_mon t =? 11);
    match goal with |- tm_mday (mktime_carry fuel ?u) <= _ => specialize (IH u) end;
    cbn [tm_mday] in IH; lia.
Qed.

(** The C library's leap years are those of the Gregorian calendar. *)
Lemma is_leap_gregorian y : is_leap y = gregorian_leap_year y.
Proof.
  unfold is_leap, gregorian_leap_year.
  pose proof (Z.div_mod y 400 ltac:(discriminate)).
  pose proof (Z.div_mod y 100 ltac:(discriminate)).
  pose proof (Z.div_mod y 4 ltac:(discriminate)).
  pose proof (Z.mod_pos_bound y 400 eq_refl).
  pose proof (Z.mod_pos_bound y 100 eq_refl).
  pose proof (Z.mod_pos_bound y 4 eq_refl).
  destruct (Z.eqb_spec (y mod 400) 0), (Z.eqb_spec (y mod 100) 0),
    (Z.eqb_spec (y mod 4) 0); cbn [andb orb negb]; try reflexivity; exfalso; lia.
Qed.

Lemma days_in_month_length y m :
  1 <= m <= 12 -> days_in_month y (m - 1) = month_length y m.
Proof.
  intros Hm.
  assert (m = 1 \/ m = 2 \/ m = 3 \/ m = 4 \/ m = 5 \/ m = 6 \/ m = 7 \/ m = 8
          \/ m = 9 \/ m = 10 \/ m = 11 \/ m = 12) as Hc by lia.
  repeat destruct Hc as [->|Hc]; try subst m; try reflexivity.
  unfold days_in_month, month_length. cbn [Z.sub Z.eqb Z.add Z.opp Z.pos_sub Pos.eqb].
  now rewrite is_leap_gregorian.
Qed.

Lemma next_prev_day t :
  calendar_day t -> next_day (prev_day t) = t /\ calendar_day (prev_day t).
Proof.
  destruct t as [y m d]. unfold calendar_day, next_day, prev_day.
  cbn [tm_year tm_mon tm_mday]. intros [Hm Hd].
  destruct (Z.ltb_spec 1 d).
  - cbn [tm_year tm_mon tm_mday].
    destruct (Z.ltb_spec (d - 1) (days_in_month (y + 1900) m)); [|lia].
    split; [f_equal; lia|lia].
  - destruct (Z.eqb_spec m 0) as [->|Hm0]; cbn [tm_year tm_mon tm_mday].
    + change (days_in_month (y - 1 + 1900) 11) with 31.
      rewrite Z.ltb_irrefl. change (11 =? 11) with true. cbn match.
      split; [f_equal; lia|lia].
    + pose proof (days_in_month_bounds (y + 1900) (m - 1)).
      rewrite Z.ltb_irrefl.
      destruct (Z.eqb_spec (m - 1) 11); [lia|].
      split; [f_equal; lia|lia].
Qed.

Lemma prev_next_day t :
  calendar_day t -> prev_day (next_day t) = t /\ calendar_day (next_day t).
Proof.
  destruct t as [y m d]. unfold calendar_day, next_day, prev_day.
  cbn [tm_year tm_mon tm_mday]. intros [Hm Hd].
  destruct (Z.ltb_spec d (days_in_month (y + 1900) m)).
  - cbn [tm_year tm_mon tm_mday].
    destruct (Z.ltb_spec 1 (d + 1)); [|lia].
    split; [f_equal; lia|lia].
  - destruct (Z.eqb_spec m 11) as [->|Hm11]; cbn [tm_year tm_mon tm_mday].
    + change (days_in_month (y + 1900) 11) with 31 in *.
      change (days_in_month (y + 1 + 1900) 0) with 31.
      split; [f_equal; lia|lia].
    + pose proof (days_in_month_bounds (y + 1900) (m + 1)).
      change (1 <? 1) with false. cbn match.
      destruct (Z.eqb_spec (m + 1) 0); [lia|].
      replace (m + 1 - 1) with m by lia.
      split; [f_equal; lia|lia].
Qed.

Lemma iter_prev_day p : forall t,
  calendar_day t ->
  calendar_day (Pos.iter prev_day t p)
  /\ Pos.iter next_day (Pos.iter prev_day t p) p = t.
Proof.
  induction p as [|p IH] using Pos.peano_ind; intros t Ht.
  - cbn [Pos.iter]. destruct (next_prev_day t Ht). tauto.
  - rewrite (Pos.iter_succ p _ prev_day), (Pos.iter_succ_r p _ next_day).
    destruct (IH t Ht) as [Hc Hb].
    destruct (next_prev_day _ Hc) as [-> Hc']. tauto.
Qed.

Lemma iter_next_day p : forall t,
  calendar_day t ->
  calendar_day (Pos.iter next_day t p)
  /\ Pos.iter prev_day (Pos.iter next_day t p) p = t.
Proof.
  induction p as [|p IH] using Pos.peano_ind; intros t Ht.
  - cbn [Pos.iter]. destruct (prev_next_day t Ht). tauto.
  - rewrite (Pos.iter_succ p _ next_day), (Pos.iter_succ_r p _ prev_day).
    destruct (IH t Ht) as [Hc Hb].
    destruct (prev_next_day _ Hc) as [-> Hc']. tauto.
Qed.

Lemma add_days_back t k : calendar_day t -> add_days (add_days t k) (- k) = t.
Proof.
  intros Ht. destruct k as [|p|p]; cbn [add_days Z.opp]; [reflexivity| |].
  - apply (iter_next_day p t Ht).
  - apply (iter_prev_day p t Ht).
Qed.

(** In a zone without daylight saving time mktime shows the day it was
    asked for. *)
Lemma mktime_standard tz t :
  standard_time_only tz -> calendar_day (normalize t) -> mktime tz t = normalize t.
Proof.
  intros Hstd Hday. unfold mktime. rewrite Hstd.
  set (instant := 0 - tz_std tz).
  replace (instant mod SECS_PER_DAY + tz_std tz)
    with ((- (instant / SECS_PER_DAY)) * SECS_PER_DAY)
    by (pose proof (Z.div_mod instant SECS_PER_DAY); unfold SECS_PER_DAY in *; lia).
  rewrite Z.div_mul by discriminate.
  now apply add_days_back.
Qed.

(** What the normalisation does to a date read by strptime: a day that
    exists in its month stays, a later one becomes a day at the start of
    the following month. *)
Lemma normalize_strptime y m d :
  1 <= m <= 12 -> 1 <= d <= 31 ->
  calendar_day (normalize (mk_tm (y - 1900) (m - 1) d))
  /\ (tm_mday (normalize (mk_tm (y - 1900) (m - 1) d)) =? d) = (d <=? month_length y m).
Proof.
  intros Hm Hd. unfold normalize. cbn [tm_year tm_mon tm_mday].
  rewrite Z.div_small, Z.mod_small by lia.
  replace (y - 1900 + 0) with (y - 1900) by lia.
  pose proof (days_in_month_bounds y (m - 1)) as Hb.
  pose proof (days_in_month_length y m Hm) as Hl.
  destruct (Z.to_nat d) as [|[|fuel]] eqn:Hf; [lia| |].
  - assert (d = 1) as -> by lia.
    cbn [mktime_carry tm_year tm_mon tm_mday].
    replace (y - 1900 + 1900) with y by lia.
    destruct (Z.leb_spec 1 (days_in_month y (m - 1))); [|lia].
    unfold calendar_day. cbn [tm_year tm_mon tm_mday].
    replace (y - 1900 + 1900) with y by lia.
    split; [lia|]. rewrite <- Hl. symmetry. apply Z.leb_le. lia.
  - cbn [mktime_carry tm_year tm_mon tm_mday].
    replace (y - 1900 + 1900) with y by lia.
    rewrite <- Hl.
    destruct (Z.leb_spec d (days_in_month y (m - 1))) as [Hle|Hgt].
    + unfold calendar_day. cbn [tm_year tm_mon tm_mday].
      replace (y - 1900 + 1900) with y by lia.
      split; [lia|apply Z.eqb_refl].
    + destruct (Z.eqb_spec (m - 1) 11) as [E|E]; cbn [tm_year tm_mon tm_mday].
      * change (days_in_month (y - 1900 + 1 + 1900) 0) with 31.
        destruct (Z.leb_spec (d - days_in_month y (m - 1)) 31); [|lia].
        unfold calendar_day. cbn [tm_year tm_mon tm_mday].
        change (days_in_month (y - 1900 + 1 + 1900) 0) with 31.
        split; [lia|apply Z.eqb_neq; lia].
      * pose proof (days_in_month_bounds y (m - 1 + 1)) as Hb'.
        destruct (Z.leb_spec (d - days_in_month y (m - 1))
                             (days_in_month y (m - 1 + 1))); [|lia].
        unfold calendar_day. cbn [tm_year tm_mon tm_mday].
        replace (y - 1900 + 1900) with y by lia.
        split; [lia|apply Z.eqb_neq; lia].
Qed.

(** In a zone without daylight saving time mktime keeps the day of a date
    read by strptime exactly when the day exists in its month. *)
Lemma mktime_keeps_mday tz y m d :
  standard_time_only tz -> 1 <= m <= 12 -> 1 <= d <= 31 ->
  (tm_mday (mktime tz (mk_tm (y - 1900) (m - 1) d)) =? d) = (d <=? month_length y m).
Proof.
  intros Hstd Hm Hd. destruct (normalize_strptime y m d Hm Hd) as [Hday Heq].
  now rewrite (mktime_standard tz _ Hstd Hday).
Qed.


(** In every zone an accepted value is ten bytes of the shape
    DDDD-DD-DD. *)
Lemma lysp_check_date_format tz date date_len :
  lysp_check_date tz (Some date) date_len = LY_SUCCESS ->
  date_len = 10 /\ exists f, canonical_fields (substring 0 10 date) = Some f.
Proof.
  unfold lysp_check_date, LY_REV_SIZE.
  destruct (Z.eqb_spec date_len (11 - 1)) as [->|]; cbn [negb]; [|discriminate].
  change (Z.to_nat (11 - 1)) with 10%nat. rewrite check_format_canonical.
  destruct (canonical_fields (substring 0 10 date)) as [f|]; cbn [negb];
    [|discriminate].
  intros _. split; [reflexivity|now exists f].
Qed.

Lemma lysp_check_date_10 tz date :
  standard_time_only tz ->
  lysp_check_date tz (Some date) 10 =
  if real_gregorian_date (substring 0 10 date) then LY_SUCCESS else LY_EINVAL.
Proof.
  intros Hstd. unfold lysp_check_date. change (10 =? LY_REV_SIZE - 1) with true.
  change (Z.to_nat 10) with 10%nat. cbn [negb].
  destruct (check_format date 0 10) eqn:Hf; cbn [negb].
  2: { rewrite check_format_canonical in Hf. unfold real_gregorian_date.
       destruct (canonical_fields _); [discriminate|reflexivity]. }
  destruct (check_format_10 _ Hf)
    as (y1 & y2 & y3 & y4 & h1 & m1 & m2 & h2 & d1 & d2 & rest & -> &
        Hy1 & Hy2 & Hy3 & Hy4 & Hh1 & Hm1 & Hm2 & Hh2 & Hd1 & Hd2).
  clear Hf. cbn [substring]. rewrite substring_0_0.
  unfold real_gregorian_date. cbn [canonical_fields].
  rewrite Hy1, Hy2, Hy3, Hy4, Hh1, Hm1, Hm2, Hh2, Hd1, Hd2. cbn [andb].
  unfold strptime_Ymd. rewrite get_number_year by assumption.
  unfold match_char. cbn [peek next].
  rewrite (Z.eqb_sym (code "-"%char) (code h1)), Hh1.
  rewrite get_number_2 by assumption.
  pose proof (isdigit_digit _ Hy1). pose proof (isdigit_digit _ Hy2).
  pose proof (isdigit_digit _ Hy3). pose proof (isdigit_digit _ Hy4).
  pose proof (isdigit_digit _ Hm1). pose proof (isdigit_digit _ Hm2).
  pose proof (isdigit_digit _ Hd1). pose proof (isdigit_digit _ Hd2).
  set (Y := 1000 * digit y1 + 100 * digit y2 + 10 * digit y3 + digit y4).
  assert (0 <= Y <= 9999) as HY by (subst Y; lia).
  replace (10 * digit m1 + digit m2) with (digit m1 * 10 + digit m2) by lia.
  replace (10 * digit d1 + digit d2) with (digit d1 * 10 + digit d2) by lia.
  set (M := digit m1 * 10 + digit m2). set (D := digit d1 * 10 + digit d2).
  destruct (digit m1 * 10 <=? 12) eqn:E1.
  - destruct ((M <? 1) || (12 <? M)) eqn:E2.
    + destruct (gregorian_date Y M D) eqn:G; [|reflexivity].
      unfold gregorian_date in G. exfalso. lia.
    + cbn [peek next]. rewrite (Z.eqb_sym (code "-"%char) (code h2)), Hh2.
      rewrite get_number_2 by assumption. fold D.
      assert (1 <= M <= 12) as HM by lia.
      pose proof (days_in_month_bounds Y (M - 1)) as Hb.
      rewrite (days_in_month_length Y M HM) in Hb.
      destruct (digit d1 * 10 <=? 31) eqn:E3.
      * destruct ((D <? 1) || (31 <? D)) eqn:E4.
        -- destruct (gregorian_date Y M D) eqn:G; [|reflexivity].
           unfold gregorian_date in G. exfalso. lia.
        -- replace (Z.of_nat _ - Z.of_nat (String.length rest) =? LY_REV_SIZE - 1)
             with true
             by (symmetry; apply Z.eqb_eq; cbn [String.length]; unfold LY_REV_SIZE; lia).
           cbn [negb tm_mday].
           rewrite (Z.eqb_sym D), (mktime_keeps_mday tz Y M D) by (assumption || lia).
           unfold gregorian_date.
           replace ((0 <=? Y) && (Y <=? 9999) && (1 <=? M) && (M <=? 12) && (1 <=? D))
             with true by (symmetry; lia).
           cbn [andb]. destruct (D <=? month_length Y M); reflexivity.
      * replace ((digit d1 <? 1) || (31 <? digit d1)) with false by (symmetry; lia).
        replace (Z.of_nat _ - Z.of_nat (String.length (String d2 rest)) =? LY_REV_SIZE - 1)
          with false
          by (symmetry; apply Z.eqb_neq; cbn [String.length]; unfold LY_REV_SIZE; lia).
        cbn [negb].
        destruct (gregorian_date Y M D) eqn:G; [|reflexivity].
        unfold gregorian_date in G. exfalso. lia.
  - assert (gregorian_date Y M D = false) as ->
      by (unfold gregorian_date; lia).
    destruct ((digit m1 <? 1) || (12 <? digit m1)); [reflexivity|].
    cbn [peek next]. rewrite (isdigit_not_dash _ Hm2). reflexivity.
Qed.


Lemma canonical_fields_length s f : canonical_fields s = Some f -> String.length s = 10%nat.
Proof.
  destruct s as [|y1 [|y2 [|y3 [|y4 [|h1 [|m1 [|m2 [|h2 [|d1 [|d2 [|e rest]]]]]]]]]]];
    cbn [canonical_fields]; try discriminate. reflexivity.
Qed.

Lemma substring_whole s : substring 0 (String.length s) s = s.
Proof. induction s as [|c s IH]; cbn [String.length substring]; [|rewrite IH]; reflexivity. Qed.

Lemma lysp_check_date_cases tz date date_len :
  lysp_check_date tz date date_len = LY_SUCCESS
  \/ lysp_check_date tz date date_len = LY_EINVAL.
Proof.
  unfold lysp_check_date. destruct date as [date|]; [|now right].
  destruct (negb (date_len =? LY_REV_SIZE - 1)); [now right|].
  destruct (negb (check_format _ _ _)); [now right|].
  destruct (strptime_Ymd date) as [[t r]|]; [|now right].
  destruct (negb (_ =? LY_REV_SIZE - 1)); [now right|].
  destruct (negb (_ =? _)); [now right|now left].
Qed.

(** C7: the check takes the day from mktime, which works in the local
    time of the process. In a zone without daylight saving time a value is
    accepted exactly when it is ten bytes long, has the shape DDDD-DD-DD
    and denotes a real Gregorian date between 0000-01-01 and 9999-12-31,
    and in every zone a value that is not accepted is rejected with
    LY_EINVAL. In UTC the four inputs of scenario S3 are answered as the
    scenario has them. In the zone Europe/Dublin the real date 2018-02-28
    is rejected: midnight of that day, read as Irish Standard Time, is
    23:00 of the day before in the Greenwich Mean Time that is in force
    in winter, and the day mktime hands back is the 27th. *)
Theorem lysp_check_date_local_time :
  (forall tz date date_len,
      standard_time_only tz ->
      (lysp_check_date tz (Some date) date_len = LY_SUCCESS <->
       date_len = 10 /\ real_gregorian_date (substring 0 10 date) = true))
  /\ (forall tz date date_len,
        lysp_check_date tz date date_len <> LY_SUCCESS ->
        lysp_check_date tz date date_len = LY_EINVAL)
  /\ lysp_check_date utc (Some "2018-02-29") 10 = LY_EINVAL
  /\ lysp_check_date utc (Some "2018-13-01") 10 = LY_EINVAL
  /\ lysp_check_date utc (Some "2018-2-28") 9 = LY_EINVAL
  /\ lysp_check_date utc (Some "2018-02-28") 10 = LY_SUCCESS
  /\ real_gregorian_date "2018-02-28" = true
  /\ lysp_check_date europe_dublin (Some "2018-02-28") 10 = LY_EINVAL.
Proof.
  split; [|split; [|repeat split; reflexivity]].
  - intros tz date date_len Hstd. destruct (Z.eq_dec date_len 10) as [->|Hne].
    + rewrite (lysp_check_date_10 tz date Hstd).
      destruct (real_gregorian_date _); split; try tauto; try discriminate.
      intros [_ H]; discriminate H.
    + unfold lysp_check_date. unfold LY_REV_SIZE.
      replace (date_len =? 11 - 1) with false by (symmetry; apply Z.eqb_neq; lia).
      cbn [negb]. split; [discriminate|tauto].
  - intros tz date date_len H.
    destruct (lysp_check_date_cases tz date date_len); tauto.
Qed.

(** The last day of February 2018 in UTC, and the day after it. *)
Lemma lysp_check_date_local_time_witness :
  lysp_check_date utc (Some "2018-02-28") 10 = LY_SUCCESS
  /\ lysp_check_date utc (Some "2018-02-29") 10 = LY_EINVAL.
Proof.
  split.
  - apply (proj1 lysp_check_date_local_time utc "2018-02-28" 10).
    + intros day sec. reflexivity.
    + split; reflexivity.
  - apply (proj1 (proj2 lysp_check_date_local_time) utc (Some "2018-02-29") 10).
    discriminate.
Defined.

End DateFacts.

(** ** Revisions *)

Module RevisionsFacts.
Import Revisions CStrFacts.

Lemma strcmp_unfold s1 s2 :
  strcmp s1 s2 =
  if negb (code (peek s1) =? code (peek s2)) then code (peek s1) - code (peek s2)
  else if code (peek s1) =? 0 then 0
  else strcmp (next s1) (next s2).
Proof.
  destruct s1 as [|c1 t1]; cbn [strcmp peek next]; [|reflexivity].
  change (code NUL) with 0.
  destruct (0 =? code (peek s2)) eqn:E; cbn [negb]; [|reflexivity].
  apply Z.eqb_eq in E. rewrite <- E. reflexivity.
Qed.

Lemma strcmp_refl s : strcmp s s = 0.
Proof.
  induction s as [|c s IH]; [reflexivity|].
  rewrite strcmp_unfold. cbn [peek next]. rewrite Z.eqb_refl. cbn [negb].
  destruct (code c =? 0); [reflexivity|exact IH].
Qed.

Lemma strcmp_le_trans a : forall b c,
  strcmp a b <= 0 -> strcmp b c <= 0 -> strcmp a c <= 0.
Proof.
  induction a as [|x a IH]; intros b c.
  - intros _ _. cbn [strcmp]. change (code NUL) with 0.
    pose proof (code_range (peek c)). lia.
  - rewrite (strcmp_unfold (String x a) b), (strcmp_unfold b c),
      (strcmp_unfold (String x a) c).
    cbn [peek next].
    pose proof (code_range x). pose proof (code_range (peek b)).
    pose proof (code_range (peek c)).
    destruct (Z.eqb_spec (code x) (code (peek b))) as [E1|E1];
      destruct (Z.eqb_spec (code (peek b)) (code (peek c))) as [E2|E2];
      destruct (Z.eqb_spec (code x) (code (peek c))) as [E3|E3]; cbn [negb];
      try lia.
    rewrite <- E1.
    destruct (code x =? 0); [lia|]. apply IH.
Qed.

Lemma strcmp_gt_flip a : forall b, strcmp a b > 0 -> strcmp b a <= 0.
Proof.
  induction a as [|x a IH]; intros b.
  - cbn [strcmp]. change (code NUL) with 0. pose proof (code_range (peek b)). lia.
  - rewrite (strcmp_unfold (String x a) b), (strcmp_unfold b (String x a)).
    cbn [peek next]. rewrite (Z.eqb_sym (code (peek b)) (code x)).
    destruct (Z.eqb_spec (code x) (code (peek b))) as [E1|E1]; cbn [negb]; [|lia].
    rewrite <- E1.
    destruct (code x =? 0); [lia|]. apply IH.
Qed.

(** With 256 or more revisions the 8-bit counter can never reach the size
    of the array: the scan runs forever. *)
Lemma sort_scan_diverges revs fuel : forall i r,
  256 <= LY_ARRAY_SIZE revs -> 0 <= i < 256 -> sort_scan fuel revs i r = None.
Proof.
  induction fuel as [|fuel IH]; intros i r Hsz Hi; cbn [sort_scan]; [reflexivity|].
  replace (i <? LY_ARRAY_SIZE revs) with true by (symmetry; apply Z.ltb_lt; lia).
  apply IH; [exact Hsz|]. apply Z.mod_pos_bound. lia.
Qed.


Lemma sort_scan_max revs fuel : forall i r,
  LY_ARRAY_SIZE revs <= 255 ->
  1 <= i <= LY_ARRAY_SIZE revs -> 0 <= r < i ->
  LY_ARRAY_SIZE revs - i < Z.of_nat fuel ->
  (forall j, 0 <= j < i -> strcmp (date_at revs j) (date_at revs r) <= 0) ->
  exists r', sort_scan fuel revs i r = Some r'
             /\ 0 <= r' < LY_ARRAY_SIZE revs
             /\ forall j, 0 <= j < LY_ARRAY_SIZE revs ->
                          strcmp (date_at revs j) (date_at revs r') <= 0.
Proof.
  induction fuel as [|fuel IH]; intros i r Hsz Hi Hr Hfuel Hmax; [lia|].
  cbn [sort_scan].
  destruct (Z.ltb_spec i (LY_ARRAY_SIZE revs)) as [Hlt|Hge].
  - rewrite Z.mod_small by lia.
    apply IH; try lia.
    + destruct (strcmp (date_at revs i) (date_at revs r) >? 0); lia.
    + intros j Hj.
      destruct (Z.gtb_spec (strcmp (date_at revs i) (date_at revs r)) 0) as [Hgt|Hle].
      * destruct (Z.eq_dec j i) as [->|Hne]; [rewrite strcmp_refl; lia|].
        apply strcmp_le_trans with (b := date_at revs r); [apply Hmax; lia|].
        apply strcmp_gt_flip. lia.
      * destruct (Z.eq_dec j i) as [->|Hne]; [exact Hle|]. apply Hmax. lia.
  - exists r. split; [reflexivity|]. split; [lia|].
    intros j Hj. apply Hmax. lia.
Qed.

Lemma date_at_lookup (revs : list lysp_revision) (i : nat) rev :
  revs !! i = Some rev -> date_at revs (Z.of_nat i) = date rev.
Proof. intros H. unfold date_at. now rewrite Nat2Z.id, H. Qed.

(** What the function achieves on arrays the 8-bit counters can index: it
    returns, the array is permuted by one exchange, and the entry at index
    0 carries the largest date. *)
Lemma lysp_sort_revisions_small (revs : list lysp_revision) :
  (0 < length revs <= 255)%nat ->
  exists newest rest,
    lysp_sort_revisions (length revs) (Some revs) = Some (Some (newest :: rest))
    /\ newest :: rest ≡ₚ revs
    /\ forall rev, rev ∈ revs -> strcmp (date rev) (date newest) <= 0.
Proof.
  intros Hlen. unfold lysp_sort_revisions.
  destruct (sort_scan_max revs (length revs) 1 0) as (r & -> & Hr & Hmax);
    unfold LY_ARRAY_SIZE in *; try lia.
  { intros j Hj. replace j with 0 by lia. rewrite strcmp_refl. lia. }
  destruct (lookup_lt_is_Some_2 revs (Z.to_nat r)) as [newest Hnew]; [lia|].
  assert (forall rev, rev ∈ revs -> strcmp (date rev) (date newest) <= 0) as Hall.
  { intros rev [j Hj]%list_elem_of_lookup.
    pose proof (lookup_lt_Some _ _ _ Hj).
    rewrite <- (date_at_lookup _ _ _ Hj).
    rewrite <- (date_at_lookup _ _ _ Hnew), Z2Nat.id by lia.
    apply Hmax. lia. }
  destruct revs as [|rev0 revs']; [cbn in Hlen; lia|].
  destruct (Z.eqb_spec r 0) as [->|Hr0]; cbn [negb].
  - exists rev0, revs'. cbn in Hnew. injection Hnew as <-. auto.
  - unfold swap_with_first. rewrite Hnew. cbn [lookup list_lookup].
    destruct (Z.to_nat r) as [|k] eqn:Hk; [lia|].
    cbn [insert list_insert]. exists newest, (<[k:=rev0]> revs').
    split; [reflexivity|]. split; [|exact Hall].
    change (<[S k:=rev0]> (<[0%nat:=newest]> (rev0 :: revs')) ≡ₚ rev0 :: revs').
    now apply Permutation_insert_swap.
Qed.

(** C9 at an array of 256 revisions whose newest entry is the last one:
    the 8-bit counter wraps from 255 to 0 and the call never returns,
    whatever the number of iterations granted. *)
Theorem lysp_sort_revisions_256_never_returns :
  forall fuel,
    lysp_sort_revisions fuel
      (Some (replicate 255 (mk_rev "2018-01-01" "" "")
             ++ [mk_rev "2019-01-01" "" ""])%list) = None.
Proof.
  intros fuel. unfold lysp_sort_revisions.
  rewrite sort_scan_diverges; [reflexivity| |lia].
  unfold LY_ARRAY_SIZE. rewrite length_app, length_replicate. cbn. lia.
Qed.

(** *** Revision sorting on arrays the counters can index *)

Lemma strcmp_gt_lt a : forall b, strcmp a b > 0 -> strcmp b a < 0.
Proof.
  induction a as [|x a IH]; intros b.
  - cbn [strcmp]. change (code NUL) with 0. pose proof (code_range (peek b)). lia.
  - rewrite (strcmp_unfold (String x a) b), (strcmp_unfold b (String x a)).
    cbn [peek next]. rewrite (Z.eqb_sym (code (peek b)) (code x)).
    destruct (Z.eqb_spec (code x) (code (peek b))) as [E1|E1]; cbn [negb]; [|lia].
    rewrite <- E1.
    destruct (code x =? 0); [lia|]. apply IH.
Qed.

Lemma strcmp_le_lt_trans a : forall b c,
  strcmp a b <= 0 -> strcmp b c < 0 -> strcmp a c < 0.
Proof.
  induction a as [|x a IH]; intros b c.
  - rewrite (strcmp_unfold EmptyString b), (strcmp_unfold b c),
      (strcmp_unfold EmptyString c).
    cbn [peek next]. change (code NUL) with 0.
    pose proof (code_range (peek b)). pose proof (code_range (peek c)).
    destruct (Z.eqb_spec 0 (code (peek b))) as [E1|E1];
      destruct (Z.eqb_spec (code (peek b)) (code (peek c))) as [E2|E2];
      destruct (Z.eqb_spec 0 (code (peek c))) as [E3|E3]; cbn [negb];
      try lia.
    rewrite <- E1. cbn. lia.
  - rewrite (strcmp_unfold (String x a) b), (strcmp_unfold b c),
      (strcmp_unfold (String x a) c).
    cbn [peek next].
    pose proof (code_range x). pose proof (code_range (peek b)).
    pose proof (code_range (peek c)).
    destruct (Z.eqb_spec (code x) (code (peek b))) as [E1|E1];
      destruct (Z.eqb_spec (code (peek b)) (code (peek c))) as [E2|E2];
      destruct (Z.eqb_spec (code x) (code (peek c))) as [E3|E3]; cbn [negb];
      try lia.
    rewrite <- E1.
    destruct (code x =? 0); [lia|]. apply IH.
Qed.

(** The scan keeps the position of the first largest date among the
    entries it has passed. *)
Lemma sort_scan_first_max revs fuel : forall i r,
  LY_ARRAY_SIZE revs <= 255 ->
  1 <= i <= LY_ARRAY_SIZE revs -> 0 <= r < i ->
  LY_ARRAY_SIZE revs - i < Z.of_nat fuel ->
  (forall j, 0 <= j < i -> strcmp (date_at revs j) (date_at revs r) <= 0) ->
  (forall j, 0 <= j < r -> strcmp (date_at revs j) (date_at revs r) < 0) ->
  exists r', sort_scan fuel revs i r = Some r'
             /\ 0 <= r' < LY_ARRAY_SIZE revs
             /\ (forall j, 0 <= j < LY_ARRAY_SIZE revs ->
                           strcmp (date_at revs j) (date_at revs r') <= 0)
             /\ (forall j, 0 <= j < r' ->
                           strcmp (date_at revs j) (date_at revs r') < 0).
Proof.
  induction fuel as [|fuel IH]; intros i r Hsz Hi Hr Hfuel Hmax Hfirst; [lia|].
  cbn [sort_scan].
  destruct (Z.ltb_spec i (LY_ARRAY_SIZE revs)) as [Hlt|Hge].
  - rewrite Z.mod_small by lia.
    destruct (Z.gtb_spec (strcmp (date_at revs i) (date_at revs r)) 0) as [Hgt|Hle].
    + apply IH; try lia.
      * intros j Hj. destruct (Z.eq_dec j i) as [->|Hne]; [rewrite strcmp_refl; lia|].
        apply strcmp_le_trans with (b := date_at revs r); [apply Hmax; lia|].
        apply strcmp_gt_flip. lia.
      * intros j Hj.
        apply strcmp_le_lt_trans with (b := date_at revs r); [apply Hmax; lia|].
        apply strcmp_gt_lt. lia.
    + apply IH; try lia; [|exact Hfirst].
      intros j Hj. destruct (Z.eq_dec j i) as [->|Hne]; [exact Hle|]. apply Hmax. lia.
  - exists r. split; [reflexivity|]. split; [lia|]. split; [|exact Hfirst].
    intros j Hj. apply Hmax. lia.
Qed.

Lemma swap_with_first_0 (revs : list lysp_revision) : swap_with_first revs 0 = revs.
Proof.
  unfold swap_with_first. destruct revs as [|rev0 revs]; reflexivity.
Qed.

Lemma swap_with_first_head (revs : list lysp_revision) r newest :
  revs !! r = Some newest -> swap_with_first revs r !! 0%nat = Some newest.
Proof.
  intros Hr. unfold swap_with_first.
  destruct revs as [|rev0 revs]; [discriminate|]. rewrite Hr. cbn [lookup list_lookup].
  destruct r as [|r]; [cbn in Hr |- *; congruence|reflexivity].
Qed.

Lemma swap_with_first_perm (revs : list lysp_revision) r :
  swap_with_first revs r ≡ₚ revs.
Proof.
  unfold swap_with_first.
  destruct revs as [|rev0 revs]; [reflexivity|]. cbn [lookup list_lookup].
  destruct r as [|r]; [reflexivity|].
  cbn [lookup list_lookup]. destruct (revs !! r) as [newest|] eqn:Hr; [|reflexivity].
  change (<[S r:=rev0]> (<[0%nat:=newest]> (rev0 :: revs)) ≡ₚ rev0 :: revs).
  now apply Permutation_insert_swap.
Qed.

(** X11: on an array of 1 to 255 revisions [lysp_sort_revisions] returns
    (within as many rounds as the array has entries), and what it has done
    is one exchange: the entry at index 0 and the first entry that carries
    the largest date have changed places. The result is a permutation of
    the input whose index 0 holds a largest date. *)
Theorem lysp_sort_revisions_first_newest (revs : list lysp_revision) fuel :
  (0 < length revs <= 255)%nat -> (length revs <= fuel)%nat ->
  exists r newest,
    revs !! r = Some newest
    /\ lysp_sort_revisions fuel (Some revs) = Some (Some (swap_with_first revs r))
    /\ swap_with_first revs r !! 0%nat = Some newest
    /\ swap_with_first revs r ≡ₚ revs
    /\ (forall rev, rev ∈ revs -> strcmp (date rev) (date newest) <= 0)
    /\ (forall j rev, (j < r)%nat -> revs !! j = Some rev ->
                      strcmp (date rev) (date newest) < 0).
Proof.
  intros Hlen Hfuel. unfold lysp_sort_revisions.
  destruct (sort_scan_first_max revs fuel 1 0) as (r & -> & Hr & Hmax & Hfirst);
    unfold LY_ARRAY_SIZE in *; try lia.
  { intros j Hj. replace j with 0 by lia. rewrite strcmp_refl. lia. }
  destruct (lookup_lt_is_Some_2 revs (Z.to_nat r)) as [newest Hnew]; [lia|].
  exists (Z.to_nat r), newest. split; [exact Hnew|].
  split; [|split; [now apply swap_with_first_head|split; [apply swap_with_first_perm|split]]].
  - destruct (Z.eqb_spec r 0) as [->|Hr0]; cbn [negb]; [|reflexivity].
    now rewrite swap_with_first_0.
  - intros rev [j Hj]%list_elem_of_lookup.
    pose proof (lookup_lt_Some _ _ _ Hj).
    rewrite <- (date_at_lookup _ _ _ Hj).
    rewrite <- (date_at_lookup _ _ _ Hnew), Z2Nat.id by lia.
    apply Hmax. lia.
  - intros j rev Hj Hrev.
    rewrite <- (date_at_lookup _ _ _ Hrev).
    rewrite <- (date_at_lookup _ _ _ Hnew), Z2Nat.id by lia.
    apply Hfirst. lia.
Qed.

Lemma lysp_sort_revisions_first_newest_witness :
  exists r newest,
    [mk_rev "2018-01-01" "" ""; mk_rev "2019-06-30" "a" ""; mk_rev "2019-06-30" "b" ""]
      !! r = Some newest
    /\ lysp_sort_revisions 3
         (Some [mk_rev "2018-01-01" "" ""; mk_rev "2019-06-30" "a" "";
                mk_rev "2019-06-30" "b" ""])
       = Some (Some (swap_with_first
                       [mk_rev "2018-01-01" "" ""; mk_rev "2019-06-30" "a" "";
                        mk_rev "2019-06-30" "b" ""] r))
    /\ swap_with_first
         [mk_rev "2018-01-01" "" ""; mk_rev "2019-06-30" "a" "";
          mk_rev "2019-06-30" "b" ""] r !! 0%nat = Some newest
    /\ swap_with_first
         [mk_rev "2018-01-01" "" ""; mk_rev "2019-06-30" "a" "";
          mk_rev "2019-06-30" "b" ""] r
       ≡ₚ [mk_rev "2018-01-01" "" ""; mk_rev "2019-06-30" "a" "";
           mk_rev "2019-06-30" "b" ""]
    /\ (forall rev,
          rev ∈ [mk_rev "2018-01-01" "" ""; mk_rev "2019-06-30" "a" "";
                 mk_rev "2019-06-30" "b" ""] ->
          strcmp (date rev) (date newest) <= 0)
    /\ (forall j rev, (j < r)%nat ->
          [mk_rev "2018-01-01" "" ""; mk_rev "2019-06-30" "a" "";
           mk_rev "2019-06-30" "b" ""] !! j = Some rev ->
          strcmp (date rev) (date newest) < 0).
Proof.
  apply (lysp_sort_revisions_first_newest
           [mk_rev "2018-01-01" "" ""; mk_rev "2019-06-30" "a" "";
            mk_rev "2019-06-30" "b" ""] 3); cbn [length]; lia.
Defined.

(** The scan of an array whose index 0 holds a largest date ends at 0. *)
Lemma sort_scan_keeps_0 revs fuel : forall i,
  LY_ARRAY_SIZE revs <= 255 -> 1 <= i -> (0 < fuel)%nat ->
  LY_ARRAY_SIZE revs - i < Z.of_nat fuel ->
  (forall j, 0 <= j < LY_ARRAY_SIZE revs ->
             strcmp (date_at revs j) (date_at revs 0) <= 0) ->
  sort_scan fuel revs i 0 = Some 0.
Proof.
  induction fuel as [|fuel IH]; intros i Hsz Hi Hpos Hfuel Hmax; [lia|].
  cbn [sort_scan].
  destruct (Z.ltb_spec i (LY_ARRAY_SIZE revs)) as [Hlt|Hge]; [|reflexivity].
  rewrite Z.mod_small by lia.
  destruct (Z.gtb_spec (strcmp (date_at revs i) (date_at revs 0)) 0) as [Hgt|Hle].
  - specialize (Hmax i ltac:(lia)). lia.
  - apply IH; try lia. exact Hmax.
Qed.

Lemma lysp_sort_revisions_sorted (revs : list lysp_revision) fuel :
  (length revs <= 255)%nat -> (length revs <= fuel)%nat -> (0 < fuel)%nat ->
  (forall j, 0 <= j < LY_ARRAY_SIZE revs ->
             strcmp (date_at revs j) (date_at revs 0) <= 0) ->
  lysp_sort_revisions fuel (Some revs) = Some (Some revs).
Proof.
  intros Hlen Hfuel Hpos Hmax. unfold lysp_sort_revisions.
  rewrite sort_scan_keeps_0; unfold LY_ARRAY_SIZE in *; try lia; [reflexivity|exact Hmax].
Qed.

Lemma date_at_elem_of (revs : list lysp_revision) j :
  0 <= j < LY_ARRAY_SIZE revs -> exists rev, rev ∈ revs /\ date_at revs j = date rev.
Proof.
  unfold LY_ARRAY_SIZE. intros Hj.
  destruct (lookup_lt_is_Some_2 revs (Z.to_nat j)) as [rev Hrev]; [lia|].
  exists rev. split; [now apply list_elem_of_lookup_2 in Hrev|].
  rewrite <- (date_at_lookup _ _ _ Hrev). f_equal. lia.
Qed.

(** X12: [lysp_sort_revisions] changes nothing where there is nothing to do:
    NULL stays NULL, and an array of at most 255 revisions whose index 0
    already holds a largest date comes back as it was. What the function
    returns is such an array, so that a second call changes nothing. *)
Theorem lysp_sort_revisions_idempotent :
  (forall fuel, lysp_sort_revisions fuel None = Some None)
  /\ (forall (revs : list lysp_revision) fuel,
        (length revs <= 255)%nat -> (length revs <= fuel)%nat -> (0 < fuel)%nat ->
        (forall j, 0 <= j < LY_ARRAY_SIZE revs ->
                   strcmp (date_at revs j) (date_at revs 0) <= 0) ->
        lysp_sort_revisions fuel (Some revs) = Some (Some revs))
  /\ (forall (revs : list lysp_revision) fuel sorted,
        (length revs <= 255)%nat -> (length revs <= fuel)%nat ->
        lysp_sort_revisions fuel (Some revs) = Some sorted ->
        lysp_sort_revisions fuel sorted = Some sorted).
Proof.
  split; [reflexivity|split; [exact lysp_sort_revisions_sorted|]].
  intros revs fuel sorted Hlen Hfuel Hsort.
  destruct fuel as [|fuel']; [discriminate Hsort|]. set (fuel := S fuel') in *.
  destruct revs as [|rev0 revs'].
  { cbn in Hsort. injection Hsort as <-. reflexivity. }
  set (revs := rev0 :: revs') in *.
  unfold lysp_sort_revisions in Hsort.
  destruct (sort_scan_first_max revs fuel 1 0) as (r & Hscan & Hr & Hmax & _);
    unfold LY_ARRAY_SIZE in *; try (subst revs fuel; cbn [length] in *; lia).
  { intros j Hj. replace j with 0 by lia. rewrite strcmp_refl. lia. }
  rewrite Hscan in Hsort. injection Hsort as <-.
  destruct (lookup_lt_is_Some_2 revs (Z.to_nat r)) as [newest Hnew]; [lia|].
  assert ((if negb (r =? 0) then swap_with_first revs (Z.to_nat r) else revs)
          = swap_with_first revs (Z.to_nat r)) as ->.
  { destruct (Z.eqb_spec r 0) as [->|Hr0]; cbn [negb]; [|reflexivity].
    now rewrite swap_with_first_0. }
  pose proof (swap_with_first_perm revs (Z.to_nat r)) as Hperm.
  pose proof (swap_with_first_head revs _ _ Hnew) as Hhead.
  apply lysp_sort_revisions_sorted.
  - rewrite Hperm. exact Hlen.
  - rewrite Hperm. exact Hfuel.
  - subst fuel. lia.
  - intros j Hj.
    assert (date_at (swap_with_first revs (Z.to_nat r)) 0 = date newest) as ->
        by exact (date_at_lookup _ _ _ Hhead).
    destruct (date_at_elem_of _ _ Hj) as (rev & Hin & ->).
    rewrite Hperm in Hin. apply list_elem_of_lookup in Hin as [k Hk].
    pose proof (lookup_lt_Some _ _ _ Hk).
    rewrite <- (date_at_lookup _ _ _ Hk).
    rewrite <- (date_at_lookup _ _ _ Hnew), Z2Nat.id by lia.
    apply Hmax. lia.
Qed.

Lemma lysp_sort_revisions_idempotent_witness :
  lysp_sort_revisions 2 (Some [mk_rev "2019-01-01" "" ""; mk_rev "2018-01-01" "" ""])
  = Some (Some [mk_rev "2019-01-01" "" ""; mk_rev "2018-01-01" "" ""])
  /\ lysp_sort_revisions 2 (Some [mk_rev "2019-01-01" "" ""; mk_rev "2018-01-01" "" ""])
     = Some (Some [mk_rev "2019-01-01" "" ""; mk_rev "2018-01-01" "" ""]).
Proof.
  split.
  - apply (proj1 (proj2 lysp_sort_revisions_idempotent)); [simpl; lia..|].
    intros j Hj. unfold LY_ARRAY_SIZE in Hj. cbn [length] in Hj.
    assert (j = 0 \/ j = 1) as [-> | ->] by lia; vm_compute; discriminate.
  - apply (proj2 (proj2 lysp_sort_revisions_idempotent)
             [mk_rev "2018-01-01" "" ""; mk_rev "2019-01-01" "" ""] 2%nat);
      [simpl; lia..|reflexivity].
Defined.

End RevisionsFacts.

(** ** Validated dates and the order of revisions *)

Module ChronologyFacts.
Import Date Revisions CStrFacts DateFacts RevisionsFacts.

Lemma canonical_fields_shape s f :
  canonical_fields s = Some f ->
  exists y1 y2 y3 y4 h1 m1 m2 h2 d1 d2,
    s = String y1 (String y2 (String y3 (String y4 (String h1
          (String m1 (String m2 (String h2 (String d1 (String d2 EmptyString)))))))))
    /\ isdigit y1 = true /\ isdigit y2 = true /\ isdigit y3 = true
    /\ isdigit y4 = true /\ code h1 = 45
    /\ isdigit m1 = true /\ isdigit m2 = true /\ code h2 = 45
    /\ isdigit d1 = true /\ isdigit d2 = true
    /\ f = (1000 * digit y1 + 100 * digit y2 + 10 * digit y3 + digit y4,
            10 * digit m1 + digit m2, 10 * digit d1 + digit d2).
Proof.
  destruct s as [|y1 [|y2 [|y3 [|y4 [|h1 [|m1 [|m2 [|h2 [|d1 [|d2 [|e rest]]]]]]]]]]];
    cbn [canonical_fields]; try discriminate.
  intros H. exists y1, y2, y3, y4, h1, m1, m2, h2, d1, d2.
  split_byte_tests H; try discriminate H.
  injection H as <-.
  repeat match goal with
         | E : (code _ =? code "-"%char) = true |- _ =>
           apply Z.eqb_eq in E; change (code "-"%char) with 45 in E
         end.
  repeat split; assumption.
Qed.

(** On two values in canonical form the byte-wise comparison is the
    order of the calendar. *)
Lemma strcmp_canonical s1 s2 f1 f2 :
  canonical_fields s1 = Some f1 -> canonical_fields s2 = Some f2 ->
  (strcmp s1 s2 < 0 <-> earlier f1 f2) /\ (strcmp s1 s2 > 0 <-> earlier f2 f1).
Proof.
  intros H1 H2.
  destruct (canonical_fields_shape _ _ H1)
    as (a1 & a2 & a3 & a4 & a5 & a6 & a7 & a8 & a9 & a10 & -> &
        A1 & A2 & A3 & A4 & A5 & A6 & A7 & A8 & A9 & A10 & ->).
  destruct (canonical_fields_shape _ _ H2)
    as (b1 & b2 & b3 & b4 & b5 & b6 & b7 & b8 & b9 & b10 & -> &
        B1 & B2 & B3 & B4 & B5 & B6 & B7 & B8 & B9 & B10 & ->).
  clear H1 H2. unfold earlier, digit.
  unfold isdigit in *.
  cbn [strcmp peek next]. change (code NUL) with 0.
  repeat match goal with
         | |- context [code ?a =? code ?b] =>
           destruct (Z.eqb_spec (code a) (code b)); cbn [negb]; [|lia]
         | |- context [code ?a =? 0] =>
           destruct (Z.eqb_spec (code a) 0); [lia|]
         end.
  lia.
Qed.

Lemma accepted_canonical tz s :
  lysp_check_date tz (Some s) (Z.of_nat (String.length s)) = LY_SUCCESS ->
  exists f, canonical_fields s = Some f.
Proof.
  intros H. apply lysp_check_date_format in H as [Hl [f Hf]].
  replace 10%nat with (String.length s) in Hf by lia.
  rewrite substring_whole in Hf. now exists f.
Qed.

(** X13: validation and sorting fit together. On the dates that
    [lysp_check_date] accepts, the byte-wise comparison that
    [lysp_sort_revisions] makes is the order of the calendar; so for an
    array of 1 to 255 revisions whose dates were all accepted (in
    whatever time zone), the revision the sort puts at index 0 is one of
    the latest day: no other revision of the array is dated later. *)
Theorem lysp_sort_revisions_chronological tz (revs : list lysp_revision) :
  (0 < length revs <= 255)%nat ->
  (forall rev, rev ∈ revs ->
     lysp_check_date tz (Some (date rev)) (Z.of_nat (String.length (date rev)))
     = LY_SUCCESS) ->
  exists newest rest fn,
    lysp_sort_revisions (length revs) (Some revs) = Some (Some (newest :: rest))
    /\ newest :: rest ≡ₚ revs
    /\ canonical_fields (date newest) = Some fn
    /\ forall rev f, rev ∈ revs -> canonical_fields (date rev) = Some f -> ~ earlier fn f.
Proof.
  intros Hlen Hvalid.
  destruct (lysp_sort_revisions_small revs Hlen) as (newest & rest & Hsort & Hperm & Hmax).
  assert (newest ∈ revs) as Hin by (rewrite <- Hperm; apply list_elem_of_here).
  destruct (accepted_canonical tz _ (Hvalid _ Hin)) as [fn Hfn].
  exists newest, rest, fn. repeat split; try assumption.
  intros rev f Hrev Hf Hearlier.
  apply (strcmp_canonical _ _ _ _ Hf Hfn) in Hearlier.
  specialize (Hmax rev Hrev). lia.
Qed.

Lemma lysp_sort_revisions_chronological_witness :
  exists newest rest fn,
    lysp_sort_revisions
      (length [mk_rev "2018-12-31" "" ""; mk_rev "2019-01-01" "" ""])
      (Some [mk_rev "2018-12-31" "" ""; mk_rev "2019-01-01" "" ""])
    = Some (Some (newest :: rest))
    /\ newest :: rest ≡ₚ [mk_rev "2018-12-31" "" ""; mk_rev "2019-01-01" "" ""]
    /\ canonical_fields (date newest) = Some fn
    /\ forall rev f,
         rev ∈ [mk_rev "2018-12-31" "" ""; mk_rev "2019-01-01" "" ""] ->
         canonical_fields (date rev) = Some f -> ~ earlier fn f.
Proof.
  apply (lysp_sort_revisions_chronological
           utc [mk_rev "2018-12-31" "" ""; mk_rev "2019-01-01" "" ""]).
  - simpl. lia.
  - intros rev Hrev.
    apply elem_of_cons in Hrev as [->|Hrev]; [reflexivity|].
    apply elem_of_cons in Hrev as [->|Hrev]; [reflexivity|].
    now apply elem_of_nil in Hrev.
Defined.

End ChronologyFacts.

(** ** Type resolver *)

Module TypesFacts.
Import Schema Types Samples CStrFacts.

Lemma builtin_types_found :
  Forall (fun '(name, tag) =>
            lysp_type_str2builtin name (Z.of_nat (strlen name)) = tag
            /\ strchr_colon name 0 = None /\ tag <> LY_TYPE_UNKNOWN)
         builtin_types.
Proof. repeat constructor; discriminate. Qed.

Lemma strlen_cons c t : code c <> 0 -> strlen (String c t) = S (strlen t).
Proof. intros H. cbn [strlen]. apply Z.eqb_neq in H. now rewrite H. Qed.

Lemma upto_nul_cons c t : code c <> 0 -> upto_nul (String c t) = String c (upto_nul t).
Proof. intros H. cbn [upto_nul]. apply Z.eqb_neq in H. now rewrite H. Qed.

Lemma strlen_0_upto_nul s : strlen s = 0%nat -> upto_nul s = EmptyString.
Proof.
  destruct s as [|c t]; [reflexivity|]. cbn [strlen upto_nul].
  destruct (code c =? 0); [reflexivity|discriminate].
Qed.

Lemma append_cons c s t : String c s +:+ t = String c (s +:+ t).
Proof. reflexivity. Qed.

Lemma append_nil t : EmptyString +:+ t = t.
Proof. reflexivity. Qed.

Lemma peek_is_inv s ch :
  (code (peek s) =? code ch) = true -> code ch <> 0 -> exists t, s = String ch t.
Proof.
  intros H Hch. apply Z.eqb_eq in H. destruct s as [|c t]; cbn [peek] in H.
  - change (code NUL) with 0 in H. congruence.
  - apply code_inj in H. subst c. now exists t.
Qed.

Lemma strncmp_is_inv s lit :
  (strncmp s lit (String.length lit) =? 0) = true -> no_nul lit ->
  exists rest, s = lit +:+ rest.
Proof. intros H Hn. apply Z.eqb_eq in H. now apply strncmp_literal. Qed.

(** Turns the byte tests that hold of a name into the shape of the name. *)
Ltac name_shape :=
  repeat match goal with
         | H : (_ && _) = true |- _ => apply andb_prop in H; destruct H
         | H : (code (peek ?s) =? code ?ch) = true |- _ =>
           let t := fresh "t" in
           destruct (peek_is_inv s ch H ltac:(vm_compute; discriminate)) as [t ->];
           clear H; cbn [peek next char_at advance] in *
         | H : (strncmp ?s ?lit ?n =? 0) = true |- _ =>
           let t := fresh "t" in
           destruct (strncmp_is_inv s lit H ltac:(reflexivity)) as [t ->];
           clear H; cbn [String.append] in *
         end.

(** Only the names of the table are taken for built-in types. *)
Lemma lysp_type_str2builtin_inv name tag :
  lysp_type_str2builtin name (Z.of_nat (strlen name)) = tag ->
  tag <> LY_TYPE_UNKNOWN ->
  In (upto_nul name, tag) builtin_types.
Proof.
  unfold lysp_type_str2builtin, at_is, tail_is. cbn [char_at advance].
  intros H Hu.
  repeat match type of H with
         | (if ?c then _ else _) = _ =>
           let E := fresh "E" in destruct c eqn:E; try (subst tag; congruence)
         end;
    subst tag; name_shape.
  all: repeat match goal with
              | H : (Z.of_nat _ =? _) = true |- _ => apply Z.eqb_eq in H
              end.
  all: rewrite ?append_cons, ?append_nil in *.
  all: rewrite ?strlen_cons in * by (vm_compute; discriminate).
  all: match goal with
       | H : Z.of_nat _ = _ |- _ =>
         rewrite ?upto_nul_cons by (vm_compute; discriminate);
         rewrite strlen_0_upto_nul by lia
       end.
  all: cbn; tauto.
Qed.


Lemma find_typedef_app name l1 l2 :
  find_typedef name (l1 ++ l2)%list =
  match find_typedef name l1 with
  | Some tpdf => Some tpdf
  | None => find_typedef name l2
  end.
Proof.
  unfold find_typedef. induction l1 as [|t l1 IH]; cbn [List.find app]; [reflexivity|].
  destruct (strcmp name (tpdf_name t) =? 0); [reflexivity|exact IH].
Qed.

(** The walk up the parent chain finds the first match of the concatenated
    typedef arrays of the chain. *)
Lemma search_parents_chain name node :
  fst <$> search_parents name node =
  find_typedef name (concat (map lysp_node_typedefs (parent_chain node))).
Proof.
  induction node as [nt tds|nt tds p IH] using lysp_node_parent_ind;
    cbn [search_parents parent_chain map concat]; rewrite find_typedef_app;
    unfold lysp_type_match;
    destruct (find_typedef name (lysp_node_typedefs _)); try reflexivity.
  exact IH.
Qed.

Lemma search_includes_concat name includes :
  search_includes name includes =
  find_typedef name
    (concat (map (fun inc => submod_typedefs (inc_submodule inc)) includes)).
Proof.
  induction includes as [|inc rest IH]; cbn [search_includes map concat]; [reflexivity|].
  rewrite find_typedef_app.
  destruct (find_typedef name (submod_typedefs _)); [reflexivity|exact IH].
Qed.

Lemma search_typedefs_order ctx start_node start_module sm found p name :
  ctx_list ctx !! sm = Some found -> mod_parsed found = Some p ->
  typedef_search_result start_node start_module sm p name
    (search_typedefs ctx name start_node start_module sm LY_TYPE_UNKNOWN).
Proof.
  intros Hfound Hp. unfold search_typedefs. rewrite Hfound, Hp.
  unfold typedef_search_result, search_order.
  rewrite !find_typedef_app, <- search_includes_concat.
  destruct start_node as [node|]; [destruct (Nat.eqb sm start_module)|].
  - rewrite <- search_parents_chain.
    destruct (search_parents name node) as [[tpdf n]|]; cbn [fmap option_fmap option_map fst];
      [repeat split|].
    destruct (find_typedef name (p_typedefs p)); [repeat split|].
    destruct (search_includes name (p_includes p)); repeat split.
  - cbn [find_typedef List.find].
    destruct (find_typedef name (p_typedefs p)); [repeat split|].
    destruct (search_includes name (p_includes p)); repeat split.
  - cbn [find_typedef List.find].
    destruct (find_typedef name (p_typedefs p)); [repeat split|].
    destruct (search_includes name (p_includes p)); repeat split.
Qed.

Lemma lysp_module_find_prefix_parsed ctx modp prefix len sm :
  lysp_module_find_prefix ctx modp prefix len = Some sm ->
  exists found p, ctx_list ctx !! sm = Some found /\ mod_parsed found = Some p.
Proof.
  unfold lysp_module_find_prefix.
  destruct (ctx_list ctx !! modp) as [owner|]; [|discriminate].
  destruct (mod_parsed owner) as [parsed|]; [|discriminate].
  destruct (FIND_MODULE _ _ _ _ _) as [m|]; [|discriminate].
  destruct (ctx_list ctx !! m) as [found|] eqn:Hf; [|discriminate].
  destruct (mod_parsed found) as [p|] eqn:Hp; [|discriminate].
  intros [= <-]. eauto.
Qed.

(** C6 (with the 19 built-in names the code knows): an unprefixed built-in
    name yields its tag, no typedef and no look at any typedef array; a
    prefixed name never yields a built-in tag and an unknown prefix is
    not-found; every other name is searched in the lexical parent chain
    (only for the starting module, and when a starting node is given),
    then in the top-level typedefs of the search module, then in those of
    each included submodule, the first match wins and a miss is
    not-found. *)
Theorem lysp_type_find_resolution :
  (forall name tag, In (name, tag) builtin_types ->
     forall ctx start_node start_module,
       lysp_type_find ctx name start_node start_module =
       mk_found LY_SUCCESS tag None None (Some start_module))
  /\ length builtin_types = 19%nat
  /\ (forall ctx id start_node start_module off,
        strchr_colon id 0 = Some off ->
        tf_type (lysp_type_find ctx id start_node start_module) = LY_TYPE_UNKNOWN
        /\ (lysp_module_find_prefix ctx start_module id off = None ->
            tf_ret (lysp_type_find ctx id start_node start_module) = LY_ENOTFOUND)
        /\ (forall sm,
              lysp_module_find_prefix ctx start_module id off = Some sm ->
              exists found p,
                ctx_list ctx !! sm = Some found /\ mod_parsed found = Some p /\
                typedef_search_result start_node start_module sm p (advance id (S off))
                  (lysp_type_find ctx id start_node start_module)))
  /\ (forall ctx id start_node start_module found p,
        strchr_colon id 0 = None ->
        ~ In (upto_nul id) (map fst builtin_types) ->
        ctx_list ctx !! start_module = Some found -> mod_parsed found = Some p ->
        typedef_search_result start_node start_module start_module p id
          (lysp_type_find ctx id start_node start_module)).
Proof.
  split; [|split; [reflexivity|split]].
  - intros name tag Hin ctx start_node start_module.
    cbn [In builtin_types] in Hin.
    repeat destruct Hin as [[= <- <-]|Hin]; try reflexivity. destruct Hin.
  - intros ctx id start_node start_module off Hcolon.
    unfold lysp_type_find. rewrite Hcolon.
    destruct (lysp_module_find_prefix ctx start_module id off) as [sm|] eqn:Hpre.
    + destruct (lysp_module_find_prefix_parsed _ _ _ _ _ Hpre) as (found & p & Hf & Hp).
      pose proof (search_typedefs_order ctx start_node start_module sm found p
                    (advance id (S off)) Hf Hp) as Hs.
      split; [apply Hs|]. split; [discriminate|].
      intros sm' [= <-]. eauto.
    + split; [reflexivity|]. split; [reflexivity|discriminate].
  - intros ctx id start_node start_module found p Hcolon Hnb Hf Hp.
    unfold lysp_type_find. rewrite Hcolon. cbv zeta.
    destruct (decide (lysp_type_str2builtin id (Z.of_nat (strlen id)) = LY_TYPE_UNKNOWN))
      as [->|Hne]; [now apply search_typedefs_order with (found := found)|].
    exfalso. apply Hnb.
    exact (in_map fst _ _ (lysp_type_str2builtin_inv id _ eq_refl Hne)).
Qed.

(** *** The count of built-in names; the resolver on a sample *)

(** No 20 different names are taken for built-in types: the code knows 19. *)
Lemma builtin_names_are_not_20 :
  ~ exists names : list string,
      NoDup names /\ length names = 20%nat /\
      Forall (fun n => no_nul n /\
                       lysp_type_str2builtin n (Z.of_nat (strlen n)) <> LY_TYPE_UNKNOWN)
             names.
Proof.
  intros (names & Hnd & Hlen & Hall).
  assert (names ⊆+ map fst builtin_types) as Hsub.
  { apply NoDup_submseteq; [exact Hnd|]. intros n Hn.
    rewrite Forall_forall in Hall. destruct (Hall n Hn) as [Hnn Hb].
    apply list_elem_of_In. rewrite <- Hnn.
    exact (in_map fst _ _ (lysp_type_str2builtin_inv n _ eq_refl Hb)). }
  apply submseteq_length in Hsub. rewrite Hlen in Hsub. cbn in Hsub. lia.
Qed.

(** The typedef T asked for at leaf x of module m: the container around
    the leaf defines it, and that definition wins over the top-level one
    and the submodule's. *)
Lemma lysp_type_find_resolution_witness :
  typedef_search_result (Some leaf_x) 0%nat 0%nat parsed_m "T"
    (lysp_type_find ctx_m "T" (Some leaf_x) 0%nat)
  /\ tf_tpdf (lysp_type_find ctx_m "T" (Some leaf_x) 0%nat) = Some tpdf_T
  /\ tf_tpdf (lysp_type_find ctx_m "U" (Some leaf_x) 0%nat) = Some tpdf_U_sub
  /\ tf_tpdf (lysp_type_find ctx_m "m:T" (Some leaf_x) 0%nat) = Some tpdf_T.
Proof.
  split; [|repeat split].
  apply (proj2 (proj2 (proj2 lysp_type_find_resolution))
           ctx_m "T" (Some leaf_x) 0%nat module_m parsed_m);
    [reflexivity| |reflexivity|reflexivity].
  cbn. intuition discriminate.
Defined.

(** *** Typedef collision checker *)

(** The loop over the parents is passed only by a node without parent: with
    a parent that does not define the name it never ends. *)
Lemma check_parents_passes fuel name node :
  check_parents fuel name node = Some false <-> (0 < fuel)%nat /\ parent node = None.
Proof.
  induction fuel as [|fuel IH]; cbn [check_parents]; [split; [discriminate|lia]|].
  destruct (parent node) as [p|].
  - destruct (lysp_type_match name p).
    + split; [discriminate|intros [_ H]; discriminate H].
    + rewrite IH. split; intros [_ H]; discriminate H.
  - split; [split; [lia|reflexivity]|reflexivity].
Qed.

(** C1 (as the code has it): a scoped typedef whose name passed the
    built-in, sibling and ancestor checks is entered into the scoped set,
    and the check then fails with LY_EEXIST exactly when the name is
    present in the set of top-level names; a name that is not among the
    top-level names passes. *)
Theorem lysp_check_typedef_scoped fuel n pos tpdf (tpdfs_global tpdfs_scoped : gset string) :
  lysp_type_str2builtin (tpdf_name tpdf) (Z.of_nat (strlen (tpdf_name tpdf)))
    = LY_TYPE_UNKNOWN ->
  check_siblings (tpdf_name tpdf) (lysp_node_typedefs n) 0 pos = false ->
  check_parents fuel (tpdf_name tpdf) n = Some false ->
  lysp_check_typedef fuel (Some n) pos tpdf tpdfs_global tpdfs_scoped =
  Some (if decide (tpdf_name tpdf ∈ tpdfs_global) then LY_EEXIST else LY_SUCCESS,
        tpdfs_global, {[tpdf_name tpdf]} ∪ tpdfs_scoped).
Proof.
  intros Hb Hs Hp. unfold lysp_check_typedef. rewrite Hb, Hs, Hp.
  destruct (decide (LY_TYPE_UNKNOWN = LY_TYPE_UNKNOWN)) as [_|Hne]; [|congruence].
  assert (snd (lyht_insert tpdfs_scoped (tpdf_name tpdf))
          = {[tpdf_name tpdf]} ∪ tpdfs_scoped) as ->.
  { unfold lyht_insert. destruct (decide (tpdf_name tpdf ∈ tpdfs_scoped)); cbn [snd];
      [|reflexivity].
    symmetry. now apply subseteq_union_1_L, singleton_subseteq_l. }
  unfold lyht_find. destruct (decide (tpdf_name tpdf ∈ tpdfs_global)); reflexivity.
Qed.

Lemma lysp_check_typedef_scoped_witness :
  lysp_check_typedef 1 (Some container_c) 0 tpdf_T {["T"]} ∅ =
  Some (if decide ("T" ∈ ({["T"]} : gset string)) then LY_EEXIST else LY_SUCCESS,
        {["T"]}, {["T"]} ∪ ∅).
Proof.
  apply (lysp_check_typedef_scoped 1 container_c 0 tpdf_T {["T"]} ∅); reflexivity.
Defined.

(** The scoped typedef T of a container: with T among the top-level names
    the check reports the collision, with no top-level T it passes. *)
Lemma lysp_check_typedef_scoped_collides_when_global :
  "T" ∈ ({["T"]} : gset string)
  /\ (fst <$> (fst <$> lysp_check_typedef 1 (Some container_c) 0 tpdf_T {["T"]} ∅))
     = Some LY_EEXIST
  /\ ("T" ∉ (∅ : gset string))
  /\ (fst <$> (fst <$> lysp_check_typedef 1 (Some container_c) 0 tpdf_T ∅ ∅))
     = Some LY_SUCCESS.
Proof.
  split; [now apply elem_of_singleton|]. split; [vm_compute; reflexivity|].
  split; [apply not_elem_of_empty|vm_compute; reflexivity].
Qed.

(** *** Built-in names, typedef collisions and the node of a typedef *)

(** A string that C reads as a NUL-free literal is the literal, possibly
    followed by a NUL and bytes that are never looked at. *)
Lemma upto_nul_literal lit : no_nul lit -> forall name,
  upto_nul name = lit ->
  name = lit \/ exists rest, name = lit +:+ String NUL rest.
Proof.
  unfold no_nul. induction lit as [|c lit IH]; intros Hn name Hname.
  - destruct name as [|d name]; [now left|right].
    cbn [upto_nul] in Hname. destruct (Z.eqb_spec (code d) 0) as [Hd|Hd]; [|discriminate].
    exists name. rewrite append_nil. f_equal. now apply code_inj.
  - cbn [upto_nul] in Hn. destruct (code c =? 0) eqn:Hc; [discriminate|].
    injection Hn as Hn.
    destruct name as [|d name]; [discriminate|]. cbn [upto_nul] in Hname.
    destruct (code d =? 0); [discriminate|]. injection Hname as -> Hname.
    destruct (IH Hn name Hname) as [->|[rest ->]]; [now left|right].
    exists rest. now rewrite append_cons.
Qed.

Lemma builtin_names_taken name tag :
  In (upto_nul name, tag) builtin_types ->
  lysp_type_str2builtin name (Z.of_nat (strlen name)) = tag.
Proof.
  intros Hin. cbn [In builtin_types] in Hin.
  repeat destruct Hin as [[= Hname <-]|Hin]; try destruct Hin.
  all: symmetry in Hname;
    match type of Hname with
    | upto_nul _ = ?lit =>
      destruct (upto_nul_literal lit eq_refl _ Hname) as [->|[rest ->]]
    end; reflexivity.
Qed.

(** X14: [lysp_type_str2builtin], called with the length of the name as
    [lysp_type_find] and [lysp_check_typedef] call it, answers a built-in
    tag exactly for the 19 names of the table: each of them gets its own
    tag, and every other name is LY_TYPE_UNKNOWN. Called with a length
    that ends the name early, it looks at that many bytes only: a
    built-in name is recognised whatever follows it. *)
Theorem lysp_type_str2builtin_exact :
  (forall name tag,
      tag <> LY_TYPE_UNKNOWN ->
      lysp_type_str2builtin name (Z.of_nat (strlen name)) = tag
      <-> In (upto_nul name, tag) builtin_types)
  /\ (forall lit tag rest,
        In (lit, tag) builtin_types ->
        lysp_type_str2builtin (lit +:+ rest) (Z.of_nat (String.length lit)) = tag).
Proof.
  split.
  - intros name tag Htag. split.
    + intros H. now apply lysp_type_str2builtin_inv.
    + apply builtin_names_taken.
  - intros lit tag rest Hin. cbn [In builtin_types] in Hin.
    repeat destruct Hin as [[= <- <-]|Hin]; try destruct Hin; reflexivity.
Qed.

Lemma lysp_type_str2builtin_exact_witness :
  (lysp_type_str2builtin "uint16" (Z.of_nat (strlen "uint16")) = LY_TYPE_UINT16
   <-> In (upto_nul "uint16", LY_TYPE_UINT16) builtin_types)
  /\ lysp_type_str2builtin ("int8" +:+ "x") (Z.of_nat (String.length "int8")) = LY_TYPE_INT8.
Proof.
  split.
  - apply (proj1 lysp_type_str2builtin_exact). discriminate.
  - apply (proj2 lysp_type_str2builtin_exact). cbn. tauto.
Defined.

(** *** Typedef collisions *)

Lemma not_builtin_unknown name :
  ~ builtin_name name ->
  lysp_type_str2builtin name (Z.of_nat (strlen name)) = LY_TYPE_UNKNOWN.
Proof.
  intros Hnb.
  destruct (decide (lysp_type_str2builtin name (Z.of_nat (strlen name)) = LY_TYPE_UNKNOWN))
    as [H|H]; [exact H|exfalso].
  apply Hnb. exact (in_map fst _ _ (lysp_type_str2builtin_inv name _ eq_refl H)).
Qed.

Lemma builtin_not_unknown name :
  builtin_name name ->
  lysp_type_str2builtin name (Z.of_nat (strlen name)) <> LY_TYPE_UNKNOWN.
Proof.
  intros Hin. apply in_map_iff in Hin as ([lit tag] & Hlit & Hin). cbn [fst] in Hlit.
  subst lit. rewrite (builtin_names_taken _ _ Hin).
  pose proof builtin_types_found as Hall. rewrite Forall_forall in Hall.
  apply list_elem_of_In in Hin. apply Hall in Hin. cbv beta iota in Hin. tauto.
Qed.

Lemma lysp_check_typedef_builtin fuel node pos tpdf (g s : gset string) :
  builtin_name (tpdf_name tpdf) ->
  lysp_check_typedef fuel node pos tpdf g s = Some (LY_EEXIST, g, s).
Proof.
  intros Hin. apply builtin_not_unknown in Hin. unfold lysp_check_typedef.
  destruct (decide _) as [H|H]; [contradiction|reflexivity].
Qed.

(** X16: a typedef that carries the name of a built-in type is refused
    with LY_EEXIST wherever it is defined, at the top level or inside any
    node, before any other check: both tables stay as they were and the
    loop over the parents is not entered. *)
Theorem lysp_check_typedef_builtin_name fuel node pos tpdf
        (tpdfs_global tpdfs_scoped : gset string) :
  builtin_name (tpdf_name tpdf) ->
  lysp_check_typedef fuel node pos tpdf tpdfs_global tpdfs_scoped =
  Some (LY_EEXIST, tpdfs_global, tpdfs_scoped).
Proof.
  exact (lysp_check_typedef_builtin fuel node pos tpdf tpdfs_global tpdfs_scoped).
Qed.

Lemma lysp_check_typedef_builtin_name_witness :
  lysp_check_typedef 0 (Some leaf_x) 0 (mk_tpdf "string" "uint8") ∅ ∅ =
  Some (LY_EEXIST, ∅, ∅).
Proof.
  apply (lysp_check_typedef_builtin_name 0 (Some leaf_x) 0 (mk_tpdf "string" "uint8") ∅ ∅).
  cbn. tauto.
Defined.

(** The check of a top-level typedef. *)
Lemma lysp_check_typedef_top fuel pos tpdf (g s : gset string) :
  ~ builtin_name (tpdf_name tpdf) ->
  lysp_check_typedef fuel None pos tpdf g s =
  Some (if decide (tpdf_name tpdf ∈ g) then (LY_EEXIST, g, s)
        else (LY_SUCCESS, {[tpdf_name tpdf]} ∪ g, s)).
Proof.
  intros Hnb. apply not_builtin_unknown in Hnb. unfold lysp_check_typedef.
  rewrite Hnb. destruct (decide (LY_TYPE_UNKNOWN = LY_TYPE_UNKNOWN)) as [_|H]; [|congruence].
  unfold lyht_insert. destruct (decide (tpdf_name tpdf ∈ g)); reflexivity.
Qed.

(** X17: inside a node that has a parent, the loop over the parents looks
    at the parent of the node again and again: it ends (with LY_EEXIST)
    only when that parent defines a typedef of the same name; with any
    other parent the check never returns, whatever the number of
    iterations granted, and no ancestor above the parent is ever looked
    at. *)
Theorem lysp_check_typedef_parent_loop node p pos tpdf
        (tpdfs_global tpdfs_scoped : gset string) :
  ~ builtin_name (tpdf_name tpdf) ->
  check_siblings (tpdf_name tpdf) (lysp_node_typedefs node) 0 pos = false ->
  parent node = Some p ->
  (lysp_type_match (tpdf_name tpdf) p <> None ->
   forall fuel, (0 < fuel)%nat ->
     lysp_check_typedef fuel (Some node) pos tpdf tpdfs_global tpdfs_scoped =
     Some (LY_EEXIST, tpdfs_global, tpdfs_scoped))
  /\ (lysp_type_match (tpdf_name tpdf) p = None ->
      forall fuel,
        lysp_check_typedef fuel (Some node) pos tpdf tpdfs_global tpdfs_scoped = None).
Proof.
  intros Hnb Hsib Hp. apply not_builtin_unknown in Hnb.
  unfold lysp_check_typedef. rewrite Hnb, Hsib.
  destruct (decide (LY_TYPE_UNKNOWN = LY_TYPE_UNKNOWN)) as [_|H]; [|congruence].
  split.
  - intros Hm fuel Hfuel. destruct fuel as [|fuel]; [lia|].
    cbn [check_parents]. rewrite Hp.
    destruct (lysp_type_match (tpdf_name tpdf) p); [reflexivity|congruence].
  - intros Hm fuel.
    assert (check_parents fuel (tpdf_name tpdf) node = None) as ->; [|reflexivity].
    induction fuel as [|fuel IH]; cbn [check_parents]; [reflexivity|].
    now rewrite Hp, Hm.
Qed.

(** The list below the container c (which defines T only): the check of
    its typedef U is never finished, its typedef T collides with the one
    of the container. *)
Lemma lysp_check_typedef_parent_loop_witness :
  (forall fuel, (0 < fuel)%nat ->
     lysp_check_typedef fuel (Some list_inner) 1 (mk_tpdf "T" "int8") ∅ ∅ =
     Some (LY_EEXIST, ∅, ∅))
  /\ (forall fuel,
        lysp_check_typedef fuel (Some list_inner) 0 (mk_tpdf "U" "int8") ∅ ∅ = None).
Proof.
  split.
  - apply (proj1 (lysp_check_typedef_parent_loop list_inner container_c 1
                    (mk_tpdf "T" "int8") ∅ ∅
                    ltac:(cbn; intuition discriminate) eq_refl eq_refl)).
    discriminate.
  - apply (proj2 (lysp_check_typedef_parent_loop list_inner container_c 0
                    (mk_tpdf "U" "int8") ∅ ∅
                    ltac:(cbn; intuition discriminate) eq_refl eq_refl)).
    reflexivity.
Defined.

(** *** The driver *)

Lemma fresh_names_cons g n names :
  fresh_names g (n :: names)
  <-> ((n ∉ g) /\ ~ builtin_name n) /\ fresh_names ({[n]} ∪ g) names.
Proof.
  unfold fresh_names. rewrite NoDup_cons, Forall_cons.
  split.
  - intros [[Hn Hnd] [Hng Hall]]. split; [exact Hng|]. split; [exact Hnd|].
    rewrite Forall_forall in Hall |- *. intros x Hx. destruct (Hall x Hx) as [Hxg Hxb].
    split; [|exact Hxb]. rewrite elem_of_union, elem_of_singleton.
    intros [->|H]; contradiction.
  - intros [Hng [Hnd Hall]]. rewrite Forall_forall in Hall.
    split; [split; [|exact Hnd]|split; [exact Hng|]].
    + intros Hin. destruct (Hall n Hin) as [H _]. apply H.
      apply elem_of_union_l. now apply elem_of_singleton.
    + rewrite Forall_forall. intros x Hx. destruct (Hall x Hx) as [Hxg Hxb].
      split; [|exact Hxb]. intros H. apply Hxg. now apply elem_of_union_r.
Qed.

(** The loop over an array of top-level typedefs enters the names into the
    table as long as they are fresh. *)
Lemma check_typedef_array_top fuel tpdfs : forall pos (g s : gset string),
  exists err g',
    check_typedef_array fuel None tpdfs pos g s = Some (err, g', s)
    /\ ((err = LY_SUCCESS /\ g' = list_to_set (map tpdf_name tpdfs) ∪ g
         /\ fresh_names g (map tpdf_name tpdfs))
        \/ (err = LY_EEXIST /\ ~ fresh_names g (map tpdf_name tpdfs))).
Proof.
  induction tpdfs as [|t tpdfs IH]; intros pos g s; cbn [check_typedef_array map].
  - exists LY_SUCCESS, g. split; [reflexivity|left].
    split; [reflexivity|]. split; [|split; constructor].
    cbn [list_to_set]. symmetry. apply (left_id_L ∅ (∪)).
  - destruct (decide (builtin_name (tpdf_name t))) as [Hb|Hb].
    { rewrite lysp_check_typedef_builtin by exact Hb. cbn [ly_failed].
      exists LY_EEXIST, g. split; [reflexivity|right]. split; [reflexivity|].
      rewrite fresh_names_cons. tauto. }
    rewrite lysp_check_typedef_top by exact Hb.
    destruct (decide (tpdf_name t ∈ g)) as [Hg|Hg]; cbn [ly_failed].
    { exists LY_EEXIST, g. split; [reflexivity|right]. split; [reflexivity|].
      rewrite fresh_names_cons. tauto. }
    destruct (IH (S pos) ({[tpdf_name t]} ∪ g) s) as (err & g' & -> & Hcases).
    exists err, g'. split; [reflexivity|].
    destruct Hcases as [(-> & -> & Hf)|(-> & Hf)]; [left|right].
    + split; [reflexivity|]. split; [|rewrite fresh_names_cons; tauto].
      cbn [list_to_set]. rewrite (assoc_L (∪)).
      f_equal. apply (comm_L (∪)).
    + split; [reflexivity|]. rewrite fresh_names_cons. tauto.
Qed.

Lemma fresh_names_app g l1 l2 :
  fresh_names g (l1 ++ l2)%list
  <-> fresh_names g l1 /\ fresh_names (list_to_set l1 ∪ g) l2.
Proof.
  revert g. induction l1 as [|n l1 IH]; intros g.
  - cbn [app list_to_set]. rewrite (left_id_L ∅ (∪)).
    split; [intros H; split; [split; constructor|exact H]|tauto].
  - cbn [app list_to_set]. rewrite !fresh_names_cons, IH.
    assert (list_to_set l1 ∪ ({[n]} ∪ g) = {[n]} ∪ list_to_set l1 ∪ g) as ->; [|tauto].
    rewrite (assoc_L (∪)). f_equal. apply (comm_L (∪)).
Qed.

Lemma check_include_arrays_top fuel includes : forall (g s : gset string),
  let names :=
    map tpdf_name (concat (map (fun inc => submod_typedefs (inc_submodule inc)) includes)) in
  exists err g',
    check_include_arrays fuel includes g s = Some (err, g', s)
    /\ ((err = LY_SUCCESS /\ g' = list_to_set names ∪ g /\ fresh_names g names)
        \/ (err = LY_EEXIST /\ ~ fresh_names g names)).
Proof.
  induction includes as [|inc includes IH]; intros g s;
    cbn [check_include_arrays map concat]; cbv zeta.
  - exists LY_SUCCESS, g. split; [reflexivity|left].
    split; [reflexivity|]. split; [|split; constructor].
    cbn [list_to_set map]. symmetry. apply (left_id_L ∅ (∪)).
  - rewrite List.map_app. setoid_rewrite fresh_names_app.
    destruct (check_typedef_array_top fuel (submod_typedefs (inc_submodule inc)) 0 g s)
      as (err & g1 & -> & [(-> & -> & Hf)|(-> & Hf)]); cbn [ly_failed].
    + destruct (IH (list_to_set (map tpdf_name (submod_typedefs (inc_submodule inc))) ∪ g) s)
        as (err & g' & -> & Hcases). cbv zeta in Hcases.
      exists err, g'. split; [reflexivity|].
      destruct Hcases as [(-> & -> & Hf2)|(-> & Hf2)]; [left|right; tauto].
      split; [reflexivity|]. split; [|tauto].
      rewrite list_to_set_app_L, (assoc_L (∪)). f_equal. apply (comm_L (∪)).
    + eexists LY_EEXIST, _. split; [reflexivity|right]. tauto.
Qed.

Lemma check_siblings_false name tpdfs : forall u pos,
  check_siblings name tpdfs u pos = false ->
  forall i ti, tpdfs !! i = Some ti -> (u + i < pos)%nat ->
               strcmp name (tpdf_name ti) <> 0.
Proof.
  induction tpdfs as [|t tpdfs IH]; intros u pos Hs i ti Hi Hlt; [discriminate|].
  cbn [check_siblings] in Hs.
  destruct (Nat.eqb_spec u pos) as [->|Hne]; [lia|].
  destruct (Z.eqb_spec (strcmp name (tpdf_name t)) 0) as [He|He]; [discriminate|].
  destruct i as [|i]; [cbn in Hi; injection Hi as <-; exact He|].
  apply (IH (S u) pos Hs i ti Hi). lia.
Qed.

(** What a scoped typedef that passes has been checked against. *)
Lemma lysp_check_typedef_scoped_inv fuel n pos t (g s g' s' : gset string) :
  lysp_check_typedef fuel (Some n) pos t g s = Some (LY_SUCCESS, g', s') ->
  g' = g /\ parent n = None /\ ~ builtin_name (tpdf_name t) /\ (tpdf_name t ∉ g)
  /\ check_siblings (tpdf_name t) (lysp_node_typedefs n) 0 pos = false.
Proof.
  unfold lysp_check_typedef.
  destruct (decide _) as [Hu|Hu]; [|discriminate].
  destruct (check_siblings _ _ _ _) eqn:Hs; [discriminate|].
  destruct (check_parents fuel (tpdf_name t) n) as [[|]|] eqn:Hp; try discriminate.
  apply check_parents_passes in Hp as [_ Hp].
  unfold lyht_find. destruct (decide (tpdf_name t ∈ g)) as [Hg|Hg]; [discriminate|].
  cbn [Z.eqb]. intros [= <- _]. repeat split; try assumption.
  intros Hb. now apply builtin_not_unknown in Hb.
Qed.

Lemma check_typedef_array_scoped fuel n tpdfs : forall pos (g s g' s' : gset string),
  check_typedef_array fuel (Some n) tpdfs pos g s = Some (LY_SUCCESS, g', s') ->
  g' = g
  /\ forall k t, tpdfs !! k = Some t ->
       parent n = None /\ ~ builtin_name (tpdf_name t) /\ (tpdf_name t ∉ g)
       /\ check_siblings (tpdf_name t) (lysp_node_typedefs n) 0 (pos + k) = false.
Proof.
  induction tpdfs as [|t tpdfs IH]; intros pos g s g' s'; cbn [check_typedef_array].
  - intros [= <- _]. split; [reflexivity|]. intros k t Hk. discriminate Hk.
  - destruct (lysp_check_typedef fuel (Some n) pos t g s) as [[[err g1] s1]|] eqn:Hc;
      [|discriminate].
    destruct err; cbn [ly_failed]; try discriminate.
    apply lysp_check_typedef_scoped_inv in Hc as (-> & Hp & Hb & Hg & Hs).
    intros H. apply IH in H as [-> Hrest]. split; [reflexivity|].
    intros [|k] t' Hk.
    + cbn in Hk. injection Hk as <-. rewrite Nat.add_0_r. auto.
    + cbn in Hk. replace (pos + S k)%nat with (S pos + k)%nat by lia. now apply Hrest.
Qed.

Lemma check_node_arrays_scoped fuel nodes : forall (g s g' s' : gset string),
  check_node_arrays fuel nodes g s = Some (LY_SUCCESS, g', s') ->
  forall node k t, node ∈ nodes -> lysp_node_typedefs node !! k = Some t ->
    parent node = None /\ ~ builtin_name (tpdf_name t) /\ (tpdf_name t ∉ g)
    /\ check_siblings (tpdf_name t) (lysp_node_typedefs node) 0 k = false.
Proof.
  induction nodes as [|n nodes IH]; intros g s g' s' H node k t Hin Hk.
  - now apply elem_of_nil in Hin.
  - cbn [check_node_arrays] in H.
    destruct (check_typedef_array fuel (Some n) (lysp_node_typedefs n) 0 g s)
      as [[[err g1] s1]|] eqn:Hc; [|discriminate].
    destruct err; cbn [ly_failed] in H; try discriminate.
    apply check_typedef_array_scoped in Hc as [-> Hn].
    apply elem_of_cons in Hin as [->|Hin]; [exact (Hn k t Hk)|].
    exact (IH _ _ _ _ H node k t Hin Hk).
Qed.

Lemma fresh_names_empty names :
  fresh_names ∅ names <-> NoDup names /\ Forall (fun n => ~ builtin_name n) names.
Proof.
  unfold fresh_names. rewrite !Forall_forall.
  split; intros [Hnd Hall]; (split; [exact Hnd|]); intros x Hx.
  - now apply Hall.
  - split; [apply not_elem_of_empty|now apply Hall].
Qed.

(** The checks of the top-level typedefs, of the module and of its
    submodules, as one: they pass when the names are fresh and leave the
    names in the table. *)
Lemma check_top_level fuel mod_ :
  (fresh_names ∅ (top_level_names mod_)
   /\ exists g s,
       check_typedef_array fuel None (p_typedefs mod_) 0 ∅ ∅ = Some (LY_SUCCESS, g, s)
       /\ check_include_arrays fuel (p_includes mod_) g s
          = Some (LY_SUCCESS, list_to_set (top_level_names mod_), s))
  \/ (~ fresh_names ∅ (top_level_names mod_)
      /\ forall nodes, lysp_check_typedefs fuel mod_ nodes = Some LY_EVALID).
Proof.
  unfold top_level_names, lysp_check_typedefs. rewrite List.map_app, fresh_names_app.
  destruct (check_typedef_array_top fuel (p_typedefs mod_) 0 ∅ ∅)
    as (err & g1 & H1 & [(-> & -> & Hf)|(-> & Hf)]); rewrite H1; cbn [ly_failed];
    [|right; split; [tauto|reflexivity]].
  destruct (check_include_arrays_top fuel (p_includes mod_)
              (list_to_set (map tpdf_name (p_typedefs mod_)) ∪ ∅) ∅)
    as (err & g2 & H2 & [(-> & -> & Hf2)|(-> & Hf2)]); rewrite H2; cbn [ly_failed];
    [left|right; split; [tauto|reflexivity]].
  split; [tauto|]. eexists _, _. split; [reflexivity|].
  rewrite H2, list_to_set_app_L, (right_id_L ∅ (∪)).
  now rewrite (comm_L (∪) (list_to_set (map tpdf_name (p_typedefs mod_)))).
Qed.

(** X18: the top-level typedefs decide first. When two of the top-level
    typedefs of a module and its submodules carry the same name, or one of
    them the name of a built-in type, [lysp_check_typedefs] fails, and the
    code it returns is LY_EVALID (not the LY_EEXIST of the check that
    failed), whatever typedefs the nodes hold; when the names are distinct
    and none is built-in and no node holds typedefs, it succeeds. *)
Theorem lysp_check_typedefs_top_level fuel mod_ :
  (~ (NoDup (top_level_names mod_)
      /\ Forall (fun n => ~ builtin_name n) (top_level_names mod_)) ->
   forall nodes, lysp_check_typedefs fuel mod_ nodes = Some LY_EVALID)
  /\ (NoDup (top_level_names mod_)
      /\ Forall (fun n => ~ builtin_name n) (top_level_names mod_) ->
      lysp_check_typedefs fuel mod_ [] = Some LY_SUCCESS).
Proof.
  rewrite <- fresh_names_empty.
  destruct (check_top_level fuel mod_) as [(Hf & g & s & H1 & H2)|[Hf H]].
  - split; [tauto|]. intros _. unfold lysp_check_typedefs.
    rewrite H1. cbn [ly_failed]. rewrite H2. reflexivity.
  - split; [intros _; exact H|tauto].
Qed.

(** Scenario S8: the module m and its submodule both define T. *)
Lemma lysp_check_typedefs_top_level_witness :
  (forall nodes, lysp_check_typedefs 0 parsed_m nodes = Some LY_EVALID)
  /\ lysp_check_typedefs 0 parsed_v [] = Some LY_SUCCESS.
Proof.
  split.
  - apply (proj1 (lysp_check_typedefs_top_level 0 parsed_m)).
    intros [Hnd _]. cbn in Hnd. apply NoDup_cons in Hnd as [Hin _].
    apply Hin. now left.
  - apply (proj2 (lysp_check_typedefs_top_level 0 parsed_v)).
    split.
    + apply (bool_decide_unpack _). vm_compute. exact I.
    + cbn. repeat constructor; cbn; intuition discriminate.
Defined.

(** X19: what a successful run of [lysp_check_typedefs] has established
    (invariants 3 and 4 of the data model, as far as the code checks
    them): the top-level typedefs of the module and its submodules carry
    pairwise distinct names, none of a built-in type; every typedef inside
    a node carries a name that is no built-in name, no top-level name and
    not the name of a typedef before it in the same node; and every node
    that holds a typedef is a node without parent, since the loop over the
    parents ends for no other. *)
Theorem lysp_check_typedefs_success fuel mod_ nodes :
  lysp_check_typedefs fuel mod_ nodes = Some LY_SUCCESS ->
  NoDup (top_level_names mod_)
  /\ Forall (fun n => ~ builtin_name n) (top_level_names mod_)
  /\ forall node j tj,
       node ∈ nodes -> lysp_node_typedefs node !! j = Some tj ->
       parent node = None /\ ~ builtin_name (tpdf_name tj)
       /\ (tpdf_name tj ∉ top_level_names mod_)
       /\ forall i ti, (i < j)%nat -> lysp_node_typedefs node !! i = Some ti ->
                       strcmp (tpdf_name tj) (tpdf_name ti) <> 0.
Proof.
  intros Hok.
  destruct (check_top_level fuel mod_) as [(Hf & g & s & H1 & H2)|[_ H]];
    [|rewrite H in Hok; discriminate].
  apply fresh_names_empty in Hf as [Hnd Hnb]. split; [exact Hnd|]. split; [exact Hnb|].
  unfold lysp_check_typedefs in Hok. rewrite H1 in Hok. cbn [ly_failed] in Hok.
  rewrite H2 in Hok. cbn [ly_failed] in Hok.
  destruct (check_node_arrays fuel nodes _ s) as [[[err g'] s']|] eqn:Hn; [|discriminate].
  destruct err; cbn [ly_failed] in Hok; try discriminate.
  intros node j tj Hin Hj.
  destruct (check_node_arrays_scoped _ _ _ _ _ _ Hn node j tj Hin Hj)
    as (Hp & Hb & Hg & Hs).
  split; [exact Hp|]. split; [exact Hb|]. split.
  - intros Ht. apply Hg. now apply elem_of_list_to_set.
  - intros i ti Hlt Hi. apply (check_siblings_false _ _ _ _ Hs i ti Hi). lia.
Qed.

(** The module with the top-level typedef V, its submodule (T and U) and
    the container that defines W and X. *)
Lemma lysp_check_typedefs_success_witness :
  NoDup (top_level_names parsed_v)
  /\ Forall (fun n => ~ builtin_name n) (top_level_names parsed_v)
  /\ forall node j tj,
       node ∈ [container_w] -> lysp_node_typedefs node !! j = Some tj ->
       parent node = None /\ ~ builtin_name (tpdf_name tj)
       /\ (tpdf_name tj ∉ top_level_names parsed_v)
       /\ forall i ti, (i < j)%nat -> lysp_node_typedefs node !! i = Some ti ->
                       strcmp (tpdf_name tj) (tpdf_name ti) <> 0.
Proof.
  apply (lysp_check_typedefs_success 1 parsed_v [container_w]).
  vm_compute. reflexivity.
Defined.

(** *** The node of a typedef *)

Lemma find_typedef_Some name tpdfs tpdf :
  find_typedef name tpdfs = Some tpdf ->
  In tpdf tpdfs /\ strcmp name (tpdf_name tpdf) = 0.
Proof.
  unfold find_typedef. intros H. apply find_some in H as [Hin H].
  split; [exact Hin|]. now apply Z.eqb_eq.
Qed.

(** The walk up the parents stops at the innermost node that defines the
    name. *)
Lemma search_parents_innermost name node : forall tpdf n,
  search_parents name node = Some (tpdf, n) ->
  exists k,
    parent_chain node !! k = Some n /\ lysp_type_match name n = Some tpdf
    /\ forall j m, (j < k)%nat -> parent_chain node !! j = Some m ->
                   lysp_type_match name m = None.
Proof.
  induction node as [nt tds|nt tds p IH] using lysp_node_parent_ind; intros tpdf n;
    cbn [search_parents parent_chain].
  - destruct (lysp_type_match name (mk_node nt tds None)) as [t|] eqn:Hm; [|discriminate].
    intros [= <- <-]. exists 0%nat. split; [reflexivity|]. split; [exact Hm|]. lia.
  - destruct (lysp_type_match name (mk_node nt tds (Some p))) as [t|] eqn:Hm.
    + intros [= <- <-]. exists 0%nat. split; [reflexivity|]. split; [exact Hm|]. lia.
    + intros H. destruct (IH _ _ H) as (k & Hk & Hn & Hmin).
      exists (S k). split; [exact Hk|]. split; [exact Hn|].
      intros [|j] m Hj Hjm.
      * cbn in Hjm. injection Hjm as <-. exact Hm.
      * cbn in Hjm. apply (Hmin j m); [lia|exact Hjm].
Qed.

Lemma search_typedefs_node ctx name start_node start_module m type n :
  tf_node (search_typedefs ctx name start_node start_module m type) = Some n ->
  exists node tpdf,
    start_node = Some node /\ m = start_module
    /\ search_parents name node = Some (tpdf, n)
    /\ search_typedefs ctx name start_node start_module m type
       = mk_found LY_SUCCESS type (Some tpdf) (Some n) (Some m).
Proof.
  unfold search_typedefs.
  destruct start_node as [node|].
  - destruct (Nat.eqb_spec m start_module) as [->|Hne].
    + destruct (search_parents name node) as [[tpdf n']|] eqn:Hs.
      * cbn [tf_node]. intros [= <-]. eauto 10.
      * destruct (match ctx_list ctx !! start_module with Some _ => _ | None => _ end)
          as [p|]; [|discriminate].
        destruct (find_typedef name (p_typedefs p)); [discriminate|].
        destruct (search_includes name (p_includes p)); discriminate.
    + destruct (match ctx_list ctx !! m with Some _ => _ | None => _ end)
        as [p|]; [|discriminate].
      destruct (find_typedef name (p_typedefs p)); [discriminate|].
      destruct (search_includes name (p_includes p)); discriminate.
  - destruct (match ctx_list ctx !! m with Some _ => _ | None => _ end)
      as [p|]; [|discriminate].
    destruct (find_typedef name (p_typedefs p)); [discriminate|].
    destruct (search_includes name (p_includes p)); discriminate.
Qed.

(** X15: the node [lysp_type_find] answers. A node is answered only by a
    successful search that started at a node and ended in the starting
    module: it is then the innermost node of the parent chain of the
    starting node that defines a typedef called like the name searched
    for, and the typedef answered is the first such typedef of that node;
    no built-in tag comes with it. So a built-in type and a failed search
    answer no node. *)
Theorem lysp_type_find_node ctx id start_node start_module n :
  tf_node (lysp_type_find ctx id start_node start_module) = Some n ->
  exists node k tpdf,
    start_node = Some node
    /\ parent_chain node !! k = Some n
    /\ lysp_type_find ctx id start_node start_module
       = mk_found LY_SUCCESS LY_TYPE_UNKNOWN (Some tpdf) (Some n) (Some start_module)
    /\ lysp_type_match (searched_name id) n = Some tpdf
    /\ strcmp (searched_name id) (tpdf_name tpdf) = 0
    /\ forall j m, (j < k)%nat -> parent_chain node !! j = Some m ->
                   lysp_type_match (searched_name id) m = None.
Proof.
  unfold lysp_type_find, searched_name.
  destruct (strchr_colon id 0) as [off|].
  - destruct (lysp_module_find_prefix ctx start_module id off) as [m|]; [|discriminate].
    intros H. apply search_typedefs_node in H as (node & tpdf & -> & -> & Hs & ->).
    destruct (search_parents_innermost _ _ _ _ Hs) as (k & Hk & Hm & Hmin).
    exists node, k, tpdf. repeat split; try assumption.
    unfold lysp_type_match in Hm. now apply find_typedef_Some in Hm.
  - destruct (decide _) as [Hu|Hu]; [|discriminate]. rewrite Hu.
    intros H. apply search_typedefs_node in H as (node & tpdf & -> & _ & Hs & ->).
    destruct (search_parents_innermost _ _ _ _ Hs) as (k & Hk & Hm & Hmin).
    exists node, k, tpdf. repeat split; try assumption.
    unfold lysp_type_match in Hm. now apply find_typedef_Some in Hm.
Qed.

(** The type T asked for at the leaf x of module m: the node answered is
    the container c around the leaf. *)
Lemma lysp_type_find_node_witness :
  exists node k tpdf,
    Some leaf_x = Some node
    /\ parent_chain node !! k = Some container_c
    /\ lysp_type_find ctx_m "T" (Some leaf_x) 0%nat
       = mk_found LY_SUCCESS LY_TYPE_UNKNOWN (Some tpdf) (Some container_c) (Some 0%nat)
    /\ lysp_type_match (searched_name "T") container_c = Some tpdf
    /\ strcmp (searched_name "T") (tpdf_name tpdf) = 0
    /\ forall j m, (j < k)%nat -> parent_chain node !! j = Some m ->
                   lysp_type_match (searched_name "T") m = None.
Proof.
  apply (lysp_type_find_node ctx_m "T" (Some leaf_x) 0%nat container_c). reflexivity.
Defined.

End TypesFacts.

(** ** Prefixes *)

Module PrefixFacts.
Import Schema Samples CStrFacts TypesFacts.

(** The test of FIND_MODULE on a segment of [len] bytes that holds no NUL:
    the bytes have to spell the prefix in full. *)
Lemma prefix_matches_spells seg : no_nul seg -> forall p rest,
  prefix_matches p (seg +:+ rest) (String.length seg) = true <-> upto_nul p = seg.
Proof.
  unfold no_nul, prefix_matches. induction seg as [|c seg IH]; intros Hn p rest.
  - cbn [String.length strncmp char_at]. cbn [Z.eqb andb].
    destruct p as [|d p]; cbn [peek upto_nul]; [split; reflexivity|].
    destruct (code d =? 0); split; (reflexivity || discriminate).
  - cbn [upto_nul] in Hn. destruct (code c =? 0) eqn:Hc; [discriminate|].
    injection Hn as Hn. specialize (IH Hn).
    rewrite append_cons. cbn [String.length char_at]. rewrite strncmp_S. cbn [peek next].
    destruct p as [|d p]; cbn [peek next upto_nul].
    + change (code NUL) with 0. rewrite (Z.eqb_sym 0 (code c)), Hc. cbn [negb].
      apply Z.eqb_neq in Hc.
      split; [|discriminate]. intros [H _]%andb_prop. apply Z.eqb_eq in H. lia.
    + destruct (Z.eqb_spec (code d) (code c)) as [E|E]; cbn [negb].
      * apply code_inj in E. subst d. rewrite Hc. rewrite IH.
        split; [now intros ->|now intros [= ->]].
      * split.
        -- intros [H _]%andb_prop. apply Z.eqb_eq in H. lia.
        -- destruct (code d =? 0); [discriminate|]. intros [= -> _]. congruence.
Qed.

Lemma prefix_matches_decide seg p rest :
  no_nul seg ->
  prefix_matches p (seg +:+ rest) (String.length seg) = bool_decide (upto_nul p = seg).
Proof.
  intros Hn. pose proof (prefix_matches_spells seg Hn p rest) as H.
  destruct (prefix_matches _ _ _); symmetry.
  - apply bool_decide_eq_true_2. now apply H.
  - apply bool_decide_eq_false_2. intros Hp. apply H in Hp. discriminate.
Qed.

Lemma FIND_MODULE_target ctx owner imports seg rest :
  no_nul seg ->
  FIND_MODULE ctx owner imports (seg +:+ rest) (String.length seg)
  = prefix_target ctx owner imports seg.
Proof.
  intros Hn. unfold FIND_MODULE, prefix_target.
  rewrite prefix_matches_decide by exact Hn.
  assert (List.find (fun imp => prefix_matches (imp_prefix imp) (seg +:+ rest)
                                               (String.length seg)) imports
          = List.find (fun imp => bool_decide (upto_nul (imp_prefix imp) = seg)) imports)
    as ->.
  { induction imports as [|imp imports IH]; [reflexivity|]. cbn [List.find].
    rewrite prefix_matches_decide by exact Hn. now rewrite IH. }
  reflexivity.
Qed.

(** X23: the prefix lookup compares whole prefixes. For a segment of
    [len] bytes (none of them NUL) at the start of the data,
    [lys_module_find_prefix] answers the module registered under the name
    and revision of the module itself when the segment is exactly its own
    prefix, and otherwise the module of the first import (of the compiled
    facet when there is one, of the parsed facet otherwise) whose prefix
    is exactly the segment; a segment that is only the beginning of a
    prefix, or goes on after one, selects nothing. *)
Theorem lys_module_find_prefix_whole ctx h owner seg rest :
  no_nul seg -> ctx_list ctx !! h = Some owner ->
  lys_module_find_prefix ctx h (seg +:+ rest) (String.length seg) =
  match mod_compiled owner, mod_parsed owner with
  | Some compiled, _ => prefix_target ctx owner (c_imports compiled) seg
  | None, Some parsed => prefix_target ctx owner (p_imports parsed) seg
  | None, None => None
  end.
Proof.
  intros Hn Hh. unfold lys_module_find_prefix. rewrite Hh.
  destruct (mod_compiled owner) as [c|]; [now apply FIND_MODULE_target|].
  destruct (mod_parsed owner) as [p|]; [now apply FIND_MODULE_target|reflexivity].
Qed.

(** In module b the prefix ax stands for module a; its beginning a
    stands for nothing, and neither does axe. *)
Lemma lys_module_find_prefix_whole_witness :
  lys_module_find_prefix ctx_b 1 "ax:leaf" 2 = Some 0%nat
  /\ lys_module_find_prefix ctx_b 1 "ax:leaf" 1 = None
  /\ lys_module_find_prefix ctx_b 1 "axe:leaf" 3 = None
  /\ lys_module_find_prefix ctx_b 1 "b:leaf" 1 = Some 1%nat.
Proof.
  split; [|split; [|split]].
  - exact (lys_module_find_prefix_whole ctx_b 1%nat module_b "ax" ":leaf" eq_refl eq_refl).
  - exact (lys_module_find_prefix_whole ctx_b 1%nat module_b "a" "x:leaf" eq_refl eq_refl).
  - exact (lys_module_find_prefix_whole ctx_b 1%nat module_b "axe" ":leaf" eq_refl eq_refl).
  - exact (lys_module_find_prefix_whole ctx_b 1%nat module_b "b" ":leaf" eq_refl eq_refl).
Defined.

(** *** The check of a new prefix *)

Lemma prefix_in_use_false imports : forall i0 slot value,
  prefix_in_use imports i0 slot value = false
  <-> forall i imp p,
        imports !! i = Some imp -> pimp_prefix imp = Some p ->
        slot <> Some (i0 + i)%nat -> strcmp p value <> 0.
Proof.
  induction imports as [|imp0 imports IH]; intros i0 slot value; cbn [prefix_in_use].
  - split; [intros _ i imp p Hi; discriminate Hi|reflexivity].
  - destruct (pimp_prefix imp0) as [p0|] eqn:Hp0.
    + destruct (decide (slot = Some i0)) as [Hs|Hs].
      * rewrite bool_decide_eq_true_2 by exact Hs. cbn [negb andb]. rewrite IH.
        split; intros H i imp p Hi Hp Hslot.
        -- destruct i as [|i].
           ++ rewrite Nat.add_0_r in Hslot. contradiction.
           ++ cbn in Hi. apply (H i imp p Hi Hp). now rewrite Nat.add_succ_comm.
        -- apply (H (S i) imp p Hi Hp). now rewrite <- Nat.add_succ_comm.
      * rewrite bool_decide_eq_false_2 by exact Hs. cbn [negb andb].
        destruct (Z.eqb_spec (strcmp p0 value) 0) as [He|He].
        -- split; [discriminate|]. intros H. exfalso.
           apply (H 0%nat imp0 p0 eq_refl Hp0); [now rewrite Nat.add_0_r|exact He].
        -- rewrite IH. split; intros H i imp p Hi Hp Hslot.
           ++ destruct i as [|i].
              ** cbn in Hi. injection Hi as <-. congruence.
              ** cbn in Hi. apply (H i imp p Hi Hp). now rewrite Nat.add_succ_comm.
           ++ apply (H (S i) imp p Hi Hp). now rewrite <- Nat.add_succ_comm.
    + rewrite IH. split; intros H i imp p Hi Hp Hslot.
      * destruct i as [|i].
        -- cbn in Hi. injection Hi as <-. congruence.
        -- cbn in Hi. apply (H i imp p Hi Hp). now rewrite Nat.add_succ_comm.
      * apply (H (S i) imp p Hi Hp). now rewrite <- Nat.add_succ_comm.
Qed.

Lemma prefix_in_use_0 imports slot value :
  prefix_in_use imports 0 slot value = false
  <-> forall i imp p,
        imports !! i = Some imp -> pimp_prefix imp = Some p ->
        slot <> Some i -> strcmp p value <> 0.
Proof. exact (prefix_in_use_false imports 0 slot value). Qed.

Lemma lysp_check_prefix_success imports module_prefix slot value :
  lysp_check_prefix imports module_prefix slot value = LY_SUCCESS
  <-> (forall p, module_prefix = Some p -> strcmp p value <> 0)
      /\ (forall i imp p,
            imports !! i = Some imp -> pimp_prefix imp = Some p ->
            slot <> Some i -> strcmp p value <> 0).
Proof.
  unfold lysp_check_prefix. rewrite <- prefix_in_use_0.
  destruct module_prefix as [mp|].
  - destruct (Z.eqb_spec (strcmp mp value) 0) as [He|He].
    + split; [discriminate|]. intros [H _]. exfalso. now apply (H mp).
    + destruct (prefix_in_use imports 0 slot value).
      * split; [discriminate|]. intros [_ H]. discriminate H.
      * split; [|reflexivity]. intros _. split; [now intros p [= <-]|reflexivity].
  - destruct (prefix_in_use imports 0 slot value).
    + split; [discriminate|]. intros [_ H]. discriminate H.
    + split; [|reflexivity]. intros _. split; [discriminate|reflexivity].
Qed.

(** X9: [lysp_check_prefix] answers LY_SUCCESS or LY_EEXIST; it passes a
    prefix exactly when the prefix differs from the module prefix handed
    in and from the prefix of every import other than the one the pointer
    belongs to (a prefix is never compared with itself, and an import
    without prefix is skipped). When the prefix of every import passes
    the check against the finished array, no two imports share a prefix
    and none carries the prefix of the module (invariant 1 of the data
    model). *)
Theorem lysp_check_prefix_unique imports module_prefix :
  (forall slot value,
      lysp_check_prefix imports module_prefix slot value = LY_SUCCESS
      \/ lysp_check_prefix imports module_prefix slot value = LY_EEXIST)
  /\ (forall slot value,
        lysp_check_prefix imports module_prefix slot value = LY_SUCCESS
        <-> (forall p, module_prefix = Some p -> strcmp p value <> 0)
            /\ (forall i imp p,
                  imports !! i = Some imp -> pimp_prefix imp = Some p ->
                  slot <> Some i -> strcmp p value <> 0))
  /\ ((forall k imp p,
         imports !! k = Some imp -> pimp_prefix imp = Some p ->
         lysp_check_prefix imports module_prefix (Some k) p = LY_SUCCESS) ->
      (forall i j impi impj pi pj,
          i <> j -> imports !! i = Some impi -> imports !! j = Some impj ->
          pimp_prefix impi = Some pi -> pimp_prefix impj = Some pj ->
          strcmp pi pj <> 0)
      /\ (forall mp k imp p,
            module_prefix = Some mp -> imports !! k = Some imp ->
            pimp_prefix imp = Some p -> strcmp mp p <> 0)).
Proof.
  split; [|split; [apply lysp_check_prefix_success|]].
  - intros slot value. unfold lysp_check_prefix.
    destruct (match module_prefix with Some _ => _ | None => _ end); [now right|].
    destruct (prefix_in_use _ _ _ _); [now right|now left].
  - intros Hall. split.
    + intros i j impi impj pi pj Hne Hi Hj Hpi Hpj.
      pose proof (Hall j impj pj Hj Hpj) as Hok.
      apply lysp_check_prefix_success in Hok as [_ Hok].
      apply (Hok i impi pi Hi Hpi). congruence.
    + intros mp k imp p Hmp Hk Hp.
      pose proof (Hall k imp p Hk Hp) as Hok.
      apply lysp_check_prefix_success in Hok as [Hok _]. now apply Hok.
Qed.

(** A module with the prefix m that imports a under a and b under b: the
    prefix b of the second import passes, a second a does not, and
    neither does m. *)
Lemma lysp_check_prefix_unique_witness :
  lysp_check_prefix [mk_lysp_import "a" (Some "a"); mk_lysp_import "b" (Some "b")]
                    (Some "m") (Some 1%nat) "b" = LY_SUCCESS
  /\ lysp_check_prefix [mk_lysp_import "a" (Some "a"); mk_lysp_import "b" (Some "a")]
                       (Some "m") (Some 1%nat) "a" = LY_EEXIST
  /\ lysp_check_prefix [mk_lysp_import "a" (Some "m")] (Some "m") (Some 0%nat) "m"
     = LY_EEXIST.
Proof.
  split; [|split; reflexivity].
  apply (proj1 (proj2 (lysp_check_prefix_unique
                         [mk_lysp_import "a" (Some "a"); mk_lysp_import "b" (Some "b")]
                         (Some "m")))).
  split.
  - intros p [= <-]. vm_compute. discriminate.
  - intros [|[|i]] imp p Hi Hp Hs; cbn in Hi; try discriminate Hi.
    + injection Hi as <-. injection Hp as <-. vm_compute. discriminate.
    + congruence.
Defined.

End PrefixFacts.

(** ** Module loader *)

Module LoaderFacts.
Import Schema Loader Samples.

Lemma find_index_Some {A} (p : A -> bool) l : forall k i,
  find_index p l k = Some i ->
  exists x, l !! (i - k)%nat = Some x /\ p x = true /\ (k <= i)%nat.
Proof.
  induction l as [|y l IH]; intros k i; cbn [find_index]; [discriminate|].
  destruct (p y) eqn:Hp.
  - intros [= <-]. exists y. rewrite Nat.sub_diag. auto.
  - intros H. destruct (IH _ _ H) as (x & Hx & Hpx & Hle).
    exists x. replace (i - k)%nat with (S (i - S k)) by lia. auto with lia.
Qed.

Lemma find_index_exists {A} (p : A -> bool) l : forall k j x,
  l !! j = Some x -> p x = true -> exists i, find_index p l k = Some i.
Proof.
  induction l as [|y l IH]; intros k j x Hj Hp; [discriminate|].
  cbn [find_index]. destruct (p y) eqn:Hy; [eauto|].
  destruct j as [|j]; [cbn in Hj; congruence|]. eapply IH; eauto.
Qed.

(** What [ly_ctx_get_module_implemented] answers is an implemented module
    of that name, and it answers whenever there is one. *)
Lemma get_module_implemented_Some ctx name h :
  ly_ctx_get_module_implemented ctx name = Some h ->
  exists m, ctx_list ctx !! h = Some m /\ strcmp (mod_name m) name = 0
            /\ mod_implemented m = true.
Proof.
  unfold ly_ctx_get_module_implemented. intros H.
  destruct (find_index_Some _ _ _ _ H) as (m & Hm & Hp & _).
  rewrite Nat.sub_0_r in Hm. apply andb_prop in Hp as [Hn Hi].
  apply Z.eqb_eq in Hn. eauto.
Qed.

Lemma get_module_implemented_exists ctx name j mj :
  ctx_list ctx !! j = Some mj -> strcmp (mod_name mj) name = 0 ->
  mod_implemented mj = true ->
  exists h, ly_ctx_get_module_implemented ctx name = Some h.
Proof.
  intros Hj Hn Hi. unfold ly_ctx_get_module_implemented.
  eapply find_index_exists; [exact Hj|].
  apply andb_true_intro. split; [now apply Z.eqb_eq|exact Hi].
Qed.

Section Conflicts.

Variable imp_clb : option (string -> option string -> option string).
Variable lys_parse_mem_module :
  ly_ctx -> string -> bool -> string -> option string -> ly_ctx * option handle.
Variable lys_compile : ly_ctx -> handle -> ly_ctx * LY_ERR.
Variable ly_ctx_remove_module : ly_ctx -> handle -> ly_ctx.
Variable lys_module_localfile :
  ly_ctx -> string -> option string -> bool -> ly_ctx * option handle.

Local Abbreviation load :=
  (lysp_load_module imp_clb lys_parse_mem_module lys_compile ly_ctx_remove_module
                    lys_module_localfile).

(** C3: in a context that keeps at most one implemented revision per
    module, a load with the implement flag of a module of which another
    revision is implemented fails with LY_EDENIED and hands back no
    module, whether the target has to be acquired or was found in the
    registry. *)
Theorem lysp_load_module_implemented_conflict
        ctx name revision require_parsed mod_ j mj :
  unique_implemented ctx ->
  ctx_list ctx !! j = Some mj ->
  strcmp (mod_name mj) name = 0 ->
  mod_implemented mj = true ->
  (forall h, registry_target ctx name revision mod_ = Some h ->
             exists m, ctx_list ctx !! h = Some m
                       /\ mod_revision m <> mod_revision mj) ->
  load ctx name revision true require_parsed mod_ =
  Some (mk_load ctx LY_EDENIED None (Some Diag_other_implemented_revision)).
Proof.
  intros Huniq Hj Hname Himpl Htarget.
  destruct (get_module_implemented_exists ctx name j mj Hj Hname Himpl) as [o Ho].
  destruct (get_module_implemented_Some ctx name o Ho) as (mo & Hmo & Hno & Hio).
  assert (o = j) as -> by (eapply Huniq; eauto).
  unfold lysp_load_module. fold (registry_target ctx name revision mod_).
  destruct (registry_target ctx name revision mod_) as [h|] eqn:Ht.
  - destruct (Htarget h eq_refl) as (m & Hm & Hrev). rewrite Hm, Ho.
    assert (Nat.eqb j h = false) as ->.
    { apply Nat.eqb_neq. intros ->. rewrite Hm in Hj. injection Hj as ->.
      now apply Hrev. }
    cbn [andb negb].
    destruct (require_parsed && _); reflexivity.
  - rewrite Ho. reflexivity.
Qed.

(** C4 (as the code has it): a module found in the registry whose parsed
    facet is being parsed makes the load fail with the validation error
    of a circular import and hands back no module, unless the load asks
    to implement the module while another revision is implemented: that
    conflict is checked first. *)
Theorem lysp_load_module_import_cycle
        ctx name revision implement require_parsed mod_ h m p :
  registry_target ctx name revision mod_ = Some h ->
  ctx_list ctx !! h = Some m ->
  mod_parsed m = Some p ->
  p_parsing p = true ->
  (implement = true ->
   forall other, ly_ctx_get_module_implemented ctx name = Some other -> other = h) ->
  load ctx name revision implement require_parsed mod_ =
  Some (mk_load ctx LY_EVALID None (Some Diag_circular_import)).
Proof.
  intros Ht Hm Hp Hparsing Hconflict.
  unfold lysp_load_module. fold (registry_target ctx name revision mod_).
  rewrite Ht, Hm, Hp, Hparsing, andb_false_r.
  destruct implement; [|reflexivity].
  destruct (ly_ctx_get_module_implemented ctx name) as [other|] eqn:Ho; [|reflexivity].
  rewrite (Hconflict eq_refl other eq_refl), Nat.eqb_refl. reflexivity.
Qed.

End Conflicts.

Lemma ctx_a_unique_implemented : unique_implemented ctx_a.
Proof.
  intros name i j mi mj Hi Hj _ _ Ii Ij.
  destruct i as [|[|i]]; cbn in Hi; try discriminate; injection Hi as <-;
    destruct j as [|[|j]]; cbn in Hj; try discriminate; injection Hj as <-;
      try reflexivity; discriminate.
Qed.

(** Revision 2018-01-01 of module a is implemented: asking to implement
    revision 2019-01-01, which the registry holds, is denied, and so is
    asking for a revision the registry does not hold. *)
Lemma lysp_load_module_implemented_conflict_witness :
  load_a ctx_a (Some "2019-01-01") true =
  Some (mk_load ctx_a LY_EDENIED None (Some Diag_other_implemented_revision))
  /\ load_a ctx_a (Some "2020-01-01") true =
     Some (mk_load ctx_a LY_EDENIED None (Some Diag_other_implemented_revision)).
Proof.
  split.
  - apply (lysp_load_module_implemented_conflict None no_parse compile_ok no_removal
             no_localfile ctx_a "a" (Some "2019-01-01") false None 0%nat module_a_2018
             ctx_a_unique_implemented eq_refl eq_refl eq_refl).
    intros h [= <-]. exists module_a_2019. split; [reflexivity|discriminate].
  - apply (lysp_load_module_implemented_conflict None no_parse compile_ok no_removal
             no_localfile ctx_a "a" (Some "2020-01-01") false None 0%nat module_a_2018
             ctx_a_unique_implemented eq_refl eq_refl eq_refl).
    intros h [=].
Defined.

(** Importing (not implementing) revision 2019-01-01 of module a while it
    is being parsed. *)
Lemma lysp_load_module_import_cycle_witness :
  load_a ctx_a (Some "2019-01-01") false =
  Some (mk_load ctx_a LY_EVALID None (Some Diag_circular_import)).
Proof.
  apply (lysp_load_module_import_cycle None no_parse compile_ok no_removal no_localfile
           ctx_a "a" (Some "2019-01-01") false false None 1%nat module_a_2019
           (mk_parsed [] [] [] true) eq_refl eq_refl eq_refl eq_refl).
  intros [=].
Defined.

(** Revision 2019-01-01 of module a is in the registry and is being
    parsed, and still a load with the implement flag does not report the
    circular import: it is denied for the implemented revision
    2018-01-01. *)
Lemma lysp_load_module_cycle_hidden_by_conflict :
  ly_ctx_get_module ctx_a "a" (Some "2019-01-01") = Some 1%nat
  /\ ctx_list ctx_a !! 1%nat = Some module_a_2019
  /\ (p_parsing <$> mod_parsed module_a_2019) = Some true
  /\ load_a ctx_a (Some "2019-01-01") true =
     Some (mk_load ctx_a LY_EDENIED None (Some Diag_other_implemented_revision))
  /\ load_a ctx_a (Some "2019-01-01") true <>
     Some (mk_load ctx_a LY_EVALID None (Some Diag_circular_import)).
Proof. repeat split; discriminate. Qed.

(** *** Outcomes of the module loader *)

Lemma update_module_lookup ctx h f m :
  ctx_list (update_module ctx h f) !! h = Some m ->
  exists m0, ctx_list ctx !! h = Some m0 /\ m = f m0.
Proof.
  unfold update_module. destruct (ctx_list ctx !! h) as [m0|] eqn:Hm0.
  - cbn [ctx_list]. rewrite list_lookup_insert_eq by (eapply lookup_lt_Some; eauto).
    intros [= <-]. eauto.
  - rewrite Hm0. discriminate.
Qed.

Section Outcomes.

Variable imp_clb : option (string -> option string -> option string).
Variable lys_parse_mem_module :
  ly_ctx -> string -> bool -> string -> option string -> ly_ctx * option handle.
Variable lys_compile : ly_ctx -> handle -> ly_ctx * LY_ERR.
Variable ly_ctx_remove_module : ly_ctx -> handle -> ly_ctx.
Variable lys_module_localfile :
  ly_ctx -> string -> option string -> bool -> ly_ctx * option handle.

Local Abbreviation load :=
  (lysp_load_module imp_clb lys_parse_mem_module lys_compile ly_ctx_remove_module
                    lys_module_localfile).
Local Abbreviation acquire :=
  (Loader.acquire imp_clb lys_parse_mem_module lys_compile ly_ctx_remove_module
                  lys_module_localfile).

Lemma finish_load_outcome ctx implement mod_ :
  well_formed_outcome implement (finish_load ctx implement mod_).
Proof.
  unfold finish_load, well_formed_outcome. destruct mod_ as [h|]; cbn [ld_ret ld_mod ld_diag ld_ctx].
  - split; [now left|]. split; [split; [discriminate|reflexivity]|].
    split; [split; reflexivity|].
    intros h' m [= <-] -> Hm. apply update_module_lookup in Hm as (m0 & _ & ->).
    reflexivity.
  - split; [now right; right|]. split; [split; [discriminate|congruence]|].
    split; [split; discriminate|]. discriminate.
Qed.

Lemma denied_outcome ctx implement :
  well_formed_outcome implement
    (mk_load ctx LY_EDENIED None (Some Diag_other_implemented_revision)).
Proof.
  unfold well_formed_outcome. cbn [ld_ret ld_mod ld_diag ld_ctx].
  split; [now right; left|]. split; [split; [discriminate|congruence]|].
  split; [split; discriminate|]. discriminate.
Qed.

Lemma circular_outcome ctx implement :
  well_formed_outcome implement (mk_load ctx LY_EVALID None (Some Diag_circular_import)).
Proof.
  unfold well_formed_outcome. cbn [ld_ret ld_mod ld_diag ld_ctx].
  split; [now right; right|]. split; [split; [discriminate|congruence]|].
  split; [split; discriminate|]. discriminate.
Qed.

(** X20: whatever the registry holds and whatever the callback, the
    parser, the compiler and the search directories do, a call of
    [lysp_load_module] that returns answers LY_SUCCESS, LY_EDENIED or
    LY_EVALID; the module pointer it leaves in [*mod] is NULL exactly when
    it fails; one of its own three validation messages (another
    implemented revision, circular import, load failed) is logged exactly
    when it fails, while the search in the local directories may log a
    miss of its own also in a load that succeeds; and after a successful
    load with the implement flag the module handed back is marked
    implemented. *)
Theorem lysp_load_module_outcome ctx name revision implement require_parsed mod_ r :
  load ctx name revision implement require_parsed mod_ = Some r ->
  well_formed_outcome implement r.
Proof.
  unfold lysp_load_module.
  destruct (match mod_ with Some h => Some h | None => _ end) as [h|].
  - destruct (ctx_list ctx !! h) as [m|]; [|discriminate].
    destruct (require_parsed && _).
    + destruct (implement && _); [intros [= <-]; apply denied_outcome|].
      destruct (Loader.acquire _ _ _ _ _ _ _ _ _) as [ctx1 got].
      intros [= <-]. exact (finish_load_outcome _ implement got).
    + destruct (implement && _); [intros [= <-]; apply denied_outcome|].
      destruct (match mod_parsed m with Some _ => _ | None => _ end);
        intros [= <-];
        [apply circular_outcome|exact (finish_load_outcome ctx implement (Some h))].
  - destruct (implement && _); [intros [= <-]; apply denied_outcome|].
    destruct (Loader.acquire _ _ _ _ _ _ _ _ _) as [ctx1 got].
    intros [= <-]. exact (finish_load_outcome _ implement got).
Qed.

(** X21: a module the registry holds is handed back as it is. When the
    target of the request is in the registry, is not being parsed, has a
    parsed facet if one is required, and (for a load that implements) no
    other revision of the module is implemented, the load succeeds with
    that module, nothing is acquired (the result does not depend on the
    callback, the parser or the search directories) and the context is the
    one of the call, with the module marked implemented when the load was
    to implement it. *)
Theorem lysp_load_module_registry_hit
        ctx name revision implement require_parsed mod_ h m :
  registry_target ctx name revision mod_ = Some h ->
  ctx_list ctx !! h = Some m ->
  (require_parsed = true -> mod_parsed m <> None) ->
  (forall p, mod_parsed m = Some p -> p_parsing p = false) ->
  (implement = true ->
   forall other, ly_ctx_get_module_implemented ctx name = Some other -> other = h) ->
  load ctx name revision implement require_parsed mod_ =
  Some (mk_load (if implement then update_module ctx h set_implemented else ctx)
                LY_SUCCESS (Some h) None).
Proof.
  intros Ht Hm Hparsed Hparsing Hconflict.
  unfold lysp_load_module. fold (registry_target ctx name revision mod_).
  rewrite Ht, Hm.
  assert (require_parsed && match mod_parsed m with Some _ => false | None => true end
          = false) as ->.
  { destruct require_parsed; [|reflexivity].
    destruct (mod_parsed m); [reflexivity|]. now destruct (Hparsed eq_refl). }
  assert (implement && match ly_ctx_get_module_implemented ctx name with
                       | Some other => negb (Nat.eqb other h)
                       | None => false
                       end = false) as ->.
  { destruct implement; [|reflexivity].
    destruct (ly_ctx_get_module_implemented ctx name) as [other|]; [|reflexivity].
    rewrite (Hconflict eq_refl other eq_refl), Nat.eqb_refl. reflexivity. }
  destruct (mod_parsed m) as [p|]; [rewrite (Hparsing p eq_refl)|]; reflexivity.
Qed.

(** X22: a module that has to be acquired. When the registry has no
    target for the request (and, for a load that implements, no revision
    of the module is implemented), the outcome is the one of the
    acquisition: without a module the load fails with the validation
    error LY_EVALID (and the message that loading or importing failed);
    with a module it succeeds, and when no revision was asked for the
    module does not stay marked latest_revision = 1. *)
Theorem lysp_load_module_acquired ctx name revision implement require_parsed mod_ :
  registry_target ctx name revision mod_ = None ->
  (implement = true -> ly_ctx_get_module_implemented ctx name = None) ->
  exists r,
    load ctx name revision implement require_parsed mod_ = Some r
    /\ ld_mod r = snd (acquire ctx name revision implement)
    /\ (snd (acquire ctx name revision implement) = None ->
        r = mk_load (fst (acquire ctx name revision implement)) LY_EVALID None
                    (Some (Diag_load_failed implement)))
    /\ (forall h m, ld_mod r = Some h -> ctx_list (ld_ctx r) !! h = Some m ->
                    ld_ret r = LY_SUCCESS
                    /\ (revision = None -> mod_latest_revision m <> 1)).
Proof.
  intros Ht Hconflict.
  unfold lysp_load_module. fold (registry_target ctx name revision mod_). rewrite Ht.
  assert (implement && match ly_ctx_get_module_implemented ctx name with
                       | Some _ => true
                       | None => false
                       end = false) as ->.
  { destruct implement; [|reflexivity]. now rewrite (Hconflict eq_refl). }
  destruct (acquire ctx name revision implement) as [ctx1 got].
  eexists. split; [reflexivity|]. cbn [fst snd].
  destruct got as [h|]; cbn [finish_load ld_mod ld_ret ld_ctx].
  - split; [reflexivity|]. split; [discriminate|].
    intros h' m [= <-] Hm. split; [reflexivity|]. intros ->.
    assert (exists m1, ctx_list (match ctx_list ctx1 !! h with
                                 | Some m0 =>
                                   if mod_latest_revision m0 =? 1
                                   then update_module ctx1 h (set_latest_revision 2)
                                   else ctx1
                                 | None => ctx1
                                 end) !! h = Some m1
                       /\ mod_latest_revision m1 = mod_latest_revision m) as (m1 & Hm1 & <-).
    { destruct implement; [|eauto].
      apply update_module_lookup in Hm as (m0 & Hm0 & ->). eauto. }
    destruct (ctx_list ctx1 !! h) as [m0|] eqn:Hm0; [|congruence].
    destruct (Z.eqb_spec (mod_latest_revision m0) 1) as [He|He].
    + apply update_module_lookup in Hm1 as (m2 & _ & ->). discriminate.
    + congruence.
  - split; [reflexivity|]. split; [reflexivity|]. discriminate.
Qed.

End Outcomes.

(** Revision 2018-01-01 of module a, found in the registry and
    implemented already. *)
Lemma lysp_load_module_outcome_witness :
  well_formed_outcome true
    (mk_load (update_module ctx_a 0 set_implemented) LY_SUCCESS (Some 0%nat) None).
Proof.
  apply (lysp_load_module_outcome None no_parse compile_ok no_removal no_localfile
           ctx_a "a" (Some "2018-01-01") true false None).
  reflexivity.
Defined.

Lemma lysp_load_module_registry_hit_witness :
  load_a ctx_a (Some "2018-01-01") true =
  Some (mk_load (update_module ctx_a 0 set_implemented) LY_SUCCESS (Some 0%nat) None)
  /\ load_a ctx_a (Some "2018-01-01") false =
     Some (mk_load ctx_a LY_SUCCESS (Some 0%nat) None).
Proof.
  split.
  - apply (lysp_load_module_registry_hit None no_parse compile_ok no_removal no_localfile
             ctx_a "a" (Some "2018-01-01") true false None 0%nat module_a_2018
             eq_refl eq_refl).
    + discriminate.
    + intros p [= <-]. reflexivity.
    + intros _ other [= <-]. reflexivity.
  - apply (lysp_load_module_registry_hit None no_parse compile_ok no_removal no_localfile
             ctx_a "a" (Some "2018-01-01") false false None 0%nat module_a_2018
             eq_refl eq_refl).
    + discriminate.
    + intros p [= <-]. reflexivity.
    + discriminate.
Defined.

(** The module c is taken from the search directories and becomes the
    latest revision; a module d is found nowhere. *)
Lemma lysp_load_module_acquired_witness :
  (exists r,
      load_from_c "c" None false = Some r
      /\ ld_mod r = snd (acquire_from_c "c" None false)
      /\ (snd (acquire_from_c "c" None false) = None ->
          r = mk_load (fst (acquire_from_c "c" None false)) LY_EVALID None
                      (Some (Diag_load_failed false)))
      /\ (forall h m, ld_mod r = Some h -> ctx_list (ld_ctx r) !! h = Some m ->
                      ld_ret r = LY_SUCCESS
                      /\ (@None string = None -> mod_latest_revision m <> 1)))
  /\ (exists r,
        load_from_c "d" None true = Some r
        /\ ld_mod r = snd (acquire_from_c "d" None true)
        /\ (snd (acquire_from_c "d" None true) = None ->
            r = mk_load (fst (acquire_from_c "d" None true)) LY_EVALID None
                        (Some (Diag_load_failed true)))
        /\ (forall h m, ld_mod r = Some h -> ctx_list (ld_ctx r) !! h = Some m ->
                        ld_ret r = LY_SUCCESS
                        /\ (@None string = None -> mod_latest_revision m <> 1))).
Proof.
  split.
  - apply (lysp_load_module_acquired None no_parse compile_ok no_removal localfile_c
             ctx_a "c" None false false None eq_refl).
    discriminate.
  - apply (lysp_load_module_acquired None no_parse compile_ok no_removal localfile_c
             ctx_a "d" None true false None eq_refl).
    reflexivity.
Defined.

End LoaderFacts.

(** ** Schema-nodeid resolver *)

Module ResolverFacts.
Import Schema Lexical Resolver Samples.

(** The nonempty prefixes of a keyword, by enumeration. *)
Lemma prefix_of_input seg :
  seg <> EmptyString -> String.prefix seg "input" = true ->
  In seg ["i"; "in"; "inp"; "inpu"; "input"].
Proof.
  intros Hne Hp.
  repeat (destruct seg as [|? seg]; [cbn; tauto|];
          cbn [String.prefix] in Hp;
          match type of Hp with
          | (if ascii_dec ?a ?b then _ else _) = true =>
            destruct (ascii_dec a b) as [->|]; [|discriminate Hp]
          | false = true => discriminate Hp
          end).
Qed.

Lemma prefix_of_output seg :
  seg <> EmptyString -> String.prefix seg "output" = true ->
  In seg ["o"; "ou"; "out"; "outp"; "outpu"; "output"].
Proof.
  intros Hne Hp.
  repeat (destruct seg as [|? seg]; [cbn; tauto|];
          cbn [String.prefix] in Hp;
          match type of Hp with
          | (if ascii_dec ?a ?b then _ else _) = true =>
            destruct (ascii_dec a b) as [->|]; [|discriminate Hp]
          | false = true => discriminate Hp
          end).
Qed.

Section Resolution.

Variable lysc_node : Set.
Variable node_nodetype : lysc_node -> Z.
Variable lys_child :
  option lysc_node -> handle -> string -> nat -> Z -> Z -> option lysc_node.
Variable ly_ctx_module_implement_internal : ly_ctx -> handle -> Z -> ly_ctx.

Local Abbreviation state := (resolve_state lysc_node).
Local Abbreviation select := (select_node lysc_node node_nodetype lys_child).
Local Abbreviation loop :=
  (resolve_loop lysc_node node_nodetype lys_child ly_ctx_module_implement_internal).
Local Abbreviation segments :=
  (resolve_segments lysc_node node_nodetype lys_child ly_ctx_module_implement_internal).
Local Abbreviation resolve :=
  (lys_resolve_schema_nodeid lysc_node node_nodetype lys_child
                             ly_ctx_module_implement_internal).

Local Abbreviation holds_type_of := (holds_type_of lysc_node node_nodetype).

Lemma rpc_flag_set flag bit :
  bit = LYSC_OPT_RPC_INPUT \/ bit = LYSC_OPT_RPC_OUTPUT ->
  Z.land (Z.lor flag bit) (Z.lor LYSC_OPT_RPC_INPUT LYSC_OPT_RPC_OUTPUT) <> 0.
Proof.
  intros Hbit E.
  destruct Hbit as [Hb|Hb]; subst bit.
  - apply (f_equal (fun z => Z.testbit z 0)) in E.
    rewrite Z.land_spec, Z.lor_spec, orb_true_r in E. discriminate E.
  - apply (f_equal (fun z => Z.testbit z 1)) in E.
    rewrite Z.land_spec, Z.lor_spec, orb_true_r in E. discriminate E.
Qed.

Lemma is_action_node node :
  is_action _ node_nodetype node = true ->
  exists n, node = Some n /\ node_nodetype n = LYS_ACTION.
Proof.
  unfold is_action. destruct node as [n|]; [|discriminate].
  intros H. apply Z.eqb_eq in H. now exists n.
Qed.

Lemma select_node_type st mod_ name name_len st' :
  select st mod_ name name_len = Some st' -> exists target, holds_type_of st' target.
Proof.
  unfold select_node, holds_type_of.
  destruct (is_action _ _ (rs_node _ st)) eqn:Ha; cbn [andb].
  - apply is_action_node in Ha as (n & Hn & Hty).
    destruct (strncmp "input" name name_len =? 0).
    { intros [= <-]. exists n. cbn [rs_node rs_current rs_flag].
      split; [exact Hn|]. right. repeat split; [exact Hty|].
      apply rpc_flag_set. now left. }
    destruct (strncmp "output" name name_len =? 0).
    { intros [= <-]. exists n. cbn [rs_node rs_current rs_flag].
      split; [exact Hn|]. right. repeat split; [exact Hty|].
      apply rpc_flag_set. now right. }
    destruct (lys_child _ _ _ _ _ _) as [child|]; [|discriminate].
    intros [= <-]. exists child. split; [reflexivity|now left].
  - destruct (lys_child _ _ _ _ _ _) as [child|]; [|discriminate].
    intros [= <-]. exists child. split; [reflexivity|now left].
Qed.

Lemma resolve_loop_type fuel total nodeid_len cm implement :
  forall id ret st st',
    loop fuel total nodeid_len cm implement id ret st = Exited _ st' LY_SUCCESS ->
    (ret = LY_SUCCESS -> exists target, holds_type_of st target) ->
    exists target, holds_type_of st' target.
Proof.
  induction fuel as [|fuel IH]; intros id ret st st'; cbn [resolve_loop].
  - intros [= <- ->] H. now apply H.
  - destruct (code (peek id) =? 0); [intros [= <- ->] H; now apply H|].
    destruct (lys_parse_nodeid id) as [[err id'] parts].
    destruct err; try discriminate.
    destruct (match np_prefix parts with Some _ => _ | None => _ end) as [m|];
      [|discriminate].
    destruct (select_node _ _ _ _ _ _ _) as [st2|] eqn:Hsel; [|discriminate].
    apply select_node_type in Hsel.
    destruct (_ || _); [intros [= <-] _; exact Hsel|].
    destruct (negb _); [discriminate|].
    intros H _. eapply IH; [exact H|]. intros _. exact Hsel.
Qed.

(** C5: a nodeid that does not start with "/" is refused when there is no
    context node, a nodeid that starts with "/" is refused when there is
    one, both with LY_EVALID before any segment is looked at (the
    context is untouched, no flag is set). When the segments were all
    consumed with success, there is a final node, which is the target,
    and the node type tested is the type of that node, or LYS_INOUT when
    the node is an action whose input or output was selected; the call
    then returns LY_EDENIED exactly when a nonzero mask is given that
    does not contain this node type, and LY_SUCCESS otherwise. *)
Theorem lys_resolve_schema_nodeid_guards
        ctx nodeid nodeid_len context_node context_module nodetype implement :
  (context_node = None -> code (peek nodeid) <> code "/"%char ->
   resolve ctx nodeid nodeid_len context_node context_module nodetype implement
   = mk_resolved _ ctx LY_EVALID None 0)
  /\ (context_node <> None -> code (peek nodeid) = code "/"%char ->
      resolve ctx nodeid nodeid_len context_node context_module nodetype implement
      = mk_resolved _ ctx LY_EVALID None 0)
  /\ (forall st,
        segments ctx nodeid nodeid_len context_node context_module implement
        = Some (Exited _ st LY_SUCCESS) ->
        exists target,
          rs_node _ st = Some target
          /\ (rs_current _ st = node_nodetype target
              \/ (node_nodetype target = LYS_ACTION /\ rs_current _ st = LYS_INOUT
                  /\ Z.land (rs_flag _ st)
                            (Z.lor LYSC_OPT_RPC_INPUT LYSC_OPT_RPC_OUTPUT) <> 0))
          /\ lys_resolve_schema_nodeid
               lysc_node node_nodetype lys_child ly_ctx_module_implement_internal
               ctx nodeid nodeid_len context_node context_module nodetype implement
             = mk_resolved _ (rs_ctx _ st)
                           (if negb (nodetype =? 0)
                               && (Z.land (rs_current _ st) nodetype =? 0)
                            then LY_EDENIED else LY_SUCCESS)
                           (Some target) (rs_flag _ st)).
Proof.
  split; [|split].
  - intros -> Hc. unfold lys_resolve_schema_nodeid, resolve_segments.
    apply Z.eqb_neq in Hc. now rewrite Hc.
  - intros Hn Hc. unfold lys_resolve_schema_nodeid, resolve_segments.
    destruct context_node; [|congruence].
    apply Z.eqb_eq in Hc. now rewrite Hc.
  - intros st Hseg.
    assert (exists target, holds_type_of st target) as (target & Hnode & Htype).
    { unfold resolve_segments in Hseg.
      destruct context_node; destruct (code (peek nodeid) =? code "/"%char);
        try discriminate; apply (inj Some) in Hseg;
          (eapply resolve_loop_type; [exact Hseg|discriminate]). }
    exists target. split; [exact Hnode|]. split; [exact Htype|].
    unfold lys_resolve_schema_nodeid. rewrite Hseg, Hnode.
    destruct (negb (nodetype =? 0) && _); reflexivity.
Qed.

Lemma select_node_input st mod_ seg rest n :
  rs_node _ st = Some n -> node_nodetype n = LYS_ACTION ->
  seg <> EmptyString -> String.prefix seg "input" = true ->
  select st mod_ (seg +:+ rest) (String.length seg) =
  Some (mk_state _ (rs_ctx _ st) (Some n) (rs_extra _ st) LYS_INOUT
                 (Z.lor (rs_flag _ st) LYSC_OPT_RPC_INPUT)).
Proof.
  intros Hn Ha Hne Hp. unfold select_node, is_action. rewrite Hn, Ha, Z.eqb_refl.
  pose proof (prefix_of_input seg Hne Hp) as Hin. cbn [In] in Hin.
  repeat destruct Hin as [<-|Hin]; try reflexivity. destruct Hin.
Qed.

Lemma select_node_output st mod_ seg rest n :
  rs_node _ st = Some n -> node_nodetype n = LYS_ACTION ->
  seg <> EmptyString -> String.prefix seg "output" = true ->
  select st mod_ (seg +:+ rest) (String.length seg) =
  Some (mk_state _ (rs_ctx _ st) (Some n) LYS_GETNEXT_OUTPUT LYS_INOUT
                 (Z.lor (rs_flag _ st) LYSC_OPT_RPC_OUTPUT)).
Proof.
  intros Hn Ha Hne Hp. unfold select_node, is_action. rewrite Hn, Ha, Z.eqb_refl.
  pose proof (prefix_of_output seg Hne Hp) as Hin. cbn [In] in Hin.
  repeat destruct Hin as [<-|Hin]; try reflexivity. destruct Hin.
Qed.

Lemma is_action_true n :
  node_nodetype n = LYS_ACTION -> is_action _ node_nodetype (Some n) = true.
Proof. intros H. unfold is_action. rewrite H. reflexivity. Qed.

(** A nodeid of one segment that is a prefix of "input", resolved from
    an action node. *)
Lemma resolve_input_prefix ctx seg n cm implement :
  node_nodetype n = LYS_ACTION ->
  seg <> EmptyString -> String.prefix seg "input" = true ->
  resolve ctx seg 0 (Some n) cm 0 implement =
  mk_resolved _ (if implement && negb (module_implemented ctx cm)
                 then ly_ctx_module_implement_internal ctx cm 2 else ctx)
              LY_SUCCESS (Some n) LYSC_OPT_RPC_INPUT.
Proof.
  intros Ha Hne Hp. apply is_action_true in Ha.
  pose proof (prefix_of_input seg Hne Hp) as Hin. cbn [In] in Hin.
  repeat destruct Hin as [<-|Hin]; try destruct Hin;
    unfold lys_resolve_schema_nodeid, resolve_segments;
    cbv -[is_action]; rewrite Ha; reflexivity.
Qed.

Lemma resolve_output_prefix ctx seg n cm implement :
  node_nodetype n = LYS_ACTION ->
  seg <> EmptyString -> String.prefix seg "output" = true ->
  resolve ctx seg 0 (Some n) cm 0 implement =
  mk_resolved _ (if implement && negb (module_implemented ctx cm)
                 then ly_ctx_module_implement_internal ctx cm 2 else ctx)
              LY_SUCCESS (Some n) LYSC_OPT_RPC_OUTPUT.
Proof.
  intros Ha Hne Hp. apply is_action_true in Ha.
  pose proof (prefix_of_output seg Hne Hp) as Hin. cbn [In] in Hin.
  repeat destruct Hin as [<-|Hin]; try destruct Hin;
    unfold lys_resolve_schema_nodeid, resolve_segments;
    cbv -[is_action]; rewrite Ha; reflexivity.
Qed.

(** C10: at an action node the comparison with the special names runs
    over the length of the segment only: every segment that is a
    (nonempty) prefix of "input" selects the input and sets the flag
    rpc-input, every segment that is a prefix of "output" selects the
    output and sets the flag rpc-output; the same holds of a nodeid that
    consists of such a segment. *)
Theorem rpc_segment_prefix_selects st mod_ seg rest n ctx implement :
  rs_node _ st = Some n -> node_nodetype n = LYS_ACTION -> seg <> EmptyString ->
  (String.prefix seg "input" = true ->
   select st mod_ (seg +:+ rest) (String.length seg) =
   Some (mk_state _ (rs_ctx _ st) (Some n) (rs_extra _ st) LYS_INOUT
                  (Z.lor (rs_flag _ st) LYSC_OPT_RPC_INPUT))
   /\ resolve ctx seg 0 (Some n) mod_ 0 implement =
      mk_resolved _ (if implement && negb (module_implemented ctx mod_)
                     then ly_ctx_module_implement_internal ctx mod_ 2 else ctx)
                  LY_SUCCESS (Some n) LYSC_OPT_RPC_INPUT)
  /\ (String.prefix seg "output" = true ->
      select st mod_ (seg +:+ rest) (String.length seg) =
      Some (mk_state _ (rs_ctx _ st) (Some n) LYS_GETNEXT_OUTPUT LYS_INOUT
                     (Z.lor (rs_flag _ st) LYSC_OPT_RPC_OUTPUT))
      /\ resolve ctx seg 0 (Some n) mod_ 0 implement =
         mk_resolved _ (if implement && negb (module_implemented ctx mod_)
                        then ly_ctx_module_implement_internal ctx mod_ 2 else ctx)
                     LY_SUCCESS (Some n) LYSC_OPT_RPC_OUTPUT).
Proof.
  intros Hn Ha Hne. split; intros Hp; split.
  - now apply select_node_input.
  - now apply resolve_input_prefix.
  - now apply select_node_output.
  - now apply resolve_output_prefix.
Qed.

(** *** The fuel of the loop is never used up *)

Lemma skip_identchars_length id :
  (String.length (skip_identchars id) <= String.length id)%nat.
Proof.
  induction id as [|c id IH]; cbn [skip_identchars]; [lia|].
  destruct (is_yangidentchar c); cbn [String.length]; lia.
Qed.

Lemma lys_parse_id_length id id' :
  lys_parse_id id = (LY_SUCCESS, id') -> (String.length id' < String.length id)%nat.
Proof.
  unfold lys_parse_id. destruct id as [|c id]; [discriminate|]. cbn [peek next].
  destruct (negb _); [discriminate|]. intros [= <-].
  pose proof (skip_identchars_length id). cbn [String.length]. lia.
Qed.

Lemma next_length id : (String.length (next id) <= String.length id)%nat.
Proof. destruct id; cbn [next String.length]; lia. Qed.

Lemma lys_parse_nodeid_length id id' parts :
  lys_parse_nodeid id = (LY_SUCCESS, id', parts) ->
  (String.length id' < String.length id)%nat.
Proof.
  unfold lys_parse_nodeid.
  destruct (lys_parse_id id) as [e1 id1] eqn:H1.
  destruct e1; try discriminate.
  apply lys_parse_id_length in H1.
  destruct (code (peek id1) =? code ":"%char); [|intros [= <- _]; exact H1].
  destruct (lys_parse_id (next id1)) as [e2 id2] eqn:H2.
  destruct e2; try discriminate.
  apply lys_parse_id_length in H2. pose proof (next_length id1).
  intros [= <- _]. lia.
Qed.

Lemma resolve_loop_fuel total nodeid_len cm implement fuel1 :
  forall fuel2 id ret st,
    (String.length id < fuel1)%nat -> (String.length id < fuel2)%nat ->
    loop fuel1 total nodeid_len cm implement id ret st =
    loop fuel2 total nodeid_len cm implement id ret st.
Proof.
  induction fuel1 as [|fuel1 IH]; intros fuel2 id ret st H1 H2; [lia|].
  destruct fuel2 as [|fuel2]; [lia|]. cbn [resolve_loop].
  destruct (code (peek id) =? 0); [reflexivity|].
  destruct (lys_parse_nodeid id) as [[err id'] parts] eqn:Hp.
  destruct err; try reflexivity.
  apply lys_parse_nodeid_length in Hp.
  destruct (match np_prefix parts with Some _ => _ | None => _ end) as [m|];
    [|reflexivity].
  destruct (select_node _ _ _ _ _ _ _) as [st2|]; [|reflexivity].
  destruct (_ || _); [reflexivity|].
  destruct (negb _); [reflexivity|].
  pose proof (next_length id'). apply IH; lia.
Qed.

End Resolution.

(** The sample tree: a descendant nodeid without context node and an
    absolute one with a context node are refused; the rpc doit is an
    action and no leaf; the container c is a container and neither a leaf
    nor an input or output. *)
Lemma lys_resolve_schema_nodeid_guards_witness :
  resolve_sample "doit" None 0 = Resolver.mk_resolved _ ctx_m LY_EVALID None 0
  /\ resolve_sample "/doit" (Some rpc_doit) 0 = Resolver.mk_resolved _ ctx_m LY_EVALID None 0
  /\ resolve_sample "/doit" None LYS_LEAF =
     Resolver.mk_resolved _ ctx_m LY_EDENIED (Some rpc_doit) 0
  /\ resolve_sample "/doit" None LYS_ACTION =
     Resolver.mk_resolved _ ctx_m LY_SUCCESS (Some rpc_doit) 0
  /\ resolve_sample "/c" None LYS_CONTAINER =
     Resolver.mk_resolved _ ctx_m LY_SUCCESS (Some container_top) 0
  /\ resolve_sample "/c" None LYS_INOUT =
     Resolver.mk_resolved _ ctx_m LY_EDENIED (Some container_top) 0
  /\ resolve_sample "/c" None LYS_LEAF =
     Resolver.mk_resolved _ ctx_m LY_EDENIED (Some container_top) 0.
Proof.
  assert (forall nodeid nodetype st,
             Resolver.resolve_segments sample_node sample_nodetype sample_child
               no_implement ctx_m nodeid 0 None 0%nat false
             = Some (Resolver.Exited _ st LY_SUCCESS) ->
             exists target,
               Resolver.rs_node _ st = Some target
               /\ resolve_sample nodeid None nodetype
                  = Resolver.mk_resolved _ (Resolver.rs_ctx _ st)
                      (if negb (nodetype =? 0)
                          && (Z.land (Resolver.rs_current _ st) nodetype =? 0)
                       then LY_EDENIED else LY_SUCCESS)
                      (Some target) (Resolver.rs_flag _ st)) as Hfinal.
  { intros nodeid nodetype st Hseg.
    destruct (proj2 (proj2 (lys_resolve_schema_nodeid_guards sample_node
                sample_nodetype sample_child no_implement ctx_m nodeid 0 None
                0%nat nodetype false)) st Hseg) as (target & Hnode & _ & Hret).
    exists target. split; [exact Hnode|exact Hret]. }
  split; [|split; [|split; [|split; [|split; [|split]]]]].
  - apply (proj1 (lys_resolve_schema_nodeid_guards sample_node sample_nodetype
                    sample_child no_implement ctx_m "doit" 0 None 0%nat 0 false));
      [reflexivity|vm_compute; discriminate].
  - apply (proj1 (proj2 (lys_resolve_schema_nodeid_guards sample_node sample_nodetype
                    sample_child no_implement ctx_m "/doit" 0 (Some rpc_doit)
                    0%nat 0 false)));
      [discriminate|reflexivity].
  - destruct (Hfinal "/doit" LYS_LEAF
                (Resolver.mk_state _ ctx_m (Some rpc_doit) 0 LYS_ACTION 0) eq_refl)
      as (target & [= <-] & Hret). exact Hret.
  - destruct (Hfinal "/doit" LYS_ACTION
                (Resolver.mk_state _ ctx_m (Some rpc_doit) 0 LYS_ACTION 0) eq_refl)
      as (target & [= <-] & Hret). exact Hret.
  - destruct (Hfinal "/c" LYS_CONTAINER
                (Resolver.mk_state _ ctx_m (Some container_top) 0 LYS_CONTAINER 0) eq_refl)
      as (target & [= <-] & Hret). exact Hret.
  - destruct (Hfinal "/c" LYS_INOUT
                (Resolver.mk_state _ ctx_m (Some container_top) 0 LYS_CONTAINER 0) eq_refl)
      as (target & [= <-] & Hret). exact Hret.
  - destruct (Hfinal "/c" LYS_LEAF
                (Resolver.mk_state _ ctx_m (Some container_top) 0 LYS_CONTAINER 0) eq_refl)
      as (target & [= <-] & Hret). exact Hret.
Defined.

(** Scenario S4 and its short forms on the sample tree: from the rpc doit,
    "in" stands for the input and "o" for the output. *)
Lemma rpc_segment_prefix_selects_witness :
  resolve_sample "in" (Some rpc_doit) 0 =
  Resolver.mk_resolved _ ctx_m LY_SUCCESS (Some rpc_doit) LYSC_OPT_RPC_INPUT
  /\ resolve_sample "o" (Some rpc_doit) 0 =
     Resolver.mk_resolved _ ctx_m LY_SUCCESS (Some rpc_doit) LYSC_OPT_RPC_OUTPUT.
Proof.
  split.
  - apply (proj2 (proj1 (rpc_segment_prefix_selects sample_node sample_nodetype
                    sample_child no_implement
                    (Resolver.mk_state _ ctx_m (Some rpc_doit) 0 0 0) 0%nat "in" ""
                    rpc_doit ctx_m false eq_refl eq_refl ltac:(discriminate))
                  eq_refl)).
  - apply (proj2 (proj2 (rpc_segment_prefix_selects sample_node sample_nodetype
                    sample_child no_implement
                    (Resolver.mk_state _ ctx_m (Some rpc_doit) 0 0 0) 0%nat "o" ""
                    rpc_doit ctx_m false eq_refl eq_refl ltac:(discriminate))
                  eq_refl)).
Defined.

(** The longer nodeids of the sample tree: "in/a" reaches the leaf a of
    the input like "input/a" does. *)
Lemma resolve_sample_short_input :
  resolve_sample "input/a" (Some rpc_doit) 0 =
  Resolver.mk_resolved _ ctx_m LY_SUCCESS (Some leaf_a) LYSC_OPT_RPC_INPUT
  /\ resolve_sample "in/a" (Some rpc_doit) 0 =
     Resolver.mk_resolved _ ctx_m LY_SUCCESS (Some leaf_a) LYSC_OPT_RPC_INPUT
  /\ resolve_sample "inp/a" (Some rpc_doit) 0 =
     Resolver.mk_resolved _ ctx_m LY_SUCCESS (Some leaf_a) LYSC_OPT_RPC_INPUT.
Proof. repeat split. Qed.

(** *** Outcomes of the schema-nodeid resolver *)

Lemma lys_parse_nodeid_ret id :
  fst (fst (lys_parse_nodeid id)) = LY_SUCCESS
  \/ fst (fst (lys_parse_nodeid id)) = LY_EINVAL.
Proof.
  unfold lys_parse_nodeid, lys_parse_id.
  destruct (negb (is_yangidentstartchar (peek id))); [now right|].
  destruct (code (peek _) =? code ":"%char); [|now left].
  destruct (negb (is_yangidentstartchar _)); [now right|now left].
Qed.

Section Outcomes.

Variable lysc_node : Set.
Variable node_nodetype : lysc_node -> Z.
Variable lys_child :
  option lysc_node -> handle -> string -> nat -> Z -> Z -> option lysc_node.
Variable ly_ctx_module_implement_internal : ly_ctx -> handle -> Z -> ly_ctx.

Local Abbreviation state := (resolve_state lysc_node).
Local Abbreviation select := (select_node lysc_node node_nodetype lys_child).
Local Abbreviation loop :=
  (resolve_loop lysc_node node_nodetype lys_child ly_ctx_module_implement_internal).
Local Abbreviation segments :=
  (resolve_segments lysc_node node_nodetype lys_child ly_ctx_module_implement_internal).
Local Abbreviation resolve :=
  (lys_resolve_schema_nodeid lysc_node node_nodetype lys_child
                             ly_ctx_module_implement_internal).

Lemma select_node_Some st mod_ name name_len st' :
  select st mod_ name name_len = Some st' ->
  rs_node _ st' <> None /\ rs_ctx _ st' = rs_ctx _ st.
Proof.
  unfold select_node, is_action.
  destruct (rs_node _ st) as [n|] eqn:Hn; cbn [andb].
  - destruct (_ && _); [intros [= <-]; cbn; split; congruence|].
    destruct (_ && _); [intros [= <-]; cbn; split; congruence|].
    destruct (lys_child _ _ _ _ _ _) as [child|]; [|discriminate].
    intros [= <-]. cbn. split; congruence.
  - destruct (lys_child _ _ _ _ _ _) as [child|]; [|discriminate].
    intros [= <-]. cbn. split; congruence.
Qed.

(** The ways the loop ends: by a return with not-found or a validation
    error, or with the last value of [ret], which is LY_SUCCESS only
    behind a segment that has selected a node. *)
Lemma resolve_loop_outcome fuel total nodeid_len cm implement : forall id ret st,
  (ret = LY_SUCCESS -> rs_node _ st <> None) ->
  ret = LY_SUCCESS \/ ret = LY_EVALID ->
  match loop fuel total nodeid_len cm implement id ret st with
  | Returned _ _ err _ => err = LY_ENOTFOUND \/ err = LY_EVALID
  | Exited _ st' ret' =>
    (ret' = LY_SUCCESS /\ rs_node _ st' <> None) \/ ret' = LY_EVALID \/ ret' = LY_EINVAL
  end.
Proof.
  induction fuel as [|fuel IH]; intros id ret st Hnode Hret; cbn [resolve_loop].
  - destruct Hret as [->| ->]; [left; auto|right; now left].
  - destruct (code (peek id) =? 0).
    { destruct Hret as [->| ->]; [left; auto|right; now left]. }
    pose proof (lys_parse_nodeid_ret id) as Hp.
    destruct (lys_parse_nodeid id) as [[err id'] parts]. cbn [fst] in Hp.
    destruct Hp as [->| ->]; [|right; now right].
    destruct (match np_prefix parts with Some _ => _ | None => _ end) as [m|];
      [|now left].
    destruct (select_node _ _ _ _ _ _ _) as [st2|] eqn:Hsel; [|now left].
    apply select_node_Some in Hsel as [Hsel _].
    destruct (_ || _); [left; auto|].
    destruct (negb _); [now right|].
    apply IH; [intros _; exact Hsel|now left].
Qed.

(** X4: the codes and the target of [lys_resolve_schema_nodeid]. The
    call answers LY_SUCCESS, LY_EDENIED, LY_EVALID, LY_ENOTFOUND or
    LY_EINVAL (the last one for a segment that is no node identifier); the
    target is a node exactly when the answer is LY_SUCCESS or LY_EDENIED
    (a node of a type that was not asked for is still handed back) and
    NULL after every other answer; and without a node type mask the
    answer is never LY_EDENIED. *)
Theorem lys_resolve_schema_nodeid_outcome
        ctx nodeid nodeid_len context_node context_module nodetype implement :
  let r := lys_resolve_schema_nodeid
             lysc_node node_nodetype lys_child ly_ctx_module_implement_internal
             ctx nodeid nodeid_len context_node context_module nodetype implement in
  (rr_ret _ r = LY_SUCCESS \/ rr_ret _ r = LY_EDENIED \/ rr_ret _ r = LY_EVALID
   \/ rr_ret _ r = LY_ENOTFOUND \/ rr_ret _ r = LY_EINVAL)
  /\ (rr_target _ r <> None <-> rr_ret _ r = LY_SUCCESS \/ rr_ret _ r = LY_EDENIED)
  /\ (nodetype = 0 -> rr_ret _ r <> LY_EDENIED).
Proof.
  cbv zeta. unfold lys_resolve_schema_nodeid.
  assert (forall id,
             match loop (S (String.length nodeid)) (String.length nodeid) nodeid_len
                        context_module implement id LY_EVALID
                        (mk_state _ ctx context_node 0 0 0) with
             | Returned _ _ err _ => err = LY_ENOTFOUND \/ err = LY_EVALID
             | Exited _ st' ret' =>
               (ret' = LY_SUCCESS /\ rs_node _ st' <> None)
               \/ ret' = LY_EVALID \/ ret' = LY_EINVAL
             end) as Hloop.
  { intros id. apply resolve_loop_outcome; [discriminate|now right]. }
  assert (forall o : option (loop_outcome lysc_node),
             (forall lo, o = Some lo ->
                match lo with
                | Returned _ _ err _ => err = LY_ENOTFOUND \/ err = LY_EVALID
                | Exited _ st' ret' =>
                  (ret' = LY_SUCCESS /\ rs_node _ st' <> None)
                  \/ ret' = LY_EVALID \/ ret' = LY_EINVAL
                end) ->
             let r := match o with
                      | None => mk_resolved _ ctx LY_EVALID None 0
                      | Some (Returned _ ctx err flag) => mk_resolved _ ctx err None flag
                      | Some (Exited _ st ret) =>
                        match ret with
                        | LY_SUCCESS =>
                          if negb (nodetype =? 0) && (Z.land (rs_current _ st) nodetype =? 0)
                          then mk_resolved _ (rs_ctx _ st) LY_EDENIED (rs_node _ st)
                                           (rs_flag _ st)
                          else mk_resolved _ (rs_ctx _ st) LY_SUCCESS (rs_node _ st)
                                           (rs_flag _ st)
                        | _ => mk_resolved _ (rs_ctx _ st) ret None (rs_flag _ st)
                        end
                      end in
             (rr_ret _ r = LY_SUCCESS \/ rr_ret _ r = LY_EDENIED \/ rr_ret _ r = LY_EVALID
              \/ rr_ret _ r = LY_ENOTFOUND \/ rr_ret _ r = LY_EINVAL)
             /\ (rr_target _ r <> None <-> rr_ret _ r = LY_SUCCESS \/ rr_ret _ r = LY_EDENIED)
             /\ (nodetype = 0 -> rr_ret _ r <> LY_EDENIED)) as Hcases.
  { intros [[c err flag|st ret]|] Ho; cbv zeta.
    - destruct (Ho _ eq_refl) as [->| ->]; cbn [rr_ret rr_target];
        (split; [tauto|]); (split; [|discriminate]);
        (split; [congruence|intros [H|H]; discriminate H]).
    - destruct (Ho _ eq_refl) as [[-> Hn]|[->| ->]]; cbn [rr_ret rr_target].
      + destruct (Z.eqb_spec nodetype 0) as [Hz|Hz]; cbn [negb andb].
        * cbn [rr_ret rr_target]. split; [tauto|]. split; [tauto|discriminate].
        * destruct (Z.land _ _ =? 0); cbn [rr_ret rr_target];
            (split; [tauto|]); (split; [tauto|]); congruence.
      + split; [tauto|]. split; [|discriminate].
        split; [congruence|intros [H|H]; discriminate H].
      + split; [tauto|]. split; [|discriminate].
        split; [congruence|intros [H|H]; discriminate H].
    - cbn [rr_ret rr_target]. split; [tauto|]. split; [|discriminate].
      split; [congruence|intros [H|H]; discriminate H]. }
  apply Hcases. unfold resolve_segments. intros lo.
  destruct context_node; destruct (code (peek nodeid) =? code "/"%char); cbn [negb];
    try discriminate; intros [= <-]; apply Hloop.
Qed.

(** The loop leaves the context alone unless it is to make modules
    implemented. *)
Lemma resolve_loop_ctx fuel total nodeid_len cm : forall id ret st,
  match loop fuel total nodeid_len cm false id ret st with
  | Returned _ c _ _ => c = rs_ctx _ st
  | Exited _ st' _ => rs_ctx _ st' = rs_ctx _ st
  end.
Proof.
  induction fuel as [|fuel IH]; intros id ret st; cbn [resolve_loop]; [reflexivity|].
  destruct (code (peek id) =? 0); [reflexivity|].
  destruct (lys_parse_nodeid id) as [[err id'] parts].
  destruct err; try reflexivity.
  destruct (match np_prefix parts with Some _ => _ | None => _ end) as [m|];
    [|reflexivity].
  cbn [andb].
  destruct (select_node _ _ _ _ _ _ _) as [st2|] eqn:Hsel; [|reflexivity].
  apply select_node_Some in Hsel as [_ Hsel]. cbn [rs_ctx] in Hsel.
  destruct (_ || _); [exact Hsel|].
  destruct (negb _); [exact Hsel|].
  specialize (IH (next id') LY_SUCCESS st2).
  destruct (resolve_loop _ _ _ _ _ _ _ _ _ _ _ _); congruence.
Qed.

(** X5: a call without the implement flag never changes the context:
    whatever the nodeid and however the call ends, the context it leaves
    is the one it was given (the call that makes a module implemented is
    the only change the resolver ever makes). *)
Theorem lys_resolve_schema_nodeid_keeps_context
        ctx nodeid nodeid_len context_node context_module nodetype :
  rr_ctx _ (lys_resolve_schema_nodeid
              lysc_node node_nodetype lys_child ly_ctx_module_implement_internal
              ctx nodeid nodeid_len context_node context_module nodetype false)
  = ctx.
Proof.
  unfold lys_resolve_schema_nodeid, resolve_segments.
  assert (forall id,
             match loop (S (String.length nodeid)) (String.length nodeid) nodeid_len
                        context_module false id LY_EVALID
                        (mk_state _ ctx context_node 0 0 0) with
             | Returned _ c _ _ => c = ctx
             | Exited _ st' _ => rs_ctx _ st' = ctx
             end) as Hloop.
  { intros id. apply (resolve_loop_ctx _ _ _ _ id LY_EVALID (mk_state _ ctx context_node 0 0 0)). }
  destruct context_node; destruct (code (peek nodeid) =? code "/"%char); cbn [negb];
    try reflexivity.
  - specialize (Hloop nodeid).
    destruct (resolve_loop _ _ _ _ _ _ _ _ _ _ _ _) as [c err flag|st ret];
      [exact Hloop|].
    destruct ret; try exact Hloop. destruct (_ && _); exact Hloop.
  - specialize (Hloop (next nodeid)).
    destruct (resolve_loop _ _ _ _ _ _ _ _ _ _ _ _) as [c err flag|st ret];
      [exact Hloop|].
    destruct ret; try exact Hloop. destruct (_ && _); exact Hloop.
Qed.

(** X6: the two answers to a nodeid that is no path. Where the first
    segment should start, the end of the input is an unexpected end of
    the expression, LY_EVALID; a byte that cannot start an identifier
    makes the call return the code of the identifier parser, LY_EINVAL.
    Both leave the context alone and hand back no node and no flag; this
    holds of a descendant nodeid (with a context node) and of what
    follows the slash of an absolute one. *)
Theorem lys_resolve_schema_nodeid_malformed
        ctx nodeid nodeid_len context_node context_module nodetype implement :
  let path := match context_node with Some _ => nodeid | None => next nodeid end in
  (match context_node with
   | Some _ => code (peek nodeid) <> code "/"%char
   | None => code (peek nodeid) = code "/"%char
   end) ->
  is_yangidentstartchar (peek path) = false ->
  resolve ctx nodeid nodeid_len context_node context_module nodetype implement =
  mk_resolved _ ctx (if code (peek path) =? 0 then LY_EVALID else LY_EINVAL) None 0.
Proof.
  cbv zeta. intros Hkind Hstart.
  unfold lys_resolve_schema_nodeid, resolve_segments.
  destruct context_node as [n|].
  - apply Z.eqb_neq in Hkind. rewrite Hkind. cbn [resolve_loop].
    destruct (code (peek nodeid) =? 0); [reflexivity|].
    unfold lys_parse_nodeid, lys_parse_id. rewrite Hstart. reflexivity.
  - apply Z.eqb_eq in Hkind. rewrite Hkind. cbn [negb resolve_loop].
    destruct (code (peek (next nodeid)) =? 0); [reflexivity|].
    unfold lys_parse_nodeid, lys_parse_id. rewrite Hstart. reflexivity.
Qed.

End Outcomes.

(** On the sample tree: without a mask the container c is not denied. *)
Lemma lys_resolve_schema_nodeid_outcome_witness :
  Resolver.rr_ret _ (resolve_sample "/c" None 0) <> LY_EDENIED.
Proof.
  exact (proj2 (proj2 (lys_resolve_schema_nodeid_outcome
                         sample_node sample_nodetype sample_child no_implement
                         ctx_m "/c" 0 None 0%nat 0 false)) eq_refl).
Defined.

(** On the sample tree: no nodeid at all, a nodeid that starts with a
    digit, and the root alone. *)
Lemma lys_resolve_schema_nodeid_malformed_witness :
  resolve_sample "" (Some rpc_doit) 0 = Resolver.mk_resolved _ ctx_m LY_EVALID None 0
  /\ resolve_sample "9x" (Some rpc_doit) 0 = Resolver.mk_resolved _ ctx_m LY_EINVAL None 0
  /\ resolve_sample "/" None 0 = Resolver.mk_resolved _ ctx_m LY_EVALID None 0.
Proof.
  split; [|split].
  - apply (lys_resolve_schema_nodeid_malformed sample_node sample_nodetype sample_child
             no_implement ctx_m "" 0 (Some rpc_doit) 0%nat 0 false);
      [vm_compute; discriminate|reflexivity].
  - apply (lys_resolve_schema_nodeid_malformed sample_node sample_nodetype sample_child
             no_implement ctx_m "9x" 0 (Some rpc_doit) 0%nat 0 false);
      [vm_compute; discriminate|reflexivity].
  - apply (lys_resolve_schema_nodeid_malformed sample_node sample_nodetype sample_child
             no_implement ctx_m "/" 0 None 0%nat 0 false); reflexivity.
Defined.

End ResolverFacts.

(** ** Keyword recognition *)

Module KeywordsFacts.
Import Keywords CStrFacts TypesFacts.

Lemma keywords_recognised spelling kw :
  In (spelling, kw) keywords -> match_keyword spelling (String.length spelling) 0 = kw.
Proof.
  intros Hin.
  assert (forallb (fun '(s, k) => bool_decide (match_keyword s (String.length s) 0 = k))
                  keywords = true) as Hall by (vm_compute; reflexivity).
  rewrite forallb_forall in Hall. specialize (Hall _ Hin). cbv beta iota in Hall.
  now apply bool_decide_eq_true_1 in Hall.
Qed.

Lemma length_append s t :
  String.length (s +:+ t) = (String.length s + String.length t)%nat.
Proof.
  induction s as [|c s IH]; [reflexivity|].
  rewrite append_cons. cbn [String.length]. now rewrite IH.
Qed.

Lemma advance_append lit rest : advance (lit +:+ rest) (String.length lit) = rest.
Proof.
  induction lit as [|c lit IH]; [reflexivity|].
  rewrite append_cons. cbn [String.length advance next]. exact IH.
Qed.

Lemma append_assoc s t u : (s +:+ t) +:+ u = s +:+ (t +:+ u).
Proof.
  induction s as [|c s IH]; [reflexivity|]. rewrite !append_cons. now rewrite IH.
Qed.

Lemma chain_exact_END pre : chain_exact pre END.
Proof. intros data. now left. Qed.

Lemma chain_exact_IF_KEYWORD pre lit stmt otherwise :
  no_nul lit -> In (pre +:+ lit, stmt) keywords -> chain_exact pre otherwise ->
  chain_exact pre (IF_KEYWORD lit (String.length lit) stmt otherwise).
Proof.
  intros Hn Hin Ho data. unfold IF_KEYWORD. cbn [ks_data].
  destruct (strncmp data lit (String.length lit) =? 0) eqn:E; [|apply Ho].
  destruct (strncmp_is_inv _ _ E Hn) as [tail ->].
  right. exists lit, tail. cbn [ks_data ks_kw]. rewrite advance_append. auto.
Qed.

Lemma chain_exact_IF_KEYWORD_PREFIX pre lit body otherwise :
  no_nul lit -> chain_exact (pre +:+ lit) body -> chain_exact pre otherwise ->
  chain_exact pre (IF_KEYWORD_PREFIX lit (String.length lit) body otherwise).
Proof.
  intros Hn Hb Ho data. unfold IF_KEYWORD_PREFIX, MOVE_IN. cbn [ks_data ks_kw].
  destruct (strncmp data lit (String.length lit) =? 0) eqn:E; [|apply Ho].
  destruct (strncmp_is_inv _ _ E Hn) as [tail ->]. rewrite advance_append.
  destruct (Hb tail) as [Hnone|(lit2 & tail2 & -> & Hd & Hin)]; [now left|].
  right. exists (lit +:+ lit2), tail2. rewrite append_assoc in Hin.
  rewrite append_assoc. auto.
Qed.

Lemma In_keywords spelling kw :
  bool_decide ((spelling, kw) ∈ keywords) = true -> In (spelling, kw) keywords.
Proof. intros H. apply list_elem_of_In. now apply bool_decide_eq_true_1 in H. Qed.

Ltac chain_exact_tac :=
  repeat first
         [ apply chain_exact_END
         | apply chain_exact_IF_KEYWORD;
           [reflexivity|apply In_keywords; vm_compute; reflexivity|]
         | apply chain_exact_IF_KEYWORD_PREFIX; [reflexivity| |] ].

Lemma keyword_cases_exact :
  Forall (fun '(label, body) => chain_exact (String label EmptyString) body) keyword_cases.
Proof.
  unfold keyword_cases. repeat (apply Forall_cons; split; [chain_exact_tac|]).
  apply Forall_nil. exact I.
Qed.

Lemma switch_cases {A} c (cases : list (ascii * A)) default :
  switch c cases default = default
  \/ exists body, In (c, body) cases /\ switch c cases default = body.
Proof.
  induction cases as [|[label body] cases IH]; cbn [switch]; [now left|].
  destruct (Ascii.eqb c label) eqn:E.
  - apply Ascii.eqb_eq in E. subst label. right. exists body. split; [now left|reflexivity].
  - destruct IH as [IH|(b & Hin & Hb)]; [now left|].
    right. exists b. split; [now right|exact Hb].
Qed.

Lemma match_keyword_inv data len kw :
  match_keyword data len 0 = kw -> kw <> YANG_NONE ->
  exists spelling rest,
    In (spelling, kw) keywords /\ data = spelling +:+ rest /\ String.length spelling = len.
Proof.
  intros H Hne. unfold match_keyword in H. cbn [Nat.eqb negb] in H. cbv zeta in H.
  destruct (switch_cases (peek data)
              (map (fun '(label, body) => (label, fun st => body (MOVE_IN 1 st)))
                   keyword_cases) END) as [Hd|(body' & Hin & Hs)].
  - rewrite Hd in H. unfold END in H. cbn [ks_data ks_kw] in H.
    destruct (Nat.eqb _ _); congruence.
  - rewrite Hs in H. clear Hs.
    apply in_map_iff in Hin as ([label body] & Heq & Hin).
    injection Heq as Hl <-.
    pose proof keyword_cases_exact as Hex. rewrite Forall_forall in Hex.
    apply list_elem_of_In in Hin. specialize (Hex _ Hin). cbv beta iota in Hex.
    destruct data as [|c rest].
    + exfalso. cbn [peek] in Hl. subst label. clear -Hin.
      apply list_elem_of_In in Hin. unfold keyword_cases in Hin. cbn [In] in Hin.
      repeat destruct Hin as [Hin|Hin]; try discriminate Hin. exact Hin.
    + cbn [peek] in Hl. subst label. unfold MOVE_IN in H. cbn [ks_data ks_kw advance next] in H.
      destruct (Hex rest) as [Hnone|(lit & tail & -> & Hd & Hk)].
      * rewrite Hnone in H. destruct (Nat.eqb _ _); congruence.
      * rewrite Hd in H.
        destruct (Nat.eqb _ _) eqn:E; [|congruence].
        apply Nat.eqb_eq in E. unfold ptr_diff in E.
        cbn [String.length] in E. rewrite length_append in E.
        subst kw. exists (String c lit), tail.
        split; [exact Hk|]. split; [reflexivity|]. cbn [String.length]. lia.
Qed.

(** C8: every call with a prefix yields the tag of a custom extension;
    without a prefix, a keyword tag is returned only for data that start
    with the whole spelling of that keyword, whose length is the length
    supplied, and everything else yields YANG_NONE; each keyword handed
    over with its own length is recognised; "leaf-list" of length 9 is the
    leaf-list, "leaf" of length 4 the leaf, "leafx" of length 5 nothing. *)
Theorem match_keyword_exact :
  (forall data len prefix_len,
      prefix_len <> 0%nat -> match_keyword data len prefix_len = YANG_CUSTOM)
  /\ (forall data len kw,
        match_keyword data len 0 = kw -> kw <> YANG_NONE ->
        exists spelling rest,
          In (spelling, kw) keywords /\ data = spelling +:+ rest
          /\ String.length spelling = len)
  /\ (forall spelling kw,
        In (spelling, kw) keywords ->
        match_keyword spelling (String.length spelling) 0 = kw)
  /\ match_keyword "leaf-list" 9 0 = YANG_LEAF_LIST
  /\ match_keyword "leaf" 4 0 = YANG_LEAF
  /\ match_keyword "leafx" 5 0 = YANG_NONE.
Proof.
  split; [|split; [exact match_keyword_inv|split; [exact keywords_recognised|]]].
  - intros data len prefix_len Hp. unfold match_keyword.
    destruct prefix_len; [congruence|reflexivity].
  - repeat split; vm_compute; reflexivity.
Qed.

(** The tag of "leaf-list" needs all nine bytes: four bytes of it are not
    the leaf. *)
Lemma match_keyword_exact_witness :
  match_keyword "x" 1 3 = YANG_CUSTOM
  /\ (exists spelling rest,
        In (spelling, YANG_LEAF) keywords /\ "leaf {" = spelling +:+ rest
        /\ String.length spelling = 4%nat)
  /\ match_keyword "anydata" 7 0 = YANG_ANYDATA.
Proof.
  split; [|split].
  - apply (proj1 match_keyword_exact "x" 1%nat 3%nat). discriminate.
  - apply (proj1 (proj2 match_keyword_exact) "leaf {" 4%nat YANG_LEAF);
      [vm_compute; reflexivity|discriminate].
  - apply (proj1 (proj2 (proj2 match_keyword_exact)) "anydata" YANG_ANYDATA).
    apply In_keywords. vm_compute. reflexivity.
Defined.

(** *** Keywords followed by more data *)

Lemma match_keyword_scan data len :
  match_keyword data len 0 =
  if Nat.eqb (ptr_diff (ks_data (keyword_scan data)) data) len
  then ks_kw (keyword_scan data) else YANG_NONE.
Proof. reflexivity. Qed.

Lemma ptr_diff_append lit rest : ptr_diff rest (lit +:+ rest) = String.length lit.
Proof. unfold ptr_diff. rewrite length_append. lia. Qed.

Lemma strncmp_prefix lit : no_nul lit -> forall s,
  (strncmp s lit (String.length lit) =? 0) = String.prefix lit s.
Proof.
  unfold no_nul. induction lit as [|c lit IH]; intros Hn s; [now destruct s|].
  cbn [upto_nul] in Hn. destruct (code c =? 0) eqn:Hc; [discriminate|].
  injection Hn as Hn. cbn [String.length]. rewrite strncmp_S. cbn [peek next].
  destruct s as [|d s]; cbn [peek next String.prefix].
  - change (code NUL) with 0. rewrite (Z.eqb_sym 0 (code c)), Hc. cbn [negb].
    apply Z.eqb_neq. apply Z.eqb_neq in Hc. lia.
  - destruct (ascii_dec c d) as [<-|Hne].
    + rewrite Z.eqb_refl, Hc. cbn [negb]. now apply IH.
    + destruct (Z.eqb_spec (code d) (code c)) as [E|E]; cbn [negb].
      * apply code_inj in E. congruence.
      * apply Z.eqb_neq. lia.
Qed.

Lemma prefix_split lit : forall s,
  String.prefix lit s = true -> exists more, s = lit +:+ more.
Proof.
  induction lit as [|c lit IH]; intros s H; [now exists s|].
  destruct s as [|d s]; [discriminate|]. cbn [String.prefix] in H.
  destruct (ascii_dec c d) as [<-|]; [|discriminate].
  destruct (IH s H) as [more ->]. now exists more.
Qed.

(** The scan of a keyword that no longer keyword goes on from stops
    behind the keyword, whatever follows. *)
Lemma keyword_scan_plain spelling kw rest :
  In (spelling, kw) keywords ->
  existsb (fun '(short, _) => String.eqb short spelling) keyword_extensions = false ->
  keyword_scan (spelling +:+ rest) = mk_kw rest kw.
Proof.
  intros Hin Hplain. cbn [In keywords] in Hin.
  repeat destruct Hin as [[= <- <-]|Hin]; try destruct Hin;
    try discriminate Hplain; reflexivity.
Qed.

(** The three keywords a longer keyword goes on from: the longer one is
    tried first, on all the bytes it has. *)
Lemma keyword_scan_leaf rest :
  keyword_scan ("leaf" +:+ rest) =
  if String.prefix "-list" rest
  then mk_kw (advance rest 5) YANG_LEAF_LIST else mk_kw rest YANG_LEAF.
Proof.
  change (keyword_scan ("leaf" +:+ rest))
    with (IF_KEYWORD "af-list" 7 YANG_LEAF_LIST
            (IF_KEYWORD "af" 2 YANG_LEAF (IF_KEYWORD "ngth" 4 YANG_LENGTH END))
            (mk_kw ("af" +:+ rest) YANG_NONE)).
  unfold IF_KEYWORD at 1. cbn [ks_data].
  rewrite (strncmp_prefix "af-list" eq_refl).
  change (String.prefix "af-list" ("af" +:+ rest)) with (String.prefix "-list" rest).
  destruct (String.prefix "-list" rest); reflexivity.
Qed.

Lemma keyword_scan_type rest :
  keyword_scan ("type" +:+ rest) =
  if String.prefix "def" rest
  then mk_kw (advance rest 3) YANG_TYPEDEF else mk_kw rest YANG_TYPE.
Proof.
  change (keyword_scan ("type" +:+ rest))
    with (IF_KEYWORD "ypedef" 6 YANG_TYPEDEF (IF_KEYWORD "ype" 3 YANG_TYPE END)
            (mk_kw ("ype" +:+ rest) YANG_NONE)).
  unfold IF_KEYWORD at 1. cbn [ks_data].
  rewrite (strncmp_prefix "ypedef" eq_refl).
  change (String.prefix "ypedef" ("ype" +:+ rest)) with (String.prefix "def" rest).
  destruct (String.prefix "def" rest); reflexivity.
Qed.

Lemma keyword_scan_revision rest :
  keyword_scan ("revision" +:+ rest) =
  if String.prefix "-date" rest
  then mk_kw (advance rest 5) YANG_REVISION_DATE else mk_kw rest YANG_REVISION.
Proof.
  change (keyword_scan ("revision" +:+ rest))
    with (IF_KEYWORD "vision-date" 11 YANG_REVISION_DATE
            (IF_KEYWORD "vision" 6 YANG_REVISION END)
            (mk_kw ("vision" +:+ rest) YANG_NONE)).
  unfold IF_KEYWORD at 1. cbn [ks_data].
  rewrite (strncmp_prefix "vision-date" eq_refl).
  change (String.prefix "vision-date" ("vision" +:+ rest))
    with (String.prefix "-date" rest).
  destruct (String.prefix "-date" rest); reflexivity.
Qed.

Lemma keyword_of_spelling spelling kw kw' :
  In (spelling, kw) keywords -> In (spelling, kw') keywords -> kw = kw'.
Proof.
  intros H H'. apply keywords_recognised in H, H'. congruence.
Qed.

(** X24: the length handed to [match_keyword] does not end the data. A
    keyword at the start of the data, handed over with its own length, is
    recognised whatever follows it, with three exceptions: "leaf" followed
    by "-list", "type" followed by "def" and "revision" followed by
    "-date" are YANG_NONE, since the longer keyword is matched on the
    bytes behind the length and the length then does not fit. *)
Theorem match_keyword_followed spelling kw rest :
  In (spelling, kw) keywords ->
  match_keyword (spelling +:+ rest) (String.length spelling) 0 =
  if extended spelling rest then YANG_NONE else kw.
Proof.
  intros Hin. rewrite match_keyword_scan. unfold extended.
  destruct (existsb (fun '(short, _) => String.eqb short spelling) keyword_extensions)
    eqn:Hplain.
  - cbn [existsb keyword_extensions] in Hplain |- *.
    destruct (String.eqb_spec "leaf" spelling) as [<-|_];
      [|destruct (String.eqb_spec "type" spelling) as [<-|_];
        [|destruct (String.eqb_spec "revision" spelling) as [<-|_];
          [|discriminate Hplain]]]; cbn [andb orb].
    + rewrite (keyword_of_spelling _ _ YANG_LEAF Hin) by (apply In_keywords; reflexivity).
      rewrite keyword_scan_leaf.
      destruct (String.prefix "-list" rest) eqn:Hp; cbn [ks_data ks_kw orb].
      * apply prefix_split in Hp as [more ->].
        change (advance ("-list" +:+ more) 5) with more.
        change ("leaf" +:+ "-list" +:+ more) with ("leaf-list" +:+ more).
        now rewrite ptr_diff_append.
      * now rewrite ptr_diff_append.
    + rewrite (keyword_of_spelling _ _ YANG_TYPE Hin) by (apply In_keywords; reflexivity).
      rewrite keyword_scan_type.
      destruct (String.prefix "def" rest) eqn:Hp; cbn [ks_data ks_kw orb].
      * apply prefix_split in Hp as [more ->].
        change (advance ("def" +:+ more) 3) with more.
        change ("type" +:+ "def" +:+ more) with ("typedef" +:+ more).
        now rewrite ptr_diff_append.
      * now rewrite ptr_diff_append.
    + rewrite (keyword_of_spelling _ _ YANG_REVISION Hin)
        by (apply In_keywords; reflexivity).
      rewrite keyword_scan_revision.
      destruct (String.prefix "-date" rest) eqn:Hp; cbn [ks_data ks_kw orb].
      * apply prefix_split in Hp as [more ->].
        change (advance ("-date" +:+ more) 5) with more.
        change ("revision" +:+ "-date" +:+ more) with ("revision-date" +:+ more).
        now rewrite ptr_diff_append.
      * now rewrite ptr_diff_append.
  - rewrite (keyword_scan_plain _ _ _ Hin Hplain). cbn [ks_data ks_kw].
    rewrite ptr_diff_append, Nat.eqb_refl.
    cbn [existsb keyword_extensions] in Hplain |- *.
    apply orb_false_elim in Hplain as [-> Hplain].
    apply orb_false_elim in Hplain as [-> Hplain].
    apply orb_false_elim in Hplain as [-> _]. reflexivity.
Qed.

(** "leaf" in front of a blank is the leaf; the first four bytes of
    "leaf-list" are not. *)
Lemma match_keyword_followed_witness :
  match_keyword "leaf x" 4 0 = YANG_LEAF
  /\ match_keyword "leaf-list x" 4 0 = YANG_NONE
  /\ match_keyword "container{" 9 0 = YANG_CONTAINER.
Proof.
  split; [|split].
  - apply (match_keyword_followed "leaf" YANG_LEAF " x"). apply In_keywords. reflexivity.
  - apply (match_keyword_followed "leaf" YANG_LEAF "-list x"). apply In_keywords.
    reflexivity.
  - apply (match_keyword_followed "container" YANG_CONTAINER "{"). apply In_keywords.
    reflexivity.
Defined.

(** *** Tags and spellings *)

Lemma keyword_spelling_table spelling kw :
  In (spelling, kw) keywords -> keyword_spelling kw = Some spelling.
Proof.
  intros Hin.
  assert (forallb (fun '(s, k) => bool_decide (keyword_spelling k = Some s)) keywords
          = true) as Hall by (vm_compute; reflexivity).
  rewrite forallb_forall in Hall. specialize (Hall _ Hin). cbv beta iota in Hall.
  now apply bool_decide_eq_true_1 in Hall.
Qed.

Lemma substring_append s rest : substring 0 (String.length s) (s +:+ rest) = s.
Proof.
  induction s as [|c s IH]; [now destruct rest|].
  rewrite append_cons. cbn [String.length substring]. now rewrite IH.
Qed.

(** X25: a keyword tag tells the bytes it was recognised from. When two
    calls of [match_keyword] answer the same tag (other than YANG_NONE
    and without prefix), the two lengths are equal and the data agree on
    that many bytes, which are the spelling of the keyword: no keyword has
    two spellings. *)
Theorem match_keyword_same_tag data1 len1 data2 len2 kw :
  kw <> YANG_NONE ->
  match_keyword data1 len1 0 = kw -> match_keyword data2 len2 0 = kw ->
  len1 = len2
  /\ substring 0 len1 data1 = substring 0 len2 data2
  /\ keyword_spelling kw = Some (substring 0 len1 data1).
Proof.
  intros Hkw H1 H2.
  destruct (match_keyword_inv _ _ _ H1 Hkw) as (s1 & r1 & Hin1 & -> & <-).
  destruct (match_keyword_inv _ _ _ H2 Hkw) as (s2 & r2 & Hin2 & -> & <-).
  apply keyword_spelling_table in Hin1, Hin2.
  assert (s1 = s2) as <- by congruence.
  rewrite !substring_append. auto.
Qed.

Lemma match_keyword_same_tag_witness :
  4%nat = 4%nat
  /\ substring 0 4 "type string;" = substring 0 4 "type{"
  /\ keyword_spelling YANG_TYPE = Some (substring 0 4 "type string;").
Proof.
  apply (match_keyword_same_tag "type string;" 4 "type{" 4 YANG_TYPE);
    [discriminate|reflexivity|reflexivity].
Defined.

End KeywordsFacts.

(** ** Identifiers and node identifiers *)

Module LexicalFacts.
Import Lexical CStrFacts TypesFacts KeywordsFacts.

(** The loop over the identifier characters stops in front of the first
    byte that is none, and has passed identifier characters only. *)
Lemma skip_identchars_split id :
  exists run,
    id = run +:+ skip_identchars id /\ all_identchars run = true
    /\ is_yangidentchar (peek (skip_identchars id)) = false.
Proof.
  induction id as [|c id (run & Hid & Hrun & Hstop)].
  - exists EmptyString. repeat split.
  - cbn [skip_identchars]. destruct (is_yangidentchar c) eqn:Hc.
    + exists (String c run). rewrite append_cons, <- Hid.
      cbn [all_identchars]. rewrite Hc, Hrun. repeat split. exact Hstop.
    + exists EmptyString. rewrite append_nil. cbn [peek all_identchars]. auto.
Qed.

Lemma skip_identchars_app run rest :
  all_identchars run = true -> is_yangidentchar (peek rest) = false ->
  skip_identchars (run +:+ rest) = rest.
Proof.
  intros Hrun Hrest. induction run as [|c run IH].
  - rewrite append_nil. destruct rest as [|d rest]; [reflexivity|].
    cbn [skip_identchars peek] in *. now rewrite Hrest.
  - cbn [all_identchars] in Hrun. apply andb_prop in Hrun as [Hc Hrun].
    rewrite append_cons. cbn [skip_identchars]. rewrite Hc. now apply IH.
Qed.

Lemma lys_parse_id_app ident rest :
  is_identifier ident = true -> is_yangidentchar (peek rest) = false ->
  lys_parse_id (ident +:+ rest) = (LY_SUCCESS, rest).
Proof.
  destruct ident as [|c ident]; [discriminate|]. cbn [is_identifier].
  intros [Hc Hrun]%andb_prop Hrest. unfold lys_parse_id.
  rewrite append_cons. cbn [peek next]. rewrite Hc. cbn [negb].
  now rewrite skip_identchars_app.
Qed.

(** The two ways a call of [lys_parse_id] can end. *)
Lemma lys_parse_id_split id :
  (is_yangidentstartchar (peek id) = false /\ lys_parse_id id = (LY_EINVAL, id))
  \/ (exists ident rest,
        id = ident +:+ rest /\ is_identifier ident = true
        /\ is_yangidentchar (peek rest) = false
        /\ lys_parse_id id = (LY_SUCCESS, rest)
        /\ ptr_diff rest id = String.length ident).
Proof.
  unfold lys_parse_id.
  destruct (is_yangidentstartchar (peek id)) eqn:Hs; cbn [negb]; [right|left; auto].
  destruct id as [|c id]; [discriminate Hs|]. cbn [peek next] in *.
  destruct (skip_identchars_split id) as (run & Hid & Hrun & Hstop).
  exists (String c run), (skip_identchars id).
  rewrite append_cons, <- Hid. cbn [is_identifier]. rewrite Hs, Hrun.
  repeat split; [exact Hstop|].
  unfold ptr_diff. rewrite Hid at 1. cbn [String.length].
  rewrite length_append. lia.
Qed.

(** Of two splits of the same string, the longer first part goes on with
    the first byte of the shorter one's rest. *)
Lemma append_longer s : forall s' rest rest',
  s +:+ rest = s' +:+ rest' -> (String.length s < String.length s')%nat ->
  exists more, s' = s +:+ String (peek rest) more.
Proof.
  induction s as [|c s IH]; intros s' rest rest' Heq Hlen.
  - destruct s' as [|d s']; [cbn in Hlen; lia|].
    rewrite append_nil, append_cons in Heq. subst rest. now exists s'.
  - destruct s' as [|d s']; [cbn in Hlen; lia|].
    rewrite !append_cons in Heq. injection Heq as <- Heq.
    cbn [String.length] in Hlen.
    destruct (IH s' rest rest' Heq ltac:(lia)) as [more ->].
    exists more. now rewrite append_cons.
Qed.

Lemma all_identchars_app s c more :
  all_identchars (s +:+ String c more) = true -> is_yangidentchar c = true.
Proof.
  induction s as [|d s IH].
  - rewrite append_nil. cbn [all_identchars]. now intros [H _]%andb_prop.
  - rewrite append_cons. cbn [all_identchars]. intros [_ H]%andb_prop. now apply IH.
Qed.

Lemma is_identifier_identchars s : is_identifier s = true -> all_identchars s = true.
Proof.
  destruct s as [|c s]; [discriminate|]. cbn [is_identifier all_identchars].
  intros [Hc ->]%andb_prop. rewrite andb_true_r.
  unfold is_yangidentstartchar in Hc. unfold is_yangidentchar.
  apply orb_prop in Hc as [-> | ->]; [reflexivity|]. now rewrite !orb_true_r.
Qed.

(** X1: [lys_parse_id] refuses an input whose first byte cannot start an
    identifier, with LY_EINVAL and without moving the cursor; on every
    other input it succeeds and passes exactly the longest prefix of the
    input that is an identifier: the cursor stops in front of a byte that
    is no identifier character, and no identifier the input starts with is
    longer than what was passed. *)
Theorem lys_parse_id_longest_identifier id :
  (is_yangidentstartchar (peek id) = false /\ lys_parse_id id = (LY_EINVAL, id))
  \/ (exists ident rest,
        id = ident +:+ rest /\ is_identifier ident = true
        /\ lys_parse_id id = (LY_SUCCESS, rest)
        /\ ptr_diff rest id = String.length ident
        /\ forall ident' rest',
             id = ident' +:+ rest' -> is_identifier ident' = true ->
             (String.length ident' <= String.length ident)%nat).
Proof.
  destruct (lys_parse_id_split id)
    as [H|(ident & rest & Hid & Hident & Hstop & Hret & Hlen)]; [now left|right].
  exists ident, rest. repeat split; try assumption.
  intros ident' rest' Hid' Hident'.
  destruct (Nat.le_gt_cases (String.length ident') (String.length ident)) as [Hle|Hgt];
    [exact Hle|exfalso].
  rewrite Hid in Hid'.
  destruct (append_longer _ _ _ _ Hid' Hgt) as [more ->].
  apply is_identifier_identchars, all_identchars_app in Hident'. congruence.
Qed.

(** Joining and splitting a node identifier. *)
Lemma lys_parse_nodeid_join prefix name rest :
  is_identifier prefix = true -> is_identifier name = true ->
  is_yangidentchar (peek rest) = false ->
  lys_parse_nodeid (prefix +:+ ":" +:+ name +:+ rest) =
    (LY_SUCCESS, rest,
     mk_parts (Some (prefix +:+ ":" +:+ name +:+ rest)) (String.length prefix)
              (Some (name +:+ rest)) (String.length name))
  /\ (code (peek rest) <> code ":"%char ->
      lys_parse_nodeid (name +:+ rest) =
        (LY_SUCCESS, rest, mk_parts None 0 (Some (name +:+ rest)) (String.length name))).
Proof.
  intros Hp Hn Hrest. unfold lys_parse_nodeid. split.
  - rewrite (lys_parse_id_app prefix) by (exact Hp || reflexivity).
    rewrite append_cons, append_nil. cbn [peek next]. rewrite Z.eqb_refl.
    rewrite (lys_parse_id_app name rest Hn Hrest).
    unfold ptr_diff. rewrite !length_append. cbn [String.length].
    rewrite !length_append. repeat f_equal; lia.
  - intros Hc. rewrite (lys_parse_id_app name rest Hn Hrest).
    apply Z.eqb_neq in Hc. rewrite Hc.
    unfold ptr_diff. rewrite !length_append. repeat f_equal; lia.
Qed.

(** X2: [lys_parse_nodeid] splits what it is given back into the parts it
    was joined from: a prefix, a colon and a name (each an identifier)
    followed by a byte that cannot continue the name give the two lengths,
    the name pointer behind the colon and the cursor behind the name; a
    name alone, not followed by a colon, gives no prefix. *)
Theorem lys_parse_nodeid_round_trip prefix name rest :
  is_identifier prefix = true -> is_identifier name = true ->
  is_yangidentchar (peek rest) = false ->
  lys_parse_nodeid (prefix +:+ ":" +:+ name +:+ rest) =
    (LY_SUCCESS, rest,
     mk_parts (Some (prefix +:+ ":" +:+ name +:+ rest)) (String.length prefix)
              (Some (name +:+ rest)) (String.length name))
  /\ (code (peek rest) <> code ":"%char ->
      lys_parse_nodeid (name +:+ rest) =
        (LY_SUCCESS, rest, mk_parts None 0 (Some (name +:+ rest)) (String.length name))).
Proof. exact (lys_parse_nodeid_join prefix name rest). Qed.

Lemma lys_parse_nodeid_round_trip_witness :
  lys_parse_nodeid "ns:leaf/next" =
    (LY_SUCCESS, "/next", mk_parts (Some "ns:leaf/next") 2 (Some "leaf/next") 4)
  /\ lys_parse_nodeid "leaf/next" =
     (LY_SUCCESS, "/next", mk_parts None 0 (Some "leaf/next") 4).
Proof.
  pose proof (lys_parse_nodeid_round_trip "ns" "leaf" "/next" eq_refl eq_refl eq_refl)
    as [H1 H2].
  split; [exact H1|]. apply H2. vm_compute. discriminate.
Defined.

(** X3: the four ways a call of [lys_parse_nodeid] can end. It fails only
    with LY_EINVAL: at a first byte that cannot start an identifier (the
    cursor stays), or behind the colon of a prefix when no identifier
    follows (the cursor stays behind the colon). When it succeeds, the
    input starts with [prefix:name] or with [name], the parts are
    identifiers of the lengths answered, the prefix pointer is the start of
    the input or NULL, and the cursor stands behind the name in front of a
    byte that is no identifier character. *)
Theorem lys_parse_nodeid_cases id :
  (is_yangidentstartchar (peek id) = false
   /\ lys_parse_nodeid id = (LY_EINVAL, id, mk_parts (Some id) 0 None 0))
  \/ (exists prefix tail,
        id = prefix +:+ ":" +:+ tail /\ is_identifier prefix = true
        /\ is_yangidentstartchar (peek tail) = false
        /\ lys_parse_nodeid id =
           (LY_EINVAL, tail, mk_parts (Some id) (String.length prefix) (Some tail) 0))
  \/ (exists prefix name rest,
        id = prefix +:+ ":" +:+ name +:+ rest
        /\ is_identifier prefix = true /\ is_identifier name = true
        /\ is_yangidentchar (peek rest) = false
        /\ lys_parse_nodeid id =
           (LY_SUCCESS, rest,
            mk_parts (Some id) (String.length prefix) (Some (name +:+ rest))
                     (String.length name)))
  \/ (exists name rest,
        id = name +:+ rest /\ is_identifier name = true
        /\ is_yangidentchar (peek rest) = false /\ code (peek rest) <> code ":"%char
        /\ lys_parse_nodeid id =
           (LY_SUCCESS, rest, mk_parts None 0 (Some id) (String.length name))).
Proof.
  unfold lys_parse_nodeid.
  destruct (lys_parse_id_split id)
    as [[Hs ->]|(p & rest & Hid & Hp & Hstop & -> & Hlen)]; [left; auto|right].
  rewrite Hlen. destruct (Z.eqb_spec (code (peek rest)) (code ":"%char)) as [Hc|Hc].
  - destruct rest as [|c tail]; [discriminate Hc|]. cbn [peek next] in *.
    apply code_inj in Hc. subst c.
    destruct (lys_parse_id_split tail)
      as [[Hs ->]|(n & rest & Htail & Hn & Hstop2 & -> & Hlen2)].
    + left. exists p, tail. auto.
    + right. left. exists p, n, rest. rewrite Hlen2, <- Htail. auto 10.
  - right. right. exists p, rest. auto 10.
Qed.

End LexicalFacts.

(** ** The first segment of a nodeid *)

Module SegmentFacts.
Import Schema Lexical Resolver Samples CStrFacts TypesFacts KeywordsFacts
       LexicalFacts ResolverFacts.

Lemma is_identifier_peek name rest :
  is_identifier name = true ->
  code (peek (name +:+ rest)) <> 0 /\ code (peek (name +:+ rest)) <> code "/"%char.
Proof.
  destruct name as [|c name]; [discriminate|]. cbn [is_identifier].
  intros [Hc _]%andb_prop. rewrite append_cons. cbn [peek].
  unfold is_yangidentstartchar, isalpha in Hc. change (code "/"%char) with 47.
  change (code "_"%char) with 95 in Hc. lia.
Qed.

Section FirstSegment.

Variable lysc_node : Set.
Variable node_nodetype : lysc_node -> Z.
Variable lys_child :
  option lysc_node -> handle -> string -> nat -> Z -> Z -> option lysc_node.
Variable ly_ctx_module_implement_internal : ly_ctx -> handle -> Z -> ly_ctx.

Local Abbreviation resolve :=
  (lys_resolve_schema_nodeid lysc_node node_nodetype lys_child
                             ly_ctx_module_implement_internal).

(** X7: a nodeid that ends behind its first segment, at the end of the
    input or because [nodeid_len] is reached there, is one lookup of the
    segment (without prefix) among the children of the context node (the
    top level for an absolute nodeid) in the context module, with the
    options no-state-check, with-choice and with-case; what follows the
    segment is not looked at. With the implement flag a context module
    that is not implemented is made implemented before the lookup, also
    when the lookup then fails. A child that is found is the target; it
    is denied when a mask is given that does not hold its node type, and
    a notification sets the notification flag. *)
Theorem lys_resolve_schema_nodeid_one_segment
        ctx name rest nodeid_len context_node context_module nodetype implement :
  is_identifier name = true ->
  is_yangidentchar (peek rest) = false -> code (peek rest) <> code ":"%char ->
  is_action _ node_nodetype context_node = false ->
  let nodeid := match context_node with
                | Some _ => name +:+ rest
                | None => "/" +:+ name +:+ rest
                end in
  let ctx' := if implement && negb (module_implemented ctx context_module)
              then ly_ctx_module_implement_internal ctx context_module 2 else ctx in
  code (peek rest) = 0
  \/ (0 < nodeid_len <= String.length nodeid - String.length rest)%nat ->
  resolve ctx nodeid nodeid_len context_node context_module nodetype implement =
  match lys_child context_node context_module (name +:+ rest) (String.length name) 0
                  0x105 with
  | None => mk_resolved _ ctx' LY_ENOTFOUND None 0
  | Some child =>
    mk_resolved _ ctx'
                (if negb (nodetype =? 0) && (Z.land (node_nodetype child) nodetype =? 0)
                 then LY_EDENIED else LY_SUCCESS)
                (Some child)
                (if node_nodetype child =? LYS_NOTIF then LYSC_OPT_NOTIFICATION else 0)
  end.
Proof.
  intros Hname Hrest Hcolon Haction. cbv zeta. intros Hstop.
  pose proof (is_identifier_peek name rest Hname) as [Hnul Hslash].
  pose proof (proj2 (lys_parse_nodeid_join name name rest Hname Hname Hrest) Hcolon)
    as Hparse.
  unfold lys_resolve_schema_nodeid, resolve_segments.
  assert (forall total,
             code (peek rest) = 0
             \/ (0 < nodeid_len <= total - String.length rest)%nat ->
             resolve_loop lysc_node node_nodetype lys_child ly_ctx_module_implement_internal
                          (S total) total nodeid_len context_module implement
                          (name +:+ rest) LY_EVALID
                          (mk_state _ ctx context_node 0 0 0)
             = match lys_child context_node context_module (name +:+ rest)
                               (String.length name) 0 0x105 with
               | None =>
                 Returned _ (if implement && negb (module_implemented ctx context_module)
                             then ly_ctx_module_implement_internal ctx context_module 2
                             else ctx) LY_ENOTFOUND 0
               | Some child =>
                 Exited _ (mk_state _ (if implement
                                          && negb (module_implemented ctx context_module)
                                       then ly_ctx_module_implement_internal
                                              ctx context_module 2
                                       else ctx)
                                    (Some child) 0 (node_nodetype child)
                                    (if node_nodetype child =? LYS_NOTIF
                                     then Z.lor 0 LYSC_OPT_NOTIFICATION else 0))
                        LY_SUCCESS
               end) as Hloop.
  { intros total Htotal. cbn [resolve_loop].
    apply Z.eqb_neq in Hnul. rewrite Hnul, Hparse.
    cbn [np_prefix np_name np_name_len rs_ctx rs_node rs_extra rs_current rs_flag].
    unfold select_node.
    cbn [rs_ctx rs_node rs_extra rs_current rs_flag]. rewrite Haction. cbn [andb].
    change (Z.lor (Z.lor (Z.lor 0 LYS_GETNEXT_NOSTATECHECK) LYS_GETNEXT_WITHCHOICE)
                  LYS_GETNEXT_WITHCASE) with 0x105.
    destruct (lys_child context_node context_module (name +:+ rest) (String.length name)
                        0 0x105) as [child|]; [|reflexivity].
    assert ((code (peek rest) =? 0)
            || negb (Nat.eqb nodeid_len 0)
               && (nodeid_len <=? total - String.length rest)%nat = true) as ->;
      [|reflexivity].
    destruct Htotal as [H0|[Hpos Hle]].
    - apply Z.eqb_eq in H0. now rewrite H0.
    - apply Nat.leb_le in Hle. rewrite Hle, andb_true_r.
      destruct nodeid_len; [lia|]. cbn [Nat.eqb negb]. apply orb_true_r. }
  destruct context_node as [n|].
  - apply Z.eqb_neq in Hslash. rewrite Hslash, (Hloop _ Hstop).
    destruct (lys_child _ _ _ _ _ _) as [child|]; [|reflexivity].
    cbn [rs_current rs_ctx rs_node rs_flag].
    destruct (negb (nodetype =? 0) && _); reflexivity.
  - change ("/" +:+ name +:+ rest) with (String "/"%char (name +:+ rest)) in Hstop |- *.
    cbn [peek next negb]. rewrite Z.eqb_refl.
    cbn [negb]. rewrite (Hloop _ Hstop).
    destruct (lys_child _ _ _ _ _ _) as [child|]; [|reflexivity].
    cbn [rs_current rs_ctx rs_node rs_flag].
    destruct (negb (nodetype =? 0) && _); reflexivity.
Qed.

(** X8: a prefix that stands for no module. When the first segment of
    a nodeid is [prefix:name] and the prefix lookup in the context module
    finds nothing, the call returns LY_ENOTFOUND at once: no child is
    looked up, no module is made implemented (also with the implement
    flag), no node and no flag are handed back. *)
Theorem lys_resolve_schema_nodeid_unknown_prefix
        ctx prefix name rest nodeid_len context_node context_module nodetype implement :
  is_identifier prefix = true -> is_identifier name = true ->
  is_yangidentchar (peek rest) = false ->
  lys_module_find_prefix ctx context_module (prefix +:+ ":" +:+ name +:+ rest)
                         (String.length prefix) = None ->
  let nodeid := match context_node with
                | Some _ => prefix +:+ ":" +:+ name +:+ rest
                | None => "/" +:+ prefix +:+ ":" +:+ name +:+ rest
                end in
  resolve ctx nodeid nodeid_len context_node context_module nodetype implement =
  mk_resolved _ ctx LY_ENOTFOUND None 0.
Proof.
  intros Hprefix Hname Hrest Hfind. cbv zeta.
  pose proof (is_identifier_peek prefix (":" +:+ name +:+ rest) Hprefix) as [Hnul Hslash].
  pose proof (proj1 (lys_parse_nodeid_join prefix name rest Hprefix Hname Hrest)) as Hparse.
  unfold lys_resolve_schema_nodeid, resolve_segments.
  assert (forall total,
             resolve_loop lysc_node node_nodetype lys_child ly_ctx_module_implement_internal
                          (S total) total nodeid_len context_module implement
                          (prefix +:+ ":" +:+ name +:+ rest) LY_EVALID
                          (mk_state _ ctx context_node 0 0 0)
             = Returned _ ctx LY_ENOTFOUND 0) as Hloop.
  { intros total. cbn [resolve_loop].
    apply Z.eqb_neq in Hnul. rewrite Hnul, Hparse.
    cbn [np_prefix np_prefix_len rs_ctx rs_flag]. now rewrite Hfind. }
  destruct context_node as [n|].
  - apply Z.eqb_neq in Hslash. now rewrite Hslash, Hloop.
  - rewrite append_cons, append_nil. cbn [peek next negb]. rewrite Z.eqb_refl.
    cbn [negb String.length]. now rewrite Hloop.
Qed.

End FirstSegment.

(** On the sample tree: the container c and the notification n at the
    top level, a leaf that is not there, and a nodeid cut behind its first
    segment by the length that comes with it. *)
Lemma lys_resolve_schema_nodeid_one_segment_witness :
  resolve_sample "/c" None 0 =
  Resolver.mk_resolved _ ctx_m LY_SUCCESS (Some container_top) 0
  /\ resolve_sample "/n" None 0 =
     Resolver.mk_resolved _ ctx_m LY_SUCCESS (Some notif_n) LYSC_OPT_NOTIFICATION
  /\ resolve_sample "/x" None 0 = Resolver.mk_resolved _ ctx_m LY_ENOTFOUND None 0
  /\ resolve_sample "/c" None LYS_LEAF =
     Resolver.mk_resolved _ ctx_m LY_EDENIED (Some container_top) 0
  /\ Resolver.lys_resolve_schema_nodeid sample_node sample_nodetype sample_child
       no_implement ctx_m "/c/x" 2 None 0%nat 0 false =
     Resolver.mk_resolved _ ctx_m LY_SUCCESS (Some container_top) 0.
Proof.
  split; [|split; [|split; [|split]]].
  - apply (lys_resolve_schema_nodeid_one_segment sample_node sample_nodetype sample_child
             no_implement ctx_m "c" "" 0 None 0%nat 0 false eq_refl eq_refl);
      [vm_compute; discriminate|reflexivity|now left].
  - apply (lys_resolve_schema_nodeid_one_segment sample_node sample_nodetype sample_child
             no_implement ctx_m "n" "" 0 None 0%nat 0 false eq_refl eq_refl);
      [vm_compute; discriminate|reflexivity|now left].
  - apply (lys_resolve_schema_nodeid_one_segment sample_node sample_nodetype sample_child
             no_implement ctx_m "x" "" 0 None 0%nat 0 false eq_refl eq_refl);
      [vm_compute; discriminate|reflexivity|now left].
  - apply (lys_resolve_schema_nodeid_one_segment sample_node sample_nodetype sample_child
             no_implement ctx_m "c" "" 0 None 0%nat LYS_LEAF false eq_refl eq_refl);
      [vm_compute; discriminate|reflexivity|now left].
  - apply (lys_resolve_schema_nodeid_one_segment sample_node sample_nodetype sample_child
             no_implement ctx_m "c" "/x" 2 None 0%nat 0 false eq_refl eq_refl);
      [vm_compute; discriminate|reflexivity|right; simpl; lia].
Defined.

(** Module m imports nothing: the prefix x stands for no module. *)
Lemma lys_resolve_schema_nodeid_unknown_prefix_witness :
  resolve_sample "/x:c/d" None 0 = Resolver.mk_resolved _ ctx_m LY_ENOTFOUND None 0.
Proof.
  exact (lys_resolve_schema_nodeid_unknown_prefix sample_node sample_nodetype sample_child
           no_implement ctx_m "x" "c" "/d" 0 None 0%nat 0 false
           eq_refl eq_refl eq_refl eq_refl).
Defined.

End SegmentFacts.
